(** * Mnemon: memory lifecycle, consolidation sweep and scoring

    A shallow embedding of the SQLite-backed memory store of Mnemon
    (server.py, consolidate.py, surface.py) and the properties of its
    lifecycle operations.

    Modelling conventions.
    - The three tables (memories, tags, relations) are lists of rows in
      rowid order; the counter of sqlite_sequence is a field of the store.
    - REAL columns (importance, confidence) are exact rationals [Q]; the
      constants 0.9, 0.1, 0.7 are the rationals of the same name.
    - Timestamps are written by [datetime.now(timezone.utc).isoformat()];
      the text order of those strings is their chronological order, so a
      timestamp is the number of microseconds since the epoch and the SQL
      text comparison is [<?] on [Z].
    - A Python exception is a [Raise]; a transaction that raises before
      [db.commit()] leaves the durable store as it was. *)

From Stdlib Require Import List ZArith QArith Qreals Reals String Ascii Bool.
From Stdlib Require Import Lia Lra DecimalString Sorted.
Import ListNotations.

Local Open Scope Z_scope.

(** ** Exceptions and the error monad *)

Inductive error : Type :=
| IntegrityError   (* sqlite3.IntegrityError: FOREIGN KEY constraint failed *)
| ValueError       (* max() of an empty sequence *)
| TypeError.       (* TypeError or AttributeError: a value of the wrong type *)

Inductive result (A : Type) : Type :=
| Ok (a : A)
| Raise (e : error).

Arguments Ok {A} a.
Arguments Raise {A} e.

Definition bind {A B : Type} (r : result A) (k : A -> result B) : result B :=
  match r with
  | Ok a => k a
  | Raise e => Raise e
  end.

Notation "x <- r ;; k" := (bind r (fun x => k))
  (at level 61, r at next level, right associativity).

(** ** Data model (SCHEMA_SQL in server.py) *)

Definition timestamp := Z.

Definition days (n : Z) : Z := n * 86400 * 1000000.

Record memory : Type := mkMemory {
  id : Z;
  category : string;
  content : string;
  context : option string;
  project : option string;
  confidence : Q;
  importance : Q;
  access_count : Z;
  last_accessed : option timestamp;
  created_at : timestamp;
  updated_at : timestamp;
  source_session : option string;
  superseded_by : option Z
}.

Record store : Type := mkStore {
  memories : list memory;
  tags : list (Z * string);
  relations : list (Z * Z * string);
  sqlite_sequence : Z
}.

Inductive lifecycle : Type := Active | Superseded | Retired.

(** [superseded_by IS NULL] *)
Definition is_active (m : memory) : bool :=
  match superseded_by m with
  | None => true
  | Some _ => false
  end.

(** The tri-state reading of [superseded_by]: null, own id or a negative
    sentinel, or the id of a replacement. *)
Definition state_of (m : memory) : lifecycle :=
  match superseded_by m with
  | None => Active
  | Some k => if (k =? id m) || (k <? 0) then Retired else Superseded
  end.

Definition ids (s : store) : list Z := map id (memories s).

Definition lookup (i : Z) (s : store) : option memory :=
  find (fun m => id m =? i) (memories s).

Definition tags_of (i : Z) (s : store) : list string :=
  map snd (filter (fun p => fst p =? i) (tags s)).

(** Constraints the database enforces on every committed state: the primary
    key of memories, positive AUTOINCREMENT ids and the foreign key of tags. *)
Record wf_store (s : store) : Prop := mkWf {
  wf_ids_unique : NoDup (ids s);
  wf_ids_pos : forall m, In m (memories s) -> 0 < id m;
  wf_tags_fk : forall p, In p (tags s) -> In (fst p) (ids s)
}.

(** ** Row setters (the SET clauses) *)

Definition set_importance (q : Q) (now : timestamp) (m : memory) : memory :=
  mkMemory (id m) (category m) (content m) (context m) (project m)
    (confidence m) q (access_count m) (last_accessed m) (created_at m)
    now (source_session m) (superseded_by m).

Definition set_superseded_stamped (k : Z) (now : timestamp) (m : memory)
  : memory :=
  mkMemory (id m) (category m) (content m) (context m) (project m)
    (confidence m) (importance m) (access_count m) (last_accessed m)
    (created_at m) now (source_session m) (Some k).

Definition set_superseded (k : Z) (m : memory) : memory :=
  mkMemory (id m) (category m) (content m) (context m) (project m)
    (confidence m) (importance m) (access_count m) (last_accessed m)
    (created_at m) (updated_at m) (source_session m) (Some k).

Definition touch (ts : timestamp) (m : memory) : memory :=
  mkMemory (id m) (category m) (content m) (context m) (project m)
    (confidence m) (importance m) (access_count m + 1) (Some ts)
    (created_at m) (updated_at m) (source_session m) (superseded_by m).

(** ** SQL statements *)

Definition with_memories (rows : list memory) (s : store) : store :=
  mkStore rows (tags s) (relations s) (sqlite_sequence s).

Definition apply_where (p : memory -> bool) (f : memory -> memory)
  (rows : list memory) : list memory :=
  map (fun m => if p m then f m else m) rows.

(** UPDATE memories SET ... WHERE p, for a SET clause that leaves
    superseded_by alone. *)
Definition update_where (p : memory -> bool) (f : memory -> memory)
  (s : store) : store :=
  with_memories (apply_where p f (memories s)) s.

(** FOREIGN KEY (superseded_by) REFERENCES memories(id), with
    PRAGMA foreign_keys=ON: a non-null child key needs a parent row. *)
Definition fk_ok (rows : list memory) (v : option Z) : bool :=
  match v with
  | None => true
  | Some k => existsb (fun m => id m =? k) rows
  end.

(** UPDATE memories SET superseded_by = ..., ... WHERE p.  The constraint is
    checked for the rows the statement wrote; a violation reverts the
    statement and raises. *)
Definition update_fk (p : memory -> bool) (f : memory -> memory)
  (s : store) : result store :=
  let rows := apply_where p f (memories s) in
  if forallb (fun m => negb (p m) || fk_ok rows (superseded_by (f m)))
       (memories s)
  then Ok (with_memories rows s)
  else Raise IntegrityError.

(** The database state a caller observes after running a transaction body:
    the committed state, or the initial one when the body raised. *)
Definition durable {A : Type} (s : store) (t : result (store * A)) : store :=
  match t with
  | Ok (s', _) => s'
  | Raise _ => s
  end.

(** ** Text functions of SQLite: TRIM (spaces) and LOWER (ASCII) *)

Local Open Scope string_scope.

Definition is_space (c : ascii) : bool := Ascii.eqb c " "%char.

Fixpoint ltrim (s : string) : string :=
  match s with
  | String c s' => if is_space c then ltrim s' else s
  | EmptyString => EmptyString
  end.

Fixpoint rtrim (s : string) : string :=
  match s with
  | EmptyString => EmptyString
  | String c s' =>
      match rtrim s' with
      | EmptyString => if is_space c then EmptyString else String c EmptyString
      | t => String c t
      end
  end.

Definition sql_trim (s : string) : string := rtrim (ltrim s).

Definition lower_ascii (c : ascii) : ascii :=
  let n := nat_of_ascii c in
  if (65 <=? n)%nat && (n <=? 90)%nat then ascii_of_nat (n + 32) else c.

Fixpoint sql_lower (s : string) : string :=
  match s with
  | EmptyString => EmptyString
  | String c s' => String (lower_ascii c) (sql_lower s')
  end.

(** LOWER(TRIM(content)) *)
Definition content_key (m : memory) : string := sql_lower (sql_trim (content m)).

Local Close Scope string_scope.

(** ** Comparisons on REAL values *)

Definition Qlt_bool (a b : Q) : bool := negb (Qle_bool b a).

(** ** consolidate.py *)

Module Consolidate.

(** How long ago a record was created, as the spec counts it. *)
Definition age (now : timestamp) (m : memory) : Z := now - created_at m.

(** WHERE clause of the decay UPDATE; [now - days 30] is cutoff_30d. *)
Definition decay_eligible (now : timestamp) (m : memory) : bool :=
  is_active m && (access_count m =? 0) && (created_at m <? now - days 30)
  && Qlt_bool 0.1 (importance m).

Definition decay_row (now : timestamp) (m : memory) : memory :=
  set_importance (importance m * 0.9)%Q now m.

Definition decay_pass (now : timestamp) (s : store) : store :=
  update_where (decay_eligible now) (decay_row now) s.

(** WHERE clause of the retirement UPDATE; [now - days 90] is cutoff_90d. *)
Definition retire_eligible (now : timestamp) (m : memory) : bool :=
  is_active m && Qlt_bool (importance m) 0.1 && (access_count m =? 0)
  && (created_at m <? now - days 90).

Definition retire_pass (now : timestamp) (s : store) : result store :=
  update_fk (retire_eligible now) (set_superseded_stamped (-1) now) s.

(** Members of the GROUP BY group of key [k] among active rows. *)
Definition group_members (k : string) (rows : list memory) : list memory :=
  filter (fun m => is_active m && String.eqb (content_key m) k) rows.

Definition active_keys (rows : list memory) : list string :=
  nodup string_dec (map content_key (filter is_active rows)).

(** The dupes query: one id list per group HAVING cnt > 1.  ([sorted] on the
    id list only orders the IN parameters; the rows come back in rowid
    order either way.) *)
Definition dupes (s : store) : list (list Z) :=
  filter (fun g => (1 <? List.length g)%nat)
    (map (fun k => map id (group_members k (memories s)))
       (active_keys (memories s))).

(** SELECT id, access_count, importance FROM memories WHERE id IN (ids) *)
Definition select_in (g : list Z) (s : store) : list memory :=
  filter (fun m => existsb (Z.eqb (id m)) g) (memories s).

(** key(b) > key(a) on the tuples (access_count, importance) *)
Definition key_lt (a b : memory) : bool :=
  if access_count a =? access_count b
  then Qlt_bool (importance a) (importance b)
  else access_count a <? access_count b.

(** Python's max(rows, key=...): the first row with the greatest key. *)
Fixpoint max_from (best : memory) (rest : list memory) : memory :=
  match rest with
  | [] => best
  | r :: rest' => max_from (if key_lt best r then r else best) rest'
  end.

Definition py_max (rows : list memory) : result memory :=
  match rows with
  | [] => Raise ValueError
  | r :: rest => Ok (max_from r rest)
  end.

Fixpoint for_each {A : Type} (body : A -> store -> result store)
  (l : list A) (s : store) : result store :=
  match l with
  | [] => Ok s
  | x :: l' => s' <- body x s ;; for_each body l' s'
  end.

Definition supersede_row (now : timestamp) (keeper row : memory) (s : store)
  : result store :=
  if id row =? id keeper then Ok s
  else update_fk (fun m => id m =? id row)
         (set_superseded_stamped (id keeper) now) s.

Definition merge_group (now : timestamp) (g : list Z) (s : store)
  : result store :=
  let rows := select_in g s in
  keeper <- py_max rows ;;
  for_each (supersede_row now keeper) rows s.

Definition dedup_pass (now : timestamp) (s : store) : result store :=
  for_each (merge_group now) (dupes s) s.

(** One group's loop seen from a row: a row of the group other than the
    keeper is pointed at the keeper. *)
Definition merge_row (now : timestamp) (kid : Z) (g : list Z) (m : memory)
  : memory :=
  if existsb (Z.eqb (id m)) g && negb (id m =? kid)
  then set_superseded_stamped kid now m else m.

(** The id of the row [max] picks for the id list [g]. *)
Definition keeper_id (g : list Z) (rows : list memory) : Z :=
  match filter (fun m => existsb (Z.eqb (id m)) g) rows with
  | [] => 0
  | r :: rest => id (max_from r rest)
  end.

(** All groups' loops in sequence, seen from a row. *)
Definition merged (now : timestamp) (rows : list memory) (gs : list (list Z))
  (m : memory) : memory :=
  fold_left (fun acc g => merge_row now (keeper_id g rows) g acc) gs m.

(** Rows that agree on what the keeper choice reads. *)
Definition same_key (a b : memory) : Prop :=
  id a = id b /\ access_count a = access_count b
  /\ importance a = importance b.

(** key(a) <= key(b) on the tuples (access_count, importance) *)
Definition key_le (a b : memory) : Prop :=
  access_count a < access_count b
  \/ (access_count a = access_count b /\ (importance a <= importance b)%Q).

(** What the pass amounts to on one row, given the rows it started from:
    an Active row of a group of two or more that is not the group's keeper
    is pointed at the keeper; any other row stays. *)
Definition dedup_row (now : timestamp) (rows : list memory) (m : memory)
  : memory :=
  if is_active m then
    match group_members (content_key m) rows with
    | r :: (_ :: _) as rest =>
        let keeper := max_from r rest in
        if id m =? id keeper then m
        else set_superseded_stamped (id keeper) now m
    | _ => m
    end
  else m.

(** The body of [consolidate] between connect and commit. *)
Definition consolidate_txn (now : timestamp) (s : store) : result store :=
  s2 <- retire_pass now (decay_pass now s) ;;
  dedup_pass now s2.

(** The store after [consolidate] has run (or died before its commit). *)
Definition consolidate (now : timestamp) (s : store) : store :=
  durable s (s' <- consolidate_txn now s ;; Ok (s', tt)).

End Consolidate.

(** ** server.py *)

Module Server.

Local Open Scope string_scope.
Local Open Scope Z_scope.

(** The strings the tools return, by the f-string that builds them. *)
Record entry : Type := mkEntry {
  e_id : Z;
  e_content : string;
  e_category : string;
  e_project : option string;
  e_importance : Q;
  e_confidence : Q;
  e_access_count : Z;
  e_created_at : timestamp;
  e_superseded : bool
}.

Inductive reply : Type :=
| NotFound (i : Z)                          (* Memory #i not found. *)
| SupersededBy (old new : Z) (c : string)   (* Memory #old superseded by #new: c *)
| NotFoundOrForgotten (i : Z)               (* Memory #i not found or already forgotten. *)
| Forgotten (i : Z) (c : string)            (* Forgotten memory #i: c *)
| NoMemories                                (* No memories found [matching that query]. *)
| Listing (entries : list entry).           (* json.dumps(results) *)

(** Truthiness of an optional string argument: [if x:]. *)
Definition truthy (o : option string) : option string :=
  match o with
  | Some EmptyString => None
  | other => other
  end.

Definition show_int (n : Z) : string := NilZero.string_of_int (Z.to_int n).

(** AUTOINCREMENT: one more than the largest rowid ever used. *)
Definition next_rowid (s : store) : Z :=
  Z.max (sqlite_sequence s) (fold_right Z.max 0 (ids s)) + 1.

Definition insert_memory (row : memory) (s : store) : store :=
  mkStore (memories s ++ [row]) (tags s) (relations s) (id row).

Definition has_id (i : Z) (s : store) : bool :=
  existsb (fun m => id m =? i) (memories s).

Definition relation_eqb (a b : Z * Z * string) : bool :=
  (fst (fst a) =? fst (fst b))%Z && (snd (fst a) =? snd (fst b))%Z
  && String.eqb (snd a) (snd b).

(** INSERT OR IGNORE INTO relations VALUES (from, to, type) *)
Definition insert_relation (e : Z * Z * string) (s : store) : result store :=
  if has_id (fst (fst e)) s && has_id (snd (fst e)) s then
    Ok (if existsb (relation_eqb e) (relations s) then s
        else mkStore (memories s) (tags s) (relations s ++ [e])
               (sqlite_sequence s))
  else Raise IntegrityError.

Definition tag_eqb (a b : Z * string) : bool :=
  (fst a =? fst b)%Z && String.eqb (snd a) (snd b).

(** INSERT OR IGNORE INTO tags VALUES (i, t) *)
Definition insert_tag (p : Z * string) (s : store) : result store :=
  if has_id (fst p) s then
    Ok (if existsb (tag_eqb p) (tags s) then s
        else mkStore (memories s) (tags s ++ [p]) (relations s)
               (sqlite_sequence s))
  else Raise IntegrityError.

(** INSERT OR IGNORE INTO tags (memory_id, tag)
    SELECT new, tag FROM tags WHERE memory_id = old *)
Definition copy_tags (old new : Z) (s : store) : result store :=
  Consolidate.for_each (fun t => insert_tag (new, t)) (tags_of old s) s.

(** max(x, 0.7) of Python: the second argument wins only when greater. *)
Definition py_max2 (a b : Q) : Q := if Qlt_bool a b then b else a.

Definition correct (ts : timestamp) (session : option string)
  (old_memory_id : Z) (new_content : string) (reason : option string)
  (s : store) : result (store * reply) :=
  match lookup old_memory_id s with
  | None => Ok (s, NotFound old_memory_id)
  | Some old =>
      let ctx := match truthy reason with
                 | Some r => r
                 | None => ("Correction of #" ++ show_int old_memory_id)%string
                 end in
      let new_id := next_rowid s in
      let s1 := insert_memory
                  (mkMemory new_id (category old) new_content (Some ctx)
                     (project old) 0.9 (py_max2 (importance old) 0.7) 0 None
                     ts ts session None) s in
      s2 <- update_fk (fun m => id m =? old_memory_id)%Z
              (set_superseded new_id) s1 ;;
      s3 <- insert_relation (new_id, old_memory_id, "supersedes") s2 ;;
      s4 <- copy_tags old_memory_id new_id s3 ;;
      Ok (s4, SupersededBy old_memory_id new_id new_content)
  end.

Definition forget (memory_id : Z) (s : store) : result (store * reply) :=
  match find (fun m => (id m =? memory_id)%Z && is_active m) (memories s) with
  | None => Ok (s, NotFoundOrForgotten memory_id)
  | Some existing =>
      s' <- update_fk (fun m => id m =? memory_id)%Z
              (fun m => set_superseded (id m) m) s ;;
      Ok (s', Forgotten memory_id (content existing))
  end.

(** *** Read paths *)

Definition category_cond (c : option string) (m : memory) : bool :=
  match truthy c with
  | Some c' => String.eqb (category m) c'
  | None => true
  end.

(** [(project = ? OR project IS NULL)], appended only [if project:]. *)
Definition project_cond (p : option string) (m : memory) : bool :=
  match truthy p with
  | Some p' =>
      match project m with
      | Some q => String.eqb q p'
      | None => true
      end
  | None => true
  end.

Fixpoint insert_by {A : Type} (le : A -> A -> bool) (x : A) (l : list A)
  : list A :=
  match l with
  | [] => [x]
  | y :: l' => if le x y then x :: l else y :: insert_by le x l'
  end.

(** ORDER BY, as a stable insertion sort. *)
Definition order_by {A : Type} (le : A -> A -> bool) (l : list A) : list A :=
  fold_right (insert_by le) [] l.

(** LIMIT n; a negative limit is no limit. *)
Definition sql_limit {A : Type} (n : Z) (l : list A) : list A :=
  if (n <? 0)%Z then l else firstn (Z.to_nat n) l.

Definition entry_of (flag : bool) (m : memory) : entry :=
  mkEntry (id m) (content m) (category m) (project m) (importance m)
    (confidence m) (access_count m) (created_at m)
    (flag && negb (is_active m)).

Definition score_key (m : memory) : Q :=
  (importance m * confidence m * (1 + inject_Z (access_count m) * 0.1))%Q.

Definition order_map (sort : string) (a b : memory) : bool :=
  if String.eqb sort "recency" then (created_at b <=? created_at a)%Z
  else if String.eqb sort "importance"
       then Qle_bool (importance b) (importance a)
  else if String.eqb sort "accessed"
       then (access_count b <=? access_count a)%Z
  else Qle_bool (score_key b) (score_key a).

Definition list_rows (category project : option string) (limit : Z)
  (sort : string) (s : store) : list memory :=
  sql_limit limit
    (order_by (order_map sort)
       (filter (fun m => is_active m && category_cond category m
                         && project_cond project m) (memories s))).

Definition list_memories (category project : option string) (limit : Z)
  (sort : string) (s : store) : store * reply :=
  match list_rows category project limit sort s with
  | [] => (s, NoMemories)
  | rows => (s, Listing (map (entry_of false) rows))
  end.

Section Recall.

(** The full-text index is a black box: which rows MATCH a query, and the
    rank it orders them by. *)
Variable fts_match : string -> memory -> bool.
Variable fts_rank : string -> memory -> Q.

Definition recall_rows (query : string) (category project : option string)
  (limit : Z) (include_superseded : bool) (s : store) : list memory :=
  sql_limit limit
    (order_by (fun a b => Qle_bool (fts_rank query a) (fts_rank query b))
       (filter (fun m => fts_match query m
                         && (include_superseded || is_active m)
                         && category_cond category m
                         && project_cond project m) (memories s))).

Definition recall (ts : timestamp) (query : string)
  (category project : option string) (limit : Z) (include_superseded : bool)
  (s : store) : store * reply :=
  let rows := recall_rows query category project limit include_superseded s in
  let s' := fold_left
              (fun acc row => update_where (fun m => id m =? id row)%Z
                                (touch ts) acc) rows s in
  match rows with
  | [] => (s', NoMemories)
  | _ => (s', Listing (map (entry_of include_superseded) rows))
  end.

End Recall.

End Server.

(** ** server.py, the remaining tools *)

Module Tools.

Import Server.

Local Open Scope string_scope.
Local Open Scope Z_scope.

Definition VALID_CATEGORIES : list string :=
  ["preferences"; "facts"; "corrections"; "decisions";
   "project-knowledge"; "relationships"; "procedures"].

Definition valid_relations : list string :=
  ["contradicts"; "supports"; "refines"; "supersedes"].

(** [x in S] for a set of strings *)
Definition member (x : string) (l : list string) : bool :=
  existsb (String.eqb x) l.

Inductive tool_reply : Type :=
| InvalidCategory (c : string)       (* Invalid category 'c'. Use one of: ... *)
| Stored (i : Z) (c : string) (imp conf : Q)
                                     (* Stored memory #i [c] (importance=, confidence=) *)
| InvalidRelation (r : string)       (* Invalid relation 'r'. Use one of: ... *)
| MissingMemory (i : Z)              (* Memory #i not found. *)
| Linked (a b : Z) (r : string).     (* Linked #a --r--> #b *)

(** min(a, b) of Python: the second argument wins only when smaller. *)
Definition py_min2 (a b : Q) : Q := if Qlt_bool b a then b else a.

(** max(0.0, min(1.0, x)) *)
Definition clamp01 (x : Q) : Q := py_max2 0 (py_min2 1 x).

Section Remember.

(** [tag.strip().lower()] of Python, taken as given. *)
Variable normalize_tag : string -> string.

Definition remember (ts : timestamp) (session : option string)
  (content category : string) (project : option string)
  (importance confidence : Q) (tags : option (list string))
  (context : option string) (s : store) : result (store * tool_reply) :=
  if negb (member category VALID_CATEGORIES)
  then Ok (s, InvalidCategory category)
  else
    let importance := clamp01 importance in
    let confidence := clamp01 confidence in
    let memory_id := next_rowid s in
    let s1 := insert_memory
                (mkMemory memory_id category content context project
                   confidence importance 0 None ts ts session None) s in
    s2 <- match tags with
          | Some (t :: l) =>
              Consolidate.for_each
                (fun tag => insert_tag (memory_id, normalize_tag tag))
                (t :: l) s1
          | _ => Ok s1
          end ;;
    Ok (s2, Stored memory_id category importance confidence).

End Remember.

Definition relate (from_id to_id : Z) (relation : string) (s : store)
  : result (store * tool_reply) :=
  if negb (member relation valid_relations)
  then Ok (s, InvalidRelation relation)
  else if negb (has_id from_id s) then Ok (s, MissingMemory from_id)
  else if negb (has_id to_id s) then Ok (s, MissingMemory to_id)
  else
    s' <- insert_relation (from_id, to_id, relation) s ;;
    Ok (s', Linked from_id to_id relation).

End Tools.

(** ** server.py, memory_stats *)

Module Stats.

Import Server.

Local Open Scope string_scope.
Local Open Scope Z_scope.

Record top_entry : Type := mkTop {
  t_id : Z;
  t_content : string;
  t_access_count : Z
}.

Record stats : Type := mkStats {
  total_active : Z;
  total_superseded : Z;
  by_category : list (string * Z);
  by_project : list (string * Z);
  most_accessed : list top_entry
}.

(** [d[k] = v] on a dict, kept in insertion order. *)
Fixpoint dict_set (k : string) (v : Z) (d : list (string * Z))
  : list (string * Z) :=
  match d with
  | [] => [(k, v)]
  | (k', v') :: d' =>
      if String.eqb k' k then (k', v) :: d' else (k', v') :: dict_set k v d'
  end.

(** A dict comprehension: a later pair overwrites an earlier one of the
    same key. *)
Definition dict_of (pairs : list (string * Z)) : list (string * Z) :=
  fold_left (fun d p => dict_set (fst p) (snd p) d) pairs [].

Fixpoint dict_get (k : string) (d : list (string * Z)) : option Z :=
  match d with
  | [] => None
  | (k', v) :: d' => if String.eqb k' k then Some v else dict_get k d'
  end.

Definition sum_values (d : list (string * Z)) : Z :=
  fold_right Z.add 0 (map snd d).

(** Equality of the project column as GROUP BY sees it: NULLs form one
    group. *)
Definition same_project (a b : option string) : bool :=
  match a, b with
  | None, None => true
  | Some x, Some y => String.eqb x y
  | _, _ => false
  end.

(** [count( * )] of the rows that satisfy [f]. *)
Definition count_where (f : memory -> bool) (rows : list memory) : Z :=
  Z.of_nat (List.length (filter f rows)).

(** WHERE superseded_by IS NULL *)
Definition active_rows (s : store) : list memory :=
  filter is_active (memories s).

(** [row[0] or "global"] *)
Definition or_global (p : option string) : string :=
  match truthy p with
  | Some q => q
  | None => "global"
  end.

Definition top_of (m : memory) : top_entry :=
  mkTop (id m) (content m) (access_count m).

(** SQL leaves open in which order GROUP BY returns its groups: [cats] and
    [projs] are the group keys in the order the two queries return them. *)
Definition memory_stats (cats : list string) (projs : list (option string))
  (s : store) : stats :=
  mkStats
    (count_where (fun _ => true) (active_rows s))
    (count_where (fun m => negb (is_active m)) (memories s))
    (dict_of
       (map (fun c => (c, count_where (fun m => String.eqb (category m) c)
                            (active_rows s))) cats))
    (dict_of
       (map (fun p => (or_global p,
                       count_where (fun m => same_project (project m) p)
                         (active_rows s))) projs))
    (map top_of
       (sql_limit 5
          (order_by (fun a b => access_count b <=? access_count a)
             (active_rows s)))).

(** [keys] are the groups of GROUP BY [key] over the Active rows: each
    value of the column once. *)
Definition groups_of {K : Type} (key : memory -> K) (keys : list K)
  (s : store) : Prop :=
  NoDup keys /\ forall k, In k keys <-> In k (map key (active_rows s)).

End Stats.

(** ** extract.py *)

Module Extract.

Import Server Tools.

Local Open Scope string_scope.
Local Open Scope Z_scope.

(** A value as [json.loads] returns it: [None], a bool, an int, a float
    (finite, or NaN, Infinity or -Infinity, which the parser accepts), a
    str (held as its UTF-8 text), a list or a dict. *)
#[local] Unset Elimination Schemes.

Inductive json : Type :=
| JNull
| JBool (b : bool)
| JInt (z : Z)
| JFloat (q : Q)
| JNaN
| JInfinity
| JNegInfinity
| JString (t : string)
| JArray (l : list json)
| JObject (d : list (string * json)).

#[local] Set Elimination Schemes.

(** The value a dict holds for a key. *)
Fixpoint field (key : string) (d : list (string * json)) : option json :=
  match d with
  | [] => None
  | (k, v) :: d' => if String.eqb k key then Some v else field key d'
  end.

(** [d.get(key, default)] *)
Definition get {A : Type} (v : option A) (default : A) : A :=
  match v with
  | Some a => a
  | None => default
  end.

(** [item.get(key, default)]: only a dict has [get]. *)
Definition item_get (it : json) (key : string) (default : json)
  : result json :=
  match it with
  | JObject d => Ok (get (field key d) default)
  | _ => Raise TypeError
  end.

(** The receiver of [.strip()]: only a str has [strip]. *)
Definition as_str (v : json) : result string :=
  match v with
  | JString t => Ok t
  | _ => Raise TypeError
  end.

(** [category not in {...}] then ["facts"]: a list or a dict cannot be
    hashed; any other value that is not one of the seven names gives
    "facts". *)
Definition pick_category (v : json) : result string :=
  match v with
  | JString c => Ok (if negb (member c VALID_CATEGORIES) then "facts" else c)
  | JArray _ | JObject _ => Raise TypeError
  | _ => Ok "facts"
  end.

(** [max(0.0, min(1.0, x))]: [x] is compared with a float, so it has to be
    a number (a bool counts as 0 or 1); every comparison with NaN is
    false, so NaN comes out as 1.0. *)
Definition clamp_value (v : json) : result Q :=
  match v with
  | JBool b => Ok (clamp01 (if b then 1 else 0))
  | JInt z => Ok (clamp01 (inject_Z z))
  | JFloat q => Ok (clamp01 q)
  | JNaN | JInfinity => Ok 1%Q
  | JNegInfinity => Ok 0%Q
  | _ => Raise TypeError
  end.

Section Extraction.

(** [str.strip], [str.lower] and [len] of Python and the characters of a
    str (each a str of length one), taken as given. *)
Variable py_strip : string -> string.
Variable py_lower : string -> string.
Variable py_len : string -> nat.
Variable py_chars : string -> list string.

Definition is_empty (x : string) : bool := String.eqb x EmptyString.

(** [x[:5]]: a list or a str can be sliced, nothing else. *)
Definition first_five (v : json) : result (list json) :=
  match v with
  | JArray l => Ok (firstn 5 l)
  | JString t => Ok (map JString (firstn 5 (py_chars t)))
  | _ => Raise TypeError
  end.

(** The body of the loop over the tags: a tag that is not a str is passed
    over. *)
Definition store_tag (memory_id : Z) (tag : json) (s : store)
  : result store :=
  match tag with
  | JString t =>
      if negb (is_empty (py_strip t))
      then insert_tag (memory_id, py_lower (py_strip t)) s
      else Ok s
  | _ => Ok s
  end.

(** The body of the loop over [items[:5]]. *)
Definition store_item (ts : timestamp) (session_id : string)
  (project : option string) (it : json) (s : store) : result store :=
  c <- item_get it "content" (JString EmptyString) ;;
  t <- as_str c ;;
  let content_text := py_strip t in
  if is_empty content_text || (py_len content_text <? 10)%nat
  then Ok s
  else
    c <- item_get it "category" (JString "facts") ;;
    category <- pick_category c ;;
    i <- item_get it "importance" (JFloat 0.5) ;;
    importance <- clamp_value i ;;
    c <- item_get it "confidence" (JFloat 0.8) ;;
    confidence <- clamp_value c ;;
    let memory_id := next_rowid s in
    let s1 := insert_memory
                (mkMemory memory_id category content_text
                   (Some "Auto-extracted") project confidence importance
                   0 None ts ts (Some session_id) None) s in
    g <- item_get it "tags" (JArray []) ;;
    tgs <- first_five g ;;
    Consolidate.for_each (store_tag memory_id) tgs s1.

(** What [extract] does inside its transaction once the reply is parsed
    into a non-empty list: an exception leaves the loop, is swallowed by
    [except Exception] and [db.commit()] is never reached. *)
Definition extract (ts : timestamp) (session_id : string)
  (project : option string) (items : list json) (s : store) : result store :=
  Consolidate.for_each (store_item ts session_id project) (firstn 5 items) s.



End Extraction.

End Extract.

(** ** What the schema promises of a committed state *)

Module Invariants.

(** The columns no UPDATE of the program writes, except through the access
    bookkeeping of recall: everything but importance, updated_at and
    superseded_by. *)
Definition same_columns (m m' : memory) : Prop :=
  id m' = id m /\ category m' = category m /\ content m' = content m
  /\ context m' = context m /\ project m' = project m
  /\ confidence m' = confidence m /\ access_count m' = access_count m
  /\ last_accessed m' = last_accessed m /\ created_at m' = created_at m
  /\ source_session m' = source_session m.

(** All constraints of SCHEMA_SQL: the primary keys of the three tables and
    the four foreign keys, with positive AUTOINCREMENT ids. *)
Record schema_ok (s : store) : Prop := mkSchemaOk {
  ok_wf : wf_store s;
  ok_tags_pk : NoDup (tags s);
  ok_relations_pk : NoDup (relations s);
  ok_relations_fk : forall e, In e (relations s) ->
                      In (fst (fst e)) (ids s) /\ In (snd (fst e)) (ids s);
  ok_superseded_fk : forall m k, In m (memories s) ->
                       superseded_by m = Some k -> In k (ids s)
}.

(** One row through the three passes of a committed sweep; [rows] is the
    table as the dedup pass finds it. *)
Definition swept (now : timestamp) (rows : list memory) (m : memory)
  : memory :=
  Consolidate.dedup_row now rows
    ((fun x => if Consolidate.retire_eligible now x
               then set_superseded_stamped (-1) now x else x)
       (if Consolidate.decay_eligible now m
        then Consolidate.decay_row now m else m)).


(** The database before the first insert. *)
Definition empty_store : store := mkStore [] [] [] 0.

Section Reachable.

Variable normalize_tag : string -> string.
Variable py_strip : string -> string.
Variable py_lower : string -> string.
Variable py_len : string -> nat.
Variable py_chars : string -> list string.
Variable fts_match : string -> memory -> bool.
Variable fts_rank : string -> memory -> Q.

(** The states the tools, the extraction hook and the sweep can bring the
    database to. *)
Inductive reachable : store -> Prop :=
| reach_empty : reachable empty_store
| reach_extract s ts session_id proj items :
    reachable s ->
    reachable (durable s (r <- Extract.extract py_strip py_lower py_len
                                 py_chars ts session_id proj items s ;;
                            Ok (r, tt)))
| reach_remember s ts session text cat proj imp conf tgs ctx :
    reachable s ->
    reachable (durable s (Tools.remember normalize_tag ts session text cat
                            proj imp conf tgs ctx s))
| reach_correct s ts session old_memory_id new_content reason :
    reachable s ->
    reachable (durable s (Server.correct ts session old_memory_id new_content
                            reason s))
| reach_forget s memory_id :
    reachable s -> reachable (durable s (Server.forget memory_id s))
| reach_relate s from_id to_id relation :
    reachable s ->
    reachable (durable s (Tools.relate from_id to_id relation s))
| reach_recall s ts query cat proj limit incl :
    reachable s ->
    reachable (fst (Server.recall fts_match fts_rank ts query cat proj limit
                      incl s))
| reach_consolidate s now :
    reachable s -> reachable (Consolidate.consolidate now s).

End Reachable.

End Invariants.

(** ** surface.py *)

Module Surface.

Local Open Scope R_scope.

(** The dict handed to [score_memory]: any column may be None, and
    [created_at] is what [datetime.fromisoformat] makes of the text, [None]
    when it raises ValueError or TypeError. *)
Record row : Type := mkRow {
  r_importance : option Q;
  r_confidence : option Q;
  r_access_count : option Z;
  r_created_at : option timestamp
}.

(** [x or d] on a float: None and 0.0 are falsy. *)
Definition q_or (v : option Q) (d : Q) : Q :=
  match v with
  | Some q => if Qeq_bool q 0 then d else q
  | None => d
  end.

(** [x or d] on an int: None and 0 are falsy. *)
Definition z_or (v : option Z) (d : Z) : Z :=
  match v with
  | Some z => if (z =? 0)%Z then d else z
  | None => d
  end.

(** (now - created).total_seconds() / 3600 *)
Definition hours_between (now created : timestamp) : R :=
  IZR (now - created) / (3600 * 1000000).

Definition time_decay (now : timestamp) (created : option timestamp) : R :=
  match created with
  | Some c => Rpower 0.998 (Rmax (hours_between now c) 0)
  | None => 0.5
  end.

Definition score_memory (now : timestamp) (r : row) : R :=
  let importance := Q2R (q_or (r_importance r) 0.5) in
  let confidence := Q2R (q_or (r_confidence r) 0.8) in
  let access := z_or (r_access_count r) 0 in
  let freq_boost := 1 + IZR access * 0.1 in
  let decay := time_decay now (r_created_at r) in
  importance * confidence * freq_boost * decay.

(** A stored record as the dict [dict(r)] of its row. *)
Definition row_of (m : memory) : row :=
  mkRow (Some (importance m)) (Some (confidence m)) (Some (access_count m))
    (Some (created_at m)).

End Surface.

(** ** surface.py, the rules file *)

Module Render.

Local Open Scope string_scope.

Definition newline : ascii := ascii_of_nat 10.

Definition nl : string := String newline EmptyString.

Definition MAX_LINES : nat := 120.

Definition HEADER : string :=
  "# Mnemon Memory System" ++ nl
  ++ "# Auto-generated at session start. Do not edit manually." ++ nl
  ++ "# Store: mcp__mnemon__remember | Search: mcp__mnemon__recall" ++ nl
  ++ "# Commands: /remember, /forget, /memory-status" ++ nl
  ++ nl.

(** [items[:n]] of Python: a negative bound counts from the end. *)
Definition slice_to {A : Type} (n : Z) (l : list A) : list A :=
  if (n <? 0)%Z then firstn (List.length l - Z.to_nat (- n)) l
  else firstn (Z.to_nat n) l.

Definition build_section (title : string) (items : list memory)
  (max_items : Z) : list string :=
  match items with
  | [] => []
  | _ =>
      ["## " ++ title ++ nl]
      ++ map (fun m => "- " ++ content m ++ nl) (slice_to max_items items)
      ++ [nl]
  end.

Definition in_category (c : string) (scored : list memory) : list memory :=
  filter (fun m => String.eqb (category m) c) scored.

(** The "Current Project" block. *)
Definition project_section (proj : option string) (scored : list memory)
  : list string :=
  match Server.truthy proj with
  | None => []
  | Some p =>
      let proj_items :=
        filter (fun m =>
                  match project m with
                  | Some q => String.eqb q p
                  | None => false
                  end
                  && negb (String.eqb (category m) "preferences"
                           || String.eqb (category m) "corrections"))
          scored in
      match proj_items with
      | [] => []
      | _ =>
          ["## Current Project: " ++ p ++ nl]
          ++ map (fun m => "- [" ++ category m ++ "] " ++ content m ++ nl)
               (slice_to 8 proj_items)
          ++ [nl]
      end
  end.

Definition footer (total : Z) : string :=
  "---" ++ nl ++ "*Mnemon: " ++ Server.show_int total
  ++ " memories stored. Use `mcp__mnemon__recall` to search the full store.*"
  ++ nl.

(** [lines] as [surface] builds it from the scored rows. *)
Definition surface_lines (proj : option string) (scored : list memory)
  (total : Z) : list string :=
  [HEADER]
  ++ build_section "Preferences" (in_category "preferences" scored) 8
  ++ build_section "Corrections (Do Not Repeat)"
       (in_category "corrections" scored) 5
  ++ build_section "Key Facts" (in_category "facts" scored) 6
  ++ project_section proj scored
  ++ build_section "Past Decisions" (in_category "decisions" scored) 5
  ++ build_section "Known Procedures" (in_category "procedures" scored) 5
  ++ build_section "Relationships" (in_category "relationships" scored) 4
  ++ [footer total].

(** ["".join(lines)] *)
Definition join_all (lines : list string) : string :=
  fold_right String.append EmptyString lines.

(** [s.split("\n")] *)
Fixpoint split_lines (s : string) : list string :=
  match s with
  | EmptyString => [EmptyString]
  | String c s' =>
      if Ascii.eqb c newline then EmptyString :: split_lines s'
      else match split_lines s' with
           | [] => [String c EmptyString]
           | x :: xs => String c x :: xs
           end
  end.

(** ["\n".join(l)] *)
Fixpoint join_lines (l : list string) : string :=
  match l with
  | [] => EmptyString
  | [x] => x
  | x :: xs => x ++ nl ++ join_lines xs
  end.

(** What is written to the rules file for a given text. *)
Definition cap_lines (text : string) : string :=
  join_lines (firstn MAX_LINES (split_lines text)) ++ nl.

(** The rules file [surface] writes, from the Active rows after
    [scored.sort(key=score, reverse=True)]; nothing is written when there
    is no Active row. *)
Definition surface (proj : option string) (scored : list memory)
  : option string :=
  match scored with
  | [] => None
  | _ => Some (cap_lines
                 (join_all (surface_lines proj scored
                              (Z.of_nat (List.length scored)))))
  end.

(** Number of newline characters of a text. *)
Fixpoint count_newlines (s : string) : nat :=
  match s with
  | EmptyString => 0
  | String c s' =>
      (if Ascii.eqb c newline then 1 else 0) + count_newlines s'
  end.

End Render.

(** ** Sample states *)

Module Samples.

Local Open Scope string_scope.
Local Open Scope Z_scope.

Definition now0 : timestamp := days 20000.

(** A row as [remember] stores it, [age] days before [now0]. *)
Definition row (i : Z) (text : string) (imp : Q) (hits : Z) (age : Z)
  (link : option Z) : memory :=
  mkMemory i "facts" text None (Some "alpha") 0.8 imp hits None
    (now0 - days age) (now0 - days age) None link.

Definition one_row (m : memory) : store :=
  mkStore [m] [] [] (id m).

(** One Active record, with two tags. *)
Definition tagged_store : store :=
  mkStore [row 1 "tabs, not spaces" 0.5 0 1 None]
    [(1, "style"); (1, "editor")] [] 1.

(** A record forgotten earlier (Retired, pointing at itself). *)
Definition forgotten_store : store :=
  one_row (row 1 "tabs, not spaces" 0.5 0 1 (Some 1)).

(** Two Active duplicates up to case and outer spaces, and a third copy
    forgotten earlier. *)
Definition duplicate_store : store :=
  mkStore [row 1 "Use uv " 0.4 3 5 None;
           row 2 "use uv" 0.9 1 5 None;
           row 3 "USE UV" 0.9 9 5 (Some 3)] [] [] 3.

(** One Active record per scope: project alpha, project beta, global. *)
Definition scoped (i : Z) (p : option string) : memory :=
  mkMemory i "facts" "use uv" None p 0.8 0.5 0 None (now0 - days 1)
    (now0 - days 1) None None.

Definition scoped_store : store :=
  mkStore [scoped 1 (Some "alpha"); scoped 2 (Some "beta"); scoped 3 None]
    [] [] 3.

(** Active records of no project and of a project named "global". *)
Definition global_store : store :=
  mkStore [scoped 1 None; scoped 2 (Some "global"); scoped 3 None] [] [] 3.


(** Two Active duplicates with the same access count and importance. *)
Definition tied_store : store :=
  mkStore [row 1 "use uv" 0.5 2 5 None; row 2 "Use UV" 0.5 2 5 None] [] [] 2.

End Samples.

(** * Properties *)

Import Consolidate Server.

(** ** Generic facts about rows, setters and statements *)

Lemma is_active_state (m : memory) :
  is_active m = true <-> state_of m = Active.
Proof.
  unfold is_active, state_of.
  destruct (superseded_by m) as [k|]; [|tauto].
  split; [discriminate|].
  destruct ((k =? id m) || (k <? 0)); discriminate.
Qed.

Lemma not_active_state (m : memory) :
  is_active m = false <-> state_of m <> Active.
Proof.
  rewrite <- is_active_state.
  destruct (is_active m); split; congruence.
Qed.

Lemma apply_where_none (p : memory -> bool) (f : memory -> memory)
  (rows : list memory) :
  (forall m, In m rows -> p m = false) -> apply_where p f rows = rows.
Proof.
  intros H. unfold apply_where.
  induction rows as [|m rows IH]; simpl; [reflexivity|].
  rewrite (H m (or_introl eq_refl)). f_equal.
  apply IH. intros m' Hm'. apply H. now right.
Qed.

Lemma with_memories_same (s : store) : with_memories (memories s) s = s.
Proof. now destruct s. Qed.

Lemma apply_where_ids (p : memory -> bool) (f : memory -> memory)
  (rows : list memory) :
  (forall m, id (f m) = id m) ->
  map id (apply_where p f rows) = map id rows.
Proof.
  intros Hf. unfold apply_where. rewrite map_map.
  apply map_ext. intros m. destruct (p m); [apply Hf|reflexivity].
Qed.

Lemma existsb_id_in (k : Z) (rows : list memory) :
  existsb (fun m => id m =? k) rows = true <-> In k (map id rows).
Proof.
  rewrite existsb_exists, in_map_iff.
  split; intros [m [H1 H2]]; exists m.
  - apply Z.eqb_eq in H2. tauto.
  - split; [tauto|]. apply Z.eqb_eq. tauto.
Qed.

(** An UPDATE that writes a key present in the table goes through. *)
Lemma update_fk_ok (p : memory -> bool) (f : memory -> memory) (s : store) :
  (forall m, id (f m) = id m) ->
  (forall m, In m (memories s) -> p m = true ->
     match superseded_by (f m) with
     | Some k => In k (ids s)
     | None => True
     end) ->
  update_fk p f s = Ok (with_memories (apply_where p f (memories s)) s).
Proof.
  intros Hid Hfk. unfold update_fk.
  replace (forallb _ (memories s)) with true; [reflexivity|].
  symmetry. apply forallb_forall. intros m Hm.
  destruct (p m) eqn:Hp; simpl; [|reflexivity].
  specialize (Hfk m Hm Hp). unfold fk_ok.
  destruct (superseded_by (f m)) as [k|]; [|reflexivity].
  apply existsb_id_in. rewrite apply_where_ids by assumption. exact Hfk.
Qed.

(** An UPDATE that matches no row changes nothing and cannot fail. *)
Lemma update_fk_none (p : memory -> bool) (f : memory -> memory) (s : store) :
  (forall m, In m (memories s) -> p m = false) ->
  update_fk p f s = Ok s.
Proof.
  intros H. unfold update_fk.
  rewrite (apply_where_none p f _ H), with_memories_same.
  replace (forallb _ (memories s)) with true; [reflexivity|].
  symmetry. apply forallb_forall. intros m Hm. now rewrite (H m Hm).
Qed.

(** An UPDATE that writes a key absent from the table raises. *)
Lemma update_fk_raises (p : memory -> bool) (f : memory -> memory)
  (s : store) (m : memory) (k : Z) :
  (forall m, id (f m) = id m) ->
  In m (memories s) -> p m = true -> superseded_by (f m) = Some k ->
  ~ In k (ids s) ->
  update_fk p f s = Raise IntegrityError.
Proof.
  intros Hid Hm Hp Hk Hnot. unfold update_fk.
  destruct (forallb _ (memories s)) eqn:Hall; [|reflexivity].
  exfalso. rewrite forallb_forall in Hall. specialize (Hall m Hm).
  rewrite Hp, Hk in Hall. simpl in Hall.
  apply existsb_id_in in Hall. rewrite apply_where_ids in Hall by assumption.
  exact (Hnot Hall).
Qed.

Lemma find_id_in (i : Z) (rows : list memory) (m : memory) :
  find (fun r => id r =? i) rows = Some m -> In m rows /\ id m = i.
Proof.
  intros H. apply find_some in H. now rewrite Z.eqb_eq in H.
Qed.

Lemma find_id_unique (rows : list memory) (m : memory) :
  NoDup (map id rows) -> In m rows ->
  find (fun r => id r =? id m) rows = Some m.
Proof.
  induction rows as [|r rows IH]; simpl; intros Hnd Hin; [contradiction|].
  inversion Hnd as [|? ? Hnot Hnd']; subst.
  destruct Hin as [->|Hin].
  - now rewrite Z.eqb_refl.
  - destruct (id r =? id m) eqn:E; [|now apply IH].
    apply Z.eqb_eq in E. exfalso. apply Hnot. rewrite E.
    now apply in_map.
Qed.

Lemma same_id_same_row (rows : list memory) (a b : memory) :
  NoDup (map id rows) -> In a rows -> In b rows -> id a = id b -> a = b.
Proof.
  intros Hnd Ha Hb Hab.
  pose proof (find_id_unique rows a Hnd Ha) as Fa.
  pose proof (find_id_unique rows b Hnd Hb) as Fb.
  rewrite Hab in Fa. congruence.
Qed.

Lemma find_apply_where (i : Z) (p : memory -> bool) (f : memory -> memory)
  (rows : list memory) :
  (forall m, id (f m) = id m) ->
  find (fun r => id r =? i) (apply_where p f rows)
  = option_map (fun m => if p m then f m else m)
      (find (fun r => id r =? i) rows).
Proof.
  intros Hid. induction rows as [|r rows IH]; simpl; [reflexivity|].
  replace (id (if p r then f r else r)) with (id r)
    by (destruct (p r); [now rewrite Hid|reflexivity]).
  destruct (id r =? i); [reflexivity|exact IH].
Qed.

(** ** forget *)

Lemma forget_runs (memory_id : Z) (s : store) (existing : memory) :
  find (fun m => (id m =? memory_id) && is_active m) (memories s)
  = Some existing ->
  forget memory_id s
  = Ok (with_memories
          (apply_where (fun m => id m =? memory_id)
             (fun m => set_superseded (id m) m) (memories s)) s,
        Forgotten memory_id (content existing)).
Proof.
  intros Hfind. unfold forget. rewrite Hfind.
  rewrite update_fk_ok; [reflexivity|reflexivity|].
  intros m Hm _. simpl. unfold ids. now apply in_map.
Qed.

(** forget writes superseded_by only: no row's updated_at moves. *)
Lemma forget_never_stamps (memory_id : Z) (s s' : store) (r : reply) :
  forget memory_id s = Ok (s', r) ->
  map updated_at (memories s') = map updated_at (memories s).
Proof.
  intros H.
  destruct (find (fun m => (id m =? memory_id) && is_active m) (memories s))
    as [existing|] eqn:Hfind.
  - rewrite (forget_runs memory_id s existing Hfind) in H.
    injection H as <- _. simpl.
    unfold apply_where. rewrite map_map. apply map_ext.
    intros m. now destruct (id m =? memory_id).
  - unfold forget in H. rewrite Hfind in H. now injection H as <- _.
Qed.

(** C7. forget on a record that is already Retired or Superseded answers
    "not found or already forgotten" and returns the store as it was (every
    row, tag and relation); a forget that changes the store found the record
    Active and left it Retired, pointing at itself; and forget on an Active
    record does retire it. *)
Theorem forget_only_from_active (s : store) (memory_id : Z)
  (Hpk : NoDup (ids s)) :
  (forall m, In m (memories s) -> id m = memory_id -> state_of m <> Active ->
     forget memory_id s = Ok (s, NotFoundOrForgotten memory_id)
     /\ durable s (forget memory_id s) = s)
  /\ (forall s' r, forget memory_id s = Ok (s', r) -> s' <> s ->
        exists m, In m (memories s) /\ id m = memory_id
                  /\ state_of m = Active
                  /\ lookup memory_id s' = Some (set_superseded memory_id m)
                  /\ state_of (set_superseded memory_id m) = Retired
                  /\ tags s' = tags s /\ relations s' = relations s)
  /\ (forall m, In m (memories s) -> id m = memory_id ->
        state_of m = Active ->
        exists s',
          forget memory_id s = Ok (s', Forgotten memory_id (content m))
          /\ lookup memory_id s' = Some (set_superseded memory_id m)
          /\ state_of (set_superseded memory_id m) = Retired).
Proof.
  split; [|split].
  3:{ intros m Hm Hid Hst. apply is_active_state in Hst.
      destruct (find (fun r => (id r =? memory_id) && is_active r)
                  (memories s)) as [e|] eqn:Hfind.
      - pose proof (forget_runs memory_id s e Hfind) as Hrun.
        apply find_some in Hfind. destruct Hfind as [He Hc].
        apply andb_true_iff in Hc. destruct Hc as [Hc1 _].
        apply Z.eqb_eq in Hc1.
        assert (e = m)
          by (apply (same_id_same_row (memories s)); auto; congruence).
        subst e. eexists. split; [exact Hrun|]. split.
        + unfold lookup. simpl. rewrite find_apply_where by reflexivity.
          subst memory_id. rewrite (find_id_unique _ m Hpk Hm). simpl.
          now rewrite Z.eqb_refl.
        + unfold state_of. simpl. subst memory_id. now rewrite Z.eqb_refl.
      - exfalso. apply (find_none _ _ Hfind) in Hm.
        apply andb_false_iff in Hm. destruct Hm as [Hm|Hm]; [|congruence].
        apply Z.eqb_neq in Hm. contradiction. }
  - intros m Hm Hid Hst.
    assert (Hnone : find (fun r => (id r =? memory_id) && is_active r)
                      (memories s) = None).
    { destruct (find _ (memories s)) as [e|] eqn:Hfind; [|reflexivity].
      apply find_some in Hfind. destruct Hfind as [He Hc].
      apply andb_true_iff in Hc. destruct Hc as [Hc1 Hc2].
      apply Z.eqb_eq in Hc1.
      assert (e = m) by (apply (same_id_same_row (memories s)); auto; congruence).
      subst e. apply not_active_state in Hst. congruence. }
    unfold forget. rewrite Hnone. simpl. split; reflexivity.
  - intros s' r Hrun Hchg.
    destruct (find (fun r => (id r =? memory_id) && is_active r) (memories s))
      as [e|] eqn:Hfind.
    + rewrite (forget_runs memory_id s e Hfind) in Hrun.
      injection Hrun as <- _.
      apply find_some in Hfind. destruct Hfind as [He Hc].
      apply andb_true_iff in Hc. destruct Hc as [Hc1 Hc2].
      apply Z.eqb_eq in Hc1.
      exists e. repeat split; auto.
      * now apply is_active_state.
      * unfold lookup. simpl. rewrite find_apply_where by reflexivity.
        subst memory_id. rewrite (find_id_unique _ e Hpk He). simpl.
        now rewrite Z.eqb_refl.
      * unfold state_of. simpl. subst memory_id. now rewrite Z.eqb_refl.
    + unfold forget in Hrun. rewrite Hfind in Hrun.
      injection Hrun as <- _. now contradiction Hchg.
Qed.

(** ** correct *)

Lemma fold_max_bound (l : list Z) (x : Z) :
  In x l -> x <= fold_right Z.max 0 l.
Proof.
  induction l as [|y l IH]; simpl; [contradiction|].
  intros [->|H]; [lia|]. specialize (IH H). lia.
Qed.

Lemma next_rowid_above (s : store) (m : memory) :
  In m (memories s) -> id m < next_rowid s.
Proof.
  intros H. unfold next_rowid.
  assert (id m <= fold_right Z.max 0 (ids s))
    by (apply fold_max_bound; unfold ids; now apply in_map).
  lia.
Qed.

Lemma next_rowid_fresh (s : store) : ~ In (next_rowid s) (ids s).
Proof.
  unfold ids. rewrite in_map_iff. intros [m [Hid Hm]].
  apply next_rowid_above in Hm. lia.
Qed.

Lemma has_id_in (i : Z) (s : store) : has_id i s = true <-> In i (ids s).
Proof. apply existsb_id_in. Qed.

Lemma tag_eqb_eq (a b : Z * string) : tag_eqb a b = true <-> a = b.
Proof.
  destruct a as [a1 a2], b as [b1 b2]. unfold tag_eqb. simpl.
  rewrite andb_true_iff, Z.eqb_eq, String.eqb_eq.
  split; [intros [-> ->]; reflexivity|intros H; now inversion H].
Qed.

Lemma relation_eqb_eq (a b : Z * Z * string) :
  relation_eqb a b = true <-> a = b.
Proof.
  destruct a as [[a1 a2] a3], b as [[b1 b2] b3]. unfold relation_eqb. simpl.
  rewrite !andb_true_iff, !Z.eqb_eq, String.eqb_eq.
  split; [intros [[-> ->] ->]; reflexivity|intros H; now inversion H].
Qed.

Lemma insert_relation_runs (e : Z * Z * string) (s : store) :
  has_id (fst (fst e)) s = true -> has_id (snd (fst e)) s = true ->
  exists rel, insert_relation e s
              = Ok (mkStore (memories s) (tags s) rel (sqlite_sequence s))
              /\ forall x, In x rel <-> In x (relations s) \/ x = e.
Proof.
  intros H1 H2. unfold insert_relation. rewrite H1, H2. simpl.
  destruct (existsb (relation_eqb e) (relations s)) eqn:E.
  - exists (relations s). split; [now destruct s|].
    intros x. split; [tauto|]. intros [H| ->]; [exact H|].
    apply existsb_exists in E. destruct E as [y [Hy Hey]].
    apply relation_eqb_eq in Hey. now subst y.
  - exists (relations s ++ [e]). split; [reflexivity|].
    intros x. rewrite in_app_iff. simpl. intuition congruence.
Qed.

Lemma copy_tags_runs (new : Z) (ts : list string) (s : store) :
  has_id new s = true ->
  exists tgs,
    for_each (fun t => insert_tag (new, t)) ts s
    = Ok (mkStore (memories s) tgs (relations s) (sqlite_sequence s))
    /\ forall p, In p tgs <-> In p (tags s) \/ (fst p = new /\ In (snd p) ts).
Proof.
  revert s. induction ts as [|t ts IH]; intros s Hnew.
  - exists (tags s). simpl. split; [now destruct s|]. intros p. tauto.
  - simpl. unfold insert_tag at 1. simpl. rewrite Hnew.
    destruct (existsb (tag_eqb (new, t)) (tags s)) eqn:E; simpl.
    + destruct (IH s Hnew) as [tgs [Hrun Hin]].
      exists tgs. split; [exact Hrun|].
      intros p. rewrite Hin. split; [tauto|].
      intros [H|[H1 [H2|H2]]]; [tauto| |tauto].
      left. apply existsb_exists in E. destruct E as [y [Hy Hey]].
      apply tag_eqb_eq in Hey. subst y. destruct p; simpl in *; now subst.
    + destruct (IH (mkStore (memories s) (tags s ++ [(new, t)]) (relations s)
                      (sqlite_sequence s)) Hnew) as [tgs [Hrun Hin]].
      exists tgs. split; [exact Hrun|].
      intros p. rewrite Hin. simpl. rewrite in_app_iff. simpl.
      destruct p as [p1 p2]; simpl.
      split.
      * intros [[H|[H|[]]]|[H1 H2]]; [tauto| |tauto].
        inversion H; subst. tauto.
      * intros [H|[H1 [H2|H2]]]; [tauto| |tauto].
        subst. tauto.
Qed.

Lemma tags_of_in (i : Z) (t : string) (s : store) :
  In t (tags_of i s) <-> In (i, t) (tags s).
Proof.
  unfold tags_of. rewrite in_map_iff. split.
  - intros [[j u] [Hu Hin]]. simpl in Hu. subst u.
    apply filter_In in Hin. destruct Hin as [Hin Hj]. simpl in Hj.
    apply Z.eqb_eq in Hj. now subst j.
  - intros H. exists (i, t). split; [reflexivity|].
    apply filter_In. split; [exact H|]. simpl. apply Z.eqb_refl.
Qed.

(** What a correction of an existing row writes, whatever the row's state. *)
Lemma correct_runs (ts : timestamp) (session : option string)
  (old_memory_id : Z) (new_content : string) (reason : option string)
  (s : store) (old : memory) :
  lookup old_memory_id s = Some old ->
  exists s' fresh,
    correct ts session old_memory_id new_content reason s
    = Ok (s', SupersededBy old_memory_id (next_rowid s) new_content)
    /\ memories s'
       = apply_where (fun m => id m =? old_memory_id)
           (set_superseded (next_rowid s)) (memories s) ++ [fresh]
    /\ fresh = mkMemory (next_rowid s) (category old) new_content
                 (context fresh) (project old) 0.9
                 (py_max2 (importance old) 0.7) 0 None ts ts session None
    /\ (forall e, In e (relations s') <->
                  In e (relations s)
                  \/ e = (next_rowid s, old_memory_id, "supersedes"%string))
    /\ (forall p, In p (tags s') <->
                  In p (tags s)
                  \/ (fst p = next_rowid s
                      /\ In (snd p) (tags_of old_memory_id s))).
Proof.
  intros Hold. unfold correct. rewrite Hold.
  apply find_id_in in Hold. destruct Hold as [Hin Hid].
  set (new_id := next_rowid s).
  set (ctx := match truthy reason with Some r => r | None => _ end).
  set (fresh := mkMemory new_id _ _ _ _ _ _ _ _ _ _ _ _).
  assert (Hne : (new_id =? old_memory_id) = false).
  { apply Z.eqb_neq. pose proof (next_rowid_above s old Hin).
    subst new_id. lia. }
  rewrite update_fk_ok; [|reflexivity|].
  2:{ intros m Hm _. simpl. unfold ids. simpl. rewrite map_app, in_app_iff.
      right. simpl. now left. }
  simpl.
  set (rows := apply_where _ _ (memories s ++ [fresh])).
  assert (Hrows : rows = apply_where (fun m => id m =? old_memory_id)
                           (set_superseded new_id) (memories s) ++ [fresh]).
  { subst rows. unfold apply_where. rewrite map_app. simpl.
    replace (id fresh) with new_id by reflexivity. now rewrite Hne. }
  set (s2 := with_memories rows (insert_memory fresh s)).
  assert (Hids2 : ids s2 = ids s ++ [new_id]).
  { unfold ids, s2. simpl. rewrite Hrows, map_app.
    rewrite apply_where_ids by reflexivity. reflexivity. }
  assert (Hnew2 : has_id new_id s2 = true).
  { apply has_id_in. rewrite Hids2, in_app_iff. right. now left. }
  assert (Hold2 : has_id old_memory_id s2 = true).
  { apply has_id_in. rewrite Hids2, in_app_iff. left. unfold ids.
    rewrite <- Hid. now apply in_map. }
  destruct (insert_relation_runs (new_id, old_memory_id, "supersedes"%string)
              s2 Hnew2 Hold2) as [rel [Hrel Hrel_in]].
  rewrite Hrel. simpl.
  set (s3 := mkStore rows (tags s) rel new_id).
  destruct (copy_tags_runs new_id (tags_of old_memory_id s3) s3 Hnew2)
    as [tgs [Htgs Htgs_in]].
  unfold copy_tags. rewrite Htgs. simpl.
  eexists. exists fresh. split; [reflexivity|]. simpl.
  repeat split; auto.
  - apply Hrel_in.
  - apply Hrel_in.
  - apply Htgs_in.
  - apply Htgs_in.
Qed.

Lemma find_app_first {A : Type} (p : A -> bool) (l1 l2 : list A) (x : A) :
  find p l1 = Some x -> find p (l1 ++ l2) = Some x.
Proof.
  induction l1 as [|y l1 IH]; simpl; [discriminate|].
  destruct (p y); [trivial|exact IH].
Qed.

Lemma py_max2_is_max (a b : Q) :
  (a <= py_max2 a b)%Q /\ (b <= py_max2 a b)%Q
  /\ (py_max2 a b = a \/ py_max2 a b = b).
Proof.
  unfold py_max2, Qlt_bool.
  destruct (Qle_bool b a) eqn:E; simpl.
  - apply Qle_bool_iff in E. repeat split; [apply Qle_refl|exact E|now left].
  - assert (~ (b <= a)%Q) by (rewrite <- Qle_bool_iff; congruence).
    repeat split; [|apply Qle_refl|now right].
    apply Qlt_le_weak. now apply Qnot_le_lt.
Qed.

(** C2. Correcting an existing record appends exactly one row: a new Active
    record with a fresh id, the given content, the old record's category,
    project and tags, importance max(old importance, 0.7) and confidence 0.9;
    the old row's superseded_by becomes the new id and the edge
    (new, old, supersedes) is in the relations table. *)
Theorem correct_clones_and_supersedes (ts : timestamp)
  (session : option string) (new_content : string) (reason : option string)
  (s : store) (old : memory)
  (Hwf : wf_store s) (Hold : In old (memories s)) :
  exists s' fresh,
    correct ts session (id old) new_content reason s
    = Ok (s', SupersededBy (id old) (id fresh) new_content)
    /\ memories s'
       = apply_where (fun m => id m =? id old) (set_superseded (id fresh))
           (memories s) ++ [fresh]
    /\ ~ In (id fresh) (ids s)
    /\ state_of fresh = Active
    /\ content fresh = new_content
    /\ category fresh = category old
    /\ project fresh = project old
    /\ (forall t, In t (tags_of (id fresh) s') <-> In t (tags_of (id old) s))
    /\ importance fresh = py_max2 (importance old) 0.7
    /\ (importance old <= importance fresh)%Q
    /\ (0.7 <= importance fresh)%Q
    /\ (importance fresh = importance old \/ importance fresh = 0.7%Q)
    /\ confidence fresh = 0.9%Q
    /\ lookup (id old) s' = Some (set_superseded (id fresh) old)
    /\ In (id fresh, id old, "supersedes"%string) (relations s').
Proof.
  destruct Hwf as [Hpk _ Hfk].
  pose proof (find_id_unique (memories s) old Hpk Hold) as Hlook.
  destruct (correct_runs ts session (id old) new_content reason s old Hlook)
    as [s' [fresh [Hrun [Hrows [Hfresh [Hrel Htags]]]]]].
  assert (Hid : id fresh = next_rowid s) by (now rewrite Hfresh).
  exists s', fresh. rewrite Hid.
  destruct (py_max2_is_max (importance old) 0.7) as [M1 [M2 M3]].
  repeat split; try (rewrite Hfresh; simpl; auto; fail).
  - exact Hrun.
  - exact Hrows.
  - apply next_rowid_fresh.
  - intros Ht. apply tags_of_in in Ht. apply Htags in Ht.
    destruct Ht as [Ht|[_ Ht]]; [|exact Ht].
    apply Hfk in Ht. simpl in Ht. now apply next_rowid_fresh in Ht.
  - intros Ht. apply tags_of_in. apply Htags. right. now split.
  - unfold lookup. rewrite Hrows. apply find_app_first.
    rewrite find_apply_where by reflexivity.
    rewrite Hlook. simpl. now rewrite Z.eqb_refl.
  - apply Hrel. now right.
Qed.


Import Samples.

Lemma forget_only_from_active_witness :
  forget 1 forgotten_store = Ok (forgotten_store, NotFoundOrForgotten 1)
  /\ durable forgotten_store (forget 1 forgotten_store) = forgotten_store.
Proof.
  assert (Hpk : NoDup (ids forgotten_store))
    by (constructor; [simpl; tauto|constructor]).
  apply (proj1 (forget_only_from_active forgotten_store 1 Hpk)
           (row 1 "tabs, not spaces" 0.5 0 1 (Some 1))).
  - simpl. now left.
  - reflexivity.
  - discriminate.
Defined.

Lemma tagged_store_wf : wf_store tagged_store.
Proof.
  constructor.
  - constructor; [simpl; tauto|constructor].
  - intros m [<-|[]]. simpl. lia.
  - intros p [<-|[<-|[]]]; simpl; now left.
Qed.

Lemma correct_clones_and_supersedes_witness :
  exists s' fresh,
    correct now0 None 1 "spaces, not tabs" None tagged_store
    = Ok (s', SupersededBy 1 (id fresh) "spaces, not tabs")
    /\ state_of fresh = Active
    /\ (forall t, In t (tags_of (id fresh) s') <-> In t (tags_of 1 tagged_store))
    /\ importance fresh = 0.7%Q
    /\ confidence fresh = 0.9%Q.
Proof.
  destruct (correct_clones_and_supersedes now0 None "spaces, not tabs" None
              tagged_store (row 1 "tabs, not spaces" 0.5 0 1 None)
              tagged_store_wf (or_introl eq_refl))
    as [s' [fresh H]].
  exists s', fresh. simpl in H. tauto.
Defined.



(** C8, at a concrete store: forget and correct flip superseded_by of the
    record created a day before [now0] and leave its updated_at at the
    creation time. *)
Theorem forget_and_correct_keep_updated_at :
  let old := row 1 "tabs, not spaces" 0.5 0 1 None in
  updated_at old = now0 - days 1
  /\ (exists s' r,
        forget 1 (one_row old) = Ok (s', r)
        /\ map superseded_by (memories s') = [Some 1]
        /\ map updated_at (memories s') = [now0 - days 1])
  /\ (exists s' r,
        correct now0 None 1 "spaces, not tabs" None (one_row old) = Ok (s', r)
        /\ map superseded_by (memories s') = [Some 2; None]
        /\ map updated_at (memories s') = [now0 - days 1; now0]).
Proof.
  simpl. split; [reflexivity|].
  split; eexists; eexists; (split; [reflexivity|]); split; reflexivity.
Qed.

(** ** Read paths: the project filter *)

Lemma insert_by_in {A : Type} (le : A -> A -> bool) (x y : A) (l : list A) :
  In y (insert_by le x l) <-> y = x \/ In y l.
Proof.
  induction l as [|z l IH]; simpl.
  - intuition congruence.
  - destruct (le x z); simpl; [intuition congruence|].
    rewrite IH. intuition congruence.
Qed.

Lemma order_by_in {A : Type} (le : A -> A -> bool) (y : A) (l : list A) :
  In y (order_by le l) <-> In y l.
Proof.
  unfold order_by. induction l as [|x l IH]; simpl; [tauto|].
  rewrite insert_by_in, IH. intuition congruence.
Qed.

Lemma sql_limit_in {A : Type} (n : Z) (y : A) (l : list A) :
  In y (sql_limit n l) -> In y l.
Proof.
  unfold sql_limit. destruct (n <? 0); [trivial|].
  revert l. induction (Z.to_nat n) as [|k IH]; intros l; simpl; [tauto|].
  destruct l as [|x l]; simpl; [tauto|]. intros [H|H]; [now left|].
  right. now apply IH.
Qed.







(** ** The sweep: decay *)

Lemma Qlt_bool_iff (a b : Q) : Qlt_bool a b = true <-> (a < b)%Q.
Proof.
  unfold Qlt_bool. rewrite negb_true_iff. split.
  - intros H. apply Qnot_le_lt. rewrite <- Qle_bool_iff. congruence.
  - intros H. destruct (Qle_bool b a) eqn:E; [|reflexivity].
    apply Qle_bool_iff in E. exfalso. exact (Qlt_not_le _ _ H E).
Qed.

Lemma decay_eligible_iff (now : timestamp) (m : memory) :
  decay_eligible now m = true <->
  state_of m = Active /\ access_count m = 0 /\ days 30 < age now m
  /\ (0.1 < importance m)%Q.
Proof.
  unfold decay_eligible, age.
  rewrite !andb_true_iff, is_active_state, Z.eqb_eq, Z.ltb_lt, Qlt_bool_iff.
  intuition lia.
Qed.

Lemma retire_eligible_iff (now : timestamp) (m : memory) :
  retire_eligible now m = true <->
  state_of m = Active /\ (importance m < 0.1)%Q /\ access_count m = 0
  /\ days 90 < age now m.
Proof.
  unfold retire_eligible, age.
  rewrite !andb_true_iff, is_active_state, Z.eqb_eq, Z.ltb_lt, Qlt_bool_iff.
  intuition lia.
Qed.

Lemma Forall2_map_right {A B : Type} (R : A -> B -> Prop) (g : A -> B)
  (l : list A) :
  (forall x, In x l -> R x (g x)) -> Forall2 R l (map g l).
Proof.
  induction l as [|x l IH]; simpl; intros H; constructor.
  - apply H. now left.
  - apply IH. intros y Hy. apply H. now right.
Qed.

Lemma dupes_single (m : memory) (s : store) :
  memories s = [m] -> dupes s = [].
Proof.
  intros H. unfold dupes, active_keys, group_members. rewrite H. simpl.
  destruct (is_active m); simpl; [|reflexivity].
  now rewrite String.eqb_refl.
Qed.

(** C4 (as the code has it). The decay pass rewrites the rows in place:
    an Active row with access_count = 0, created strictly more than 30 days
    ago and with importance > 0.1 gets importance * 0.9 and keeps its
    confidence, identity and lifecycle state; every other row is left as it
    was.  A lone Active record with importance 0.5, never accessed and
    created 35 days ago has importance 0.45 after a whole sweep and is still
    Active. *)
Theorem decay_pass_scales_idle_rows (now : timestamp) (s : store) :
  Forall2
    (fun m m' =>
       (state_of m = Active /\ access_count m = 0 /\ days 30 < age now m
        /\ (0.1 < importance m)%Q ->
        importance m' = (importance m * 0.9)%Q
        /\ confidence m' = confidence m /\ id m' = id m
        /\ content m' = content m /\ state_of m' = Active)
       /\ (~ (state_of m = Active /\ access_count m = 0
              /\ days 30 < age now m /\ (0.1 < importance m)%Q) ->
           m' = m))
    (memories s) (memories (decay_pass now s))
  /\ tags (decay_pass now s) = tags s
  /\ relations (decay_pass now s) = relations s
  /\ (forall m,
        memories s = [m] -> state_of m = Active -> access_count m = 0 ->
        age now m = days 35 -> (importance m == 0.5)%Q ->
        exists m',
          memories (consolidate now s) = [m']
          /\ (importance m' == 0.45)%Q /\ state_of m' = Active
          /\ confidence m' = confidence m).
Proof.
  split; [|split; [reflexivity|split; [reflexivity|]]].
  - unfold decay_pass, update_where. simpl. unfold apply_where.
    apply Forall2_map_right. intros m _.
    rewrite <- decay_eligible_iff.
    destruct (decay_eligible now m) eqn:E; split; try congruence; try tauto.
    intros _. unfold decay_row, set_importance, state_of. simpl.
    apply decay_eligible_iff in E. destruct E as [E _].
    unfold state_of in E. repeat split. exact E.
  - intros m Hs Hact Hacc Hage Himp.
    assert (Hel : decay_eligible now m = true).
    { apply decay_eligible_iff. repeat split; auto.
      - rewrite Hage. unfold days. lia.
      - rewrite Himp. reflexivity. }
    set (m' := decay_row now m).
    assert (Hd : memories (decay_pass now s) = [m']).
    { unfold decay_pass, update_where, apply_where. simpl.
      rewrite Hs. simpl. now rewrite Hel. }
    assert (Hi : (importance m' == 0.45)%Q).
    { unfold m', decay_row. simpl. rewrite Himp. reflexivity. }
    assert (Hnr : retire_eligible now m' = false).
    { destruct (retire_eligible now m') eqn:E; [|reflexivity].
      apply retire_eligible_iff in E. destruct E as [_ [E _]].
      rewrite Hi in E. discriminate. }
    exists m'. unfold consolidate, consolidate_txn, retire_pass.
    rewrite update_fk_none.
    2:{ intros x Hx. rewrite Hd in Hx. destruct Hx as [<-|[]]. exact Hnr. }
    simpl. unfold dedup_pass. rewrite (dupes_single m' _ Hd). simpl.
    repeat split; auto.
Qed.

Lemma decay_pass_scales_idle_rows_witness :
  exists m',
    memories (consolidate now0 (one_row (row 1 "use uv" 0.5 0 35 None))) = [m']
    /\ (importance m' == 0.45)%Q /\ state_of m' = Active
    /\ confidence m' = 0.8%Q.
Proof.
  apply (proj2 (proj2 (proj2 (decay_pass_scales_idle_rows now0
           (one_row (row 1 "use uv" 0.5 0 35 None)))))
           (row 1 "use uv" 0.5 0 35 None)); reflexivity.
Defined.

(** C4, the claim as written fails on the boundary: a record whose age is
    exactly 30 days meets "age >= 30 days" and is not decayed, because the
    statement compares created_at < cutoff. *)
Lemma decay_skips_age_of_exactly_30_days :
  let m := row 1 "use uv" 0.5 0 30 None in
  state_of m = Active /\ access_count m = 0 /\ days 30 <= age now0 m
  /\ (0.1 < importance m)%Q
  /\ memories (decay_pass now0 (one_row m)) = [m]
  /\ ~ (importance m == importance m * 0.9)%Q.
Proof.
  simpl. repeat split; try reflexivity; discriminate.
Qed.

(** ** The sweep: retirement *)

Lemma decay_pass_ids (now : timestamp) (s : store) :
  ids (decay_pass now s) = ids s.
Proof.
  unfold ids, decay_pass, update_where. simpl.
  now apply apply_where_ids.
Qed.

(** With no row of id -1 in the table, the retirement UPDATE violates the
    foreign key on superseded_by as soon as it matches a row. *)
Lemma retire_pass_raises (now : timestamp) (s : store) (m : memory) :
  In m (memories s) -> retire_eligible now m = true -> ~ In (-1) (ids s) ->
  retire_pass now s = Raise IntegrityError.
Proof.
  intros Hm He Hno. unfold retire_pass.
  now apply (update_fk_raises _ _ s m (-1)).
Qed.

(** The sweep then dies before its commit: nothing it did is kept. *)
Lemma sweep_aborts_on_retirement (now : timestamp) (s : store) (m : memory) :
  In m (memories (decay_pass now s)) -> retire_eligible now m = true ->
  ~ In (-1) (ids s) ->
  consolidate_txn now s = Raise IntegrityError /\ consolidate now s = s.
Proof.
  intros Hm He Hno. unfold consolidate, consolidate_txn.
  rewrite (retire_pass_raises now (decay_pass now s) m Hm He).
  - split; reflexivity.
  - now rewrite decay_pass_ids.
Qed.

(** C5, at the spec's own example: an Active record with importance 0.05,
    never accessed, created 100 days ago.  The retirement statement writes
    superseded_by = -1, no row has id -1, the statement raises, and the
    store after the sweep is the store before it: the record is still
    Active. *)
Theorem retirement_violates_foreign_key :
  let m := row 1 "use uv" 0.05 0 100 None in
  state_of m = Active /\ (importance m < 0.1)%Q /\ access_count m = 0
  /\ days 90 <= age now0 m
  /\ retire_eligible now0 m = true
  /\ consolidate_txn now0 (one_row m) = Raise IntegrityError
  /\ consolidate now0 (one_row m) = one_row m
  /\ map state_of (memories (consolidate now0 (one_row m))) = [Active].
Proof.
  simpl. repeat split; try reflexivity; discriminate.
Qed.

(** ** The sweep: deduplication *)

Lemma key_le_refl (a : memory) : key_le a a.
Proof. right. split; [reflexivity|apply Qle_refl]. Qed.

Lemma key_le_trans (a b c : memory) : key_le a b -> key_le b c -> key_le a c.
Proof.
  unfold key_le. intros [H1|[H1 H1']] [H2|[H2 H2']]; try (left; lia).
  right. split; [lia|]. eapply Qle_trans; eassumption.
Qed.

Lemma key_lt_true (a b : memory) : key_lt a b = true -> key_le a b.
Proof.
  unfold key_lt, key_le.
  destruct (access_count a =? access_count b) eqn:E.
  - apply Z.eqb_eq in E. intros H. apply Qlt_bool_iff in H.
    right. split; [exact E|now apply Qlt_le_weak].
  - intros H. apply Z.ltb_lt in H. now left.
Qed.

Lemma key_lt_false (a b : memory) : key_lt a b = false -> key_le b a.
Proof.
  unfold key_lt, key_le, Qlt_bool.
  destruct (access_count a =? access_count b) eqn:E.
  - apply Z.eqb_eq in E. rewrite negb_false_iff, Qle_bool_iff.
    intros H. right. now split.
  - apply Z.eqb_neq in E. rewrite Z.ltb_ge. intros H. left. lia.
Qed.

Lemma max_from_above_start (l : list memory) (b m : memory) :
  key_le m b -> key_le m (max_from b l).
Proof.
  revert b. induction l as [|r l IH]; intros b H; simpl; [exact H|].
  apply IH. destruct (key_lt b r) eqn:E; [|exact H].
  eapply key_le_trans; [exact H|now apply key_lt_true].
Qed.

Lemma max_from_above_all (l : list memory) (b m : memory) :
  In m (b :: l) -> key_le m (max_from b l).
Proof.
  revert b. induction l as [|r l IH]; intros b.
  - intros [<-|[]]. apply key_le_refl.
  - intros [->|[->|H]]; simpl.
    + apply max_from_above_start. destruct (key_lt m r) eqn:E.
      * now apply key_lt_true.
      * apply key_le_refl.
    + apply max_from_above_start. destruct (key_lt b m) eqn:E.
      * apply key_le_refl.
      * now apply key_lt_false.
    + apply IH. now right.
Qed.

Lemma max_from_in (l : list memory) (b : memory) : In (max_from b l) (b :: l).
Proof.
  revert b. induction l as [|r l IH]; intros b; simpl; [now left|].
  destruct (IH (if key_lt b r then r else b)) as [H|H].
  - destruct (key_lt b r); [right; left|left]; exact H.
  - right. right. exact H.
Qed.

(** The inner loop: every selected row but the keeper is pointed at it. *)
Lemma for_each_supersede (now : timestamp) (keeper : memory)
  (rows : list memory) (s : store) :
  In (id keeper) (ids s) ->
  for_each (supersede_row now keeper) rows s
  = Ok (with_memories
          (map (fun m =>
                  if existsb (fun r => id r =? id m) rows
                     && negb (id m =? id keeper)
                  then set_superseded_stamped (id keeper) now m else m)
             (memories s)) s).
Proof.
  revert s. induction rows as [|r rows IH]; intros s Hk.
  - simpl. now rewrite map_id, with_memories_same.
  - simpl. unfold supersede_row at 1.
    destruct (id r =? id keeper) eqn:E.
    + simpl. rewrite IH by exact Hk. do 2 f_equal.
      apply map_ext. intros m.
      destruct (id r =? id m) eqn:E2; [|reflexivity].
      apply Z.eqb_eq in E, E2.
      replace (id m =? id keeper) with true
        by (symmetry; apply Z.eqb_eq; congruence).
      simpl. now rewrite andb_false_r.
    + rewrite update_fk_ok; [|reflexivity|intros; exact Hk].
      simpl. rewrite IH.
      2:{ unfold ids. simpl. rewrite apply_where_ids by reflexivity.
          exact Hk. }
      unfold with_memories. simpl. do 2 f_equal.
      unfold apply_where. rewrite map_map. apply map_ext. intros m.
      rewrite (Z.eqb_sym (id r) (id m)).
      destruct (id m =? id r) eqn:E2; [|reflexivity].
      simpl. apply Z.eqb_eq in E2.
      replace (id m =? id keeper) with false
        by (symmetry; rewrite E2; exact E).
      simpl. now destruct (existsb _ rows).
Qed.

Lemma select_in_member (g : list Z) (s : store) (m : memory) :
  In m (memories s) ->
  existsb (fun r => id r =? id m) (select_in g s)
  = existsb (Z.eqb (id m)) g.
Proof.
  intros Hm. apply eq_iff_eq_true. rewrite existsb_exists. split.
  - intros [r [Hr E]]. apply Z.eqb_eq in E.
    apply filter_In in Hr. destruct Hr as [_ Hr]. now rewrite <- E.
  - intros H. exists m. split; [|apply Z.eqb_refl].
    apply filter_In. now split.
Qed.

Lemma merge_group_runs (now : timestamp) (g : list Z) (s : store) :
  select_in g s <> [] ->
  merge_group now g s
  = Ok (with_memories
          (map (merge_row now (keeper_id g (memories s)) g) (memories s)) s).
Proof.
  intros Hne. unfold merge_group, keeper_id.
  change (filter (fun m => existsb (Z.eqb (id m)) g) (memories s))
    with (select_in g s).
  destruct (select_in g s) as [|r rest] eqn:E; [contradiction|].
  unfold py_max, bind. cbv beta iota. rewrite for_each_supersede.
  - do 2 f_equal. apply map_ext_in. intros m Hm. unfold merge_row.
    now rewrite <- E, select_in_member.
  - unfold ids. apply in_map.
    assert (Hin : In (max_from r rest) (select_in g s))
      by (rewrite E; apply max_from_in).
    apply filter_In in Hin. tauto.
Qed.

Lemma same_key_refl (l : list memory) : Forall2 same_key l l.
Proof.
  induction l; constructor; [repeat split|assumption].
Qed.

Lemma same_key_filter (g : list Z) (l0 l1 : list memory) :
  Forall2 same_key l0 l1 ->
  Forall2 same_key (filter (fun m => existsb (Z.eqb (id m)) g) l0)
    (filter (fun m => existsb (Z.eqb (id m)) g) l1).
Proof.
  induction 1 as [|a b l0 l1 Hab _ IH]; simpl; [constructor|].
  destruct Hab as [Hid Hrest]. rewrite Hid.
  destruct (existsb (Z.eqb (id b)) g); [|exact IH].
  constructor; [|exact IH]. now split.
Qed.

Lemma same_key_max_from (l0 l1 : list memory) (b0 b1 : memory) :
  same_key b0 b1 -> Forall2 same_key l0 l1 ->
  same_key (max_from b0 l0) (max_from b1 l1).
Proof.
  intros Hb H. revert b0 b1 Hb.
  induction H as [|r0 r1 l0 l1 Hr _ IH]; intros b0 b1 Hb; simpl; [exact Hb|].
  apply IH.
  assert (E : key_lt b0 r0 = key_lt b1 r1).
  { unfold key_lt. destruct Hb as [_ [-> ->]], Hr as [_ [-> ->]].
    reflexivity. }
  rewrite E. now destruct (key_lt b1 r1).
Qed.

Lemma same_key_keeper (g : list Z) (l0 l1 : list memory) :
  Forall2 same_key l0 l1 ->
  keeper_id g l1 = keeper_id g l0
  /\ (filter (fun m => existsb (Z.eqb (id m)) g) l0 <> [] ->
      filter (fun m => existsb (Z.eqb (id m)) g) l1 <> []).
Proof.
  intros H. apply (same_key_filter g) in H. unfold keeper_id.
  destruct H as [|a b f0 f1 Hab Hf]; split; try congruence.
  symmetry. now apply same_key_max_from.
Qed.

Lemma merge_row_same_key (now : timestamp) (kid : Z) (g : list Z)
  (l0 l1 : list memory) :
  Forall2 same_key l0 l1 ->
  Forall2 same_key l0 (map (merge_row now kid g) l1).
Proof.
  induction 1 as [|a b l0 l1 Hab _ IH]; simpl; constructor; [|exact IH].
  unfold merge_row.
  destruct (existsb (Z.eqb (id b)) g && negb (id b =? kid)); exact Hab.
Qed.

(** The outer loop: the groups' loops compose row by row. *)
Lemma for_each_merge (now : timestamp) (rows0 : list memory)
  (gs : list (list Z)) (s : store) :
  Forall2 same_key rows0 (memories s) ->
  (forall g, In g gs ->
     filter (fun m => existsb (Z.eqb (id m)) g) rows0 <> []) ->
  for_each (merge_group now) gs s
  = Ok (with_memories (map (merged now rows0 gs) (memories s)) s).
Proof.
  revert s. induction gs as [|g gs IH]; intros s Hsame Hne.
  - simpl. unfold merged. simpl. now rewrite map_id, with_memories_same.
  - simpl.
    destruct (same_key_keeper g rows0 (memories s) Hsame) as [Hk Hf].
    rewrite merge_group_runs by (apply Hf, Hne; now left).
    simpl. rewrite IH.
    + unfold with_memories. simpl. do 2 f_equal.
      rewrite map_map. apply map_ext. intros m.
      unfold merged. simpl. now rewrite Hk.
    + simpl. now apply merge_row_same_key.
    + intros g' Hg'. apply Hne. now right.
Qed.

Lemma merged_untouched (now : timestamp) (rows : list memory)
  (gs : list (list Z)) (x : memory) :
  (forall g, In g gs -> existsb (Z.eqb (id x)) g = true ->
             keeper_id g rows = id x) ->
  merged now rows gs x = x.
Proof.
  unfold merged. induction gs as [|g gs IH]; intros H; simpl; [reflexivity|].
  assert (E : merge_row now (keeper_id g rows) g x = x).
  { unfold merge_row. destruct (existsb (Z.eqb (id x)) g) eqn:Hin;
      [|reflexivity].
    rewrite (H g (or_introl eq_refl) Hin), Z.eqb_refl. reflexivity. }
  rewrite E. apply IH. intros g' Hg'. apply H. now right.
Qed.

Lemma merged_fixed (now : timestamp) (rows : list memory)
  (gs : list (list Z)) (x : memory) (kid : Z) :
  (forall g, In g gs -> existsb (Z.eqb (id x)) g = true ->
             keeper_id g rows = kid) ->
  merged now rows gs (set_superseded_stamped kid now x)
  = set_superseded_stamped kid now x.
Proof.
  unfold merged. induction gs as [|g gs IH]; intros H; simpl; [reflexivity|].
  assert (E : merge_row now (keeper_id g rows) g
                (set_superseded_stamped kid now x)
              = set_superseded_stamped kid now x).
  { unfold merge_row. simpl.
    destruct (existsb (Z.eqb (id x)) g) eqn:Hin; [|reflexivity].
    rewrite (H g (or_introl eq_refl) Hin).
    now destruct (negb (id x =? kid)). }
  rewrite E. apply IH. intros g' Hg'. apply H. now right.
Qed.

Lemma merged_superseded (now : timestamp) (rows : list memory)
  (gs : list (list Z)) (x : memory) (kid : Z) :
  (forall g, In g gs -> existsb (Z.eqb (id x)) g = true ->
             keeper_id g rows = kid) ->
  id x <> kid ->
  (exists g, In g gs /\ existsb (Z.eqb (id x)) g = true) ->
  merged now rows gs x = set_superseded_stamped kid now x.
Proof.
  intros H Hne. induction gs as [|g gs IH]; intros [g0 [Hg0 Hin0]];
    [contradiction|].
  change (merged now rows (g :: gs) x)
    with (merged now rows gs (merge_row now (keeper_id g rows) g x)).
  unfold merge_row at 1.
  destruct (existsb (Z.eqb (id x)) g) eqn:Hin.
  - rewrite (H g (or_introl eq_refl) Hin).
    replace (id x =? kid) with false by (symmetry; now apply Z.eqb_neq).
    simpl. apply merged_fixed. intros g' Hg'. apply H. now right.
  - simpl. apply IH.
    + intros g' Hg'. apply H. now right.
    + destruct Hg0 as [->|Hg0]; [congruence|]. now exists g0.
Qed.

Lemma filter_by_own_ids (P : memory -> bool) (rows : list memory) :
  NoDup (map id rows) ->
  filter (fun m => existsb (Z.eqb (id m)) (map id (filter P rows))) rows
  = filter P rows.
Proof.
  intros Hnd. apply filter_ext_in. intros m Hm.
  apply eq_iff_eq_true. rewrite existsb_exists. split.
  - intros [i [Hi E]]. apply Z.eqb_eq in E. apply in_map_iff in Hi.
    destruct Hi as [m' [Hid Hm']]. apply filter_In in Hm'.
    destruct Hm' as [Hin HP].
    assert (m' = m) by (apply (same_id_same_row rows); auto; congruence).
    now subst m'.
  - intros HP. exists (id m). split; [|apply Z.eqb_refl].
    apply in_map. apply filter_In. now split.
Qed.

Lemma group_holds (k : string) (rows : list memory) (m : memory) :
  NoDup (map id rows) -> In m rows ->
  existsb (Z.eqb (id m)) (map id (group_members k rows)) = true ->
  is_active m = true /\ content_key m = k.
Proof.
  intros Hnd Hm H. apply existsb_exists in H. destruct H as [i [Hi E]].
  apply Z.eqb_eq in E. apply in_map_iff in Hi.
  destruct Hi as [m' [Hid Hm']]. apply filter_In in Hm'.
  destruct Hm' as [Hin HP].
  assert (m' = m) by (apply (same_id_same_row rows); auto; congruence).
  subst m'. apply andb_true_iff in HP. destruct HP as [Ha Hk].
  apply String.eqb_eq in Hk. now split.
Qed.

Lemma dupes_in (s : store) (g : list Z) :
  In g (dupes s) <->
  exists k, In k (active_keys (memories s))
            /\ g = map id (group_members k (memories s))
            /\ (1 < List.length g)%nat.
Proof.
  unfold dupes. rewrite filter_In, in_map_iff, Nat.ltb_lt. split.
  - intros [[k [Hk Hin]] Hlen]. exists k. auto.
  - intros [k [Hin [Hk Hlen]]]. split; [exists k; auto|exact Hlen].
Qed.

Lemma active_key_in (rows : list memory) (m : memory) :
  In m rows -> is_active m = true -> In (content_key m) (active_keys rows).
Proof.
  intros Hm Ha. unfold active_keys. apply nodup_In. apply in_map.
  apply filter_In. now split.
Qed.

(** The pass never raises, and its loops amount to [dedup_row] on every row. *)
Lemma dedup_pass_rowwise (now : timestamp) (s : store) :
  NoDup (ids s) ->
  dedup_pass now s
  = Ok (with_memories (map (dedup_row now (memories s)) (memories s)) s).
Proof.
  intros Hnd. unfold ids in Hnd. unfold dedup_pass.
  rewrite (for_each_merge now (memories s)).
  - do 2 f_equal. apply map_ext_in. intros m Hm.
    assert (HG : forall g, In g (dupes s) ->
                   existsb (Z.eqb (id m)) g = true ->
                   is_active m = true
                   /\ g = map id (group_members (content_key m) (memories s))
                   /\ (1 < List.length g)%nat).
    { intros g Hg Hin. apply dupes_in in Hg.
      destruct Hg as [k [_ [-> Hlen]]].
      destruct (group_holds k _ m Hnd Hm Hin) as [Ha <-]. auto. }
    unfold dedup_row. destruct (is_active m) eqn:Ha.
    + destruct (group_members (content_key m) (memories s))
        as [|r [|r2 rest]] eqn:Eg.
      * apply merged_untouched. intros g Hg Hin.
        destruct (HG g Hg Hin) as [_ [-> Hlen]]. simpl in Hlen. lia.
      * apply merged_untouched. intros g Hg Hin.
        destruct (HG g Hg Hin) as [_ [-> Hlen]]. simpl in Hlen. lia.
      * set (keeper := max_from r (r2 :: rest)).
        assert (Hkid : forall g, In g (dupes s) ->
                         existsb (Z.eqb (id m)) g = true ->
                         keeper_id g (memories s) = id keeper).
        { intros g Hg Hin. destruct (HG g Hg Hin) as [_ [-> _]].
          rewrite <- Eg. unfold keeper_id, group_members.
          rewrite filter_by_own_ids by exact Hnd.
          fold (group_members (content_key m) (memories s)).
          now rewrite Eg. }
        destruct (id m =? id keeper) eqn:E.
        -- apply merged_untouched. intros g Hg Hin.
           rewrite (Hkid g Hg Hin). symmetry. now apply Z.eqb_eq.
        -- apply merged_superseded; [exact Hkid|now apply Z.eqb_neq|].
           exists (map id (group_members (content_key m) (memories s))).
           split.
           ++ apply dupes_in. exists (content_key m).
              split; [now apply active_key_in|]. split; [reflexivity|].
              rewrite Eg. simpl. lia.
           ++ apply existsb_exists. exists (id m).
              split; [|apply Z.eqb_refl]. apply in_map.
              apply filter_In. split; [exact Hm|].
              now rewrite Ha, String.eqb_refl.
    + apply merged_untouched. intros g Hg Hin.
      destruct (HG g Hg Hin) as [Ha' _]. congruence.
  - apply same_key_refl.
  - intros g Hg. apply dupes_in in Hg. destruct Hg as [k [_ [-> Hlen]]].
    rewrite length_map in Hlen. unfold group_members in *.
    rewrite filter_by_own_ids by exact Hnd.
    destruct (filter _ (memories s)); [simpl in Hlen; lia|discriminate].
Qed.

Lemma find_map_id (i : Z) (f : memory -> memory) (rows : list memory) :
  (forall m, id (f m) = id m) ->
  find (fun r => id r =? i) (map f rows)
  = option_map f (find (fun r => id r =? i) rows).
Proof.
  intros Hid. induction rows as [|r rows IH]; simpl; [reflexivity|].
  rewrite Hid. destruct (id r =? i); [reflexivity|exact IH].
Qed.

Lemma dedup_row_id (now : timestamp) (rows : list memory) (m : memory) :
  id (dedup_row now rows m) = id m.
Proof.
  unfold dedup_row. destruct (is_active m); [|reflexivity].
  destruct (group_members (content_key m) rows) as [|r [|r2 rest]];
    try reflexivity.
  now destruct (id m =? id (max_from r (r2 :: rest))).
Qed.

Lemma group_members_in (k : string) (rows : list memory) (m : memory) :
  In m (group_members k rows) <->
  In m rows /\ state_of m = Active /\ content_key m = k.
Proof.
  unfold group_members.
  rewrite filter_In, andb_true_iff, is_active_state, String.eqb_eq.
  tauto.
Qed.

Lemma lookup_after_dedup (now : timestamp) (s : store) (m : memory) :
  NoDup (ids s) -> In m (memories s) ->
  lookup (id m)
    (with_memories (map (dedup_row now (memories s)) (memories s)) s)
  = Some (dedup_row now (memories s) m).
Proof.
  intros Hnd Hm. unfold lookup. simpl.
  rewrite find_map_id by (intros; apply dedup_row_id).
  now rewrite (find_id_unique _ m Hnd Hm).
Qed.

(** C3. The deduplication pass goes through on every store and touches only
    the memories table.  In every group of two or more Active records with
    the same LOWER(TRIM(content)) there is a keeper whose (access_count,
    importance) pair is lexicographically greatest; the keeper stays as it
    was, and every other member becomes Superseded with superseded_by the
    keeper's id.  Records that are not Active when the pass starts (such as
    records retired earlier in the sweep) and records alone in their group
    are left as they were. *)
Theorem dedup_keeps_greatest_key (now : timestamp) (s : store)
  (Hwf : wf_store s) :
  exists s',
    dedup_pass now s = Ok s'
    /\ tags s' = tags s /\ relations s' = relations s /\ ids s' = ids s
    /\ (forall k,
          (2 <= List.length (group_members k (memories s)))%nat ->
          exists keeper,
            In keeper (group_members k (memories s))
            /\ (forall m, In m (group_members k (memories s)) ->
                          key_le m keeper)
            /\ lookup (id keeper) s' = Some keeper
            /\ state_of keeper = Active
            /\ (forall m, In m (group_members k (memories s)) ->
                  m <> keeper ->
                  lookup (id m) s'
                  = Some (set_superseded_stamped (id keeper) now m)
                  /\ state_of (set_superseded_stamped (id keeper) now m)
                     = Superseded))
    /\ (forall m, In m (memories s) -> state_of m <> Active ->
                  lookup (id m) s' = Some m)
    /\ (forall m, In m (memories s) ->
          (List.length (group_members (content_key m) (memories s)) < 2)%nat ->
          lookup (id m) s' = Some m).
Proof.
  destruct Hwf as [Hnd Hpos _].
  eexists. split; [now apply dedup_pass_rowwise|].
  split; [reflexivity|]. split; [reflexivity|].
  split.
  { unfold ids. simpl. rewrite map_map. apply map_ext.
    intros m. apply dedup_row_id. }
  split; [|split].
  - intros k Hlen.
    destruct (group_members k (memories s)) as [|r [|r2 rest]] eqn:Eg;
      try (simpl in Hlen; lia).
    set (keeper := max_from r (r2 :: rest)).
    assert (Hkin : In keeper (r :: r2 :: rest)) by apply max_from_in.
    assert (Hmem : forall m, In m (r :: r2 :: rest) ->
                     In m (memories s) /\ is_active m = true
                     /\ group_members (content_key m) (memories s)
                        = r :: r2 :: rest).
    { intros m Hm. rewrite <- Eg in Hm. apply group_members_in in Hm.
      destruct Hm as [H1 [H2 H3]]. rewrite H3, Eg.
      split; [exact H1|]. split; [now apply is_active_state|reflexivity]. }
    exists keeper. split; [exact Hkin|].
    split; [intros m Hm; now apply max_from_above_all|].
    destruct (Hmem keeper Hkin) as [Kin [Kact Kgrp]].
    split.
    { rewrite lookup_after_dedup by assumption. f_equal.
      unfold dedup_row. rewrite Kact, Kgrp.
      fold keeper. now rewrite Z.eqb_refl. }
    split; [now apply is_active_state|].
    intros m Hm Hneq. destruct (Hmem m Hm) as [Min [Mact Mgrp]].
    assert (Hid : id m <> id keeper).
    { intros E. apply Hneq.
      now apply (same_id_same_row (memories s)). }
    split.
    + rewrite lookup_after_dedup by assumption. f_equal.
      unfold dedup_row. rewrite Mact, Mgrp. fold keeper.
      apply Z.eqb_neq in Hid. now rewrite Hid.
    + unfold state_of. simpl.
      replace (id keeper =? id m) with false
        by (symmetry; apply Z.eqb_neq; congruence).
      replace (id keeper <? 0) with false; [reflexivity|].
      symmetry. apply Z.ltb_ge. specialize (Hpos keeper Kin). lia.
  - intros m Hm Hst. rewrite lookup_after_dedup by assumption. f_equal.
    unfold dedup_row. apply not_active_state in Hst. now rewrite Hst.
  - intros m Hm Hlen. rewrite lookup_after_dedup by assumption. f_equal.
    unfold dedup_row. destruct (is_active m); [|reflexivity].
    destruct (group_members (content_key m) (memories s)) as [|r [|r2 rest]];
      try reflexivity.
    simpl in Hlen. lia.
Qed.

Lemma duplicate_store_wf : wf_store duplicate_store.
Proof.
  constructor.
  - unfold ids. simpl. repeat constructor; simpl; intuition discriminate.
  - intros m [<-|[<-|[<-|[]]]]; simpl; lia.
  - intros p [].
Qed.

Lemma dedup_keeps_greatest_key_witness :
  exists s',
    dedup_pass now0 duplicate_store = Ok s'
    /\ lookup 1 s' = Some (row 1 "Use uv " 0.4 3 5 None)
    /\ lookup 2 s'
       = Some (set_superseded_stamped 1 now0 (row 2 "use uv" 0.9 1 5 None))
    /\ lookup 3 s' = Some (row 3 "USE UV" 0.9 9 5 (Some 3)).
Proof.
  destruct (dedup_keeps_greatest_key now0 duplicate_store duplicate_store_wf)
    as [s' [Hrun [_ [_ [_ [Hgroups [Hidle _]]]]]]].
  exists s'. split; [exact Hrun|].
  destruct (Hgroups "use uv"%string) as [keeper [Hin [Hmax [Hkeep [_ Hrest]]]]];
    [simpl; lia|].
  assert (Hk : keeper = row 1 "Use uv " 0.4 3 5 None).
  { destruct Hin as [<-|[<-|[]]]; [reflexivity|].
    specialize (Hmax (row 1 "Use uv " 0.4 3 5 None) (or_introl eq_refl)).
    unfold key_le in Hmax. simpl in Hmax. lia. }
  subst keeper. split; [exact Hkeep|]. split.
  - apply (Hrest (row 2 "use uv" 0.9 1 5 None)).
    + simpl. right. now left.
    + discriminate.
  - apply (Hidle (row 3 "USE UV" 0.9 9 5 (Some 3))).
    + simpl. tauto.
    + discriminate.
Defined.

(** The same store through the whole sweep: the copy read three times is
    kept over the copy with the higher importance. *)
Example sweep_prefers_access_count :
  map superseded_by (memories (consolidate now0 duplicate_store))
  = [None; Some 1; Some 3].
Proof. reflexivity. Qed.

(** ** The sweep run twice *)

Lemma update_fk_inv (p : memory -> bool) (f : memory -> memory)
  (s s' : store) :
  update_fk p f s = Ok s' ->
  s' = with_memories (apply_where p f (memories s)) s.
Proof.
  unfold update_fk. destruct (forallb _ (memories s)); [|discriminate].
  intros H. now injection H as <-.
Qed.

Lemma dedup_row_active (now : timestamp) (rows : list memory) (m : memory) :
  is_active (dedup_row now rows m) = true ->
  dedup_row now rows m = m /\ is_active m = true.
Proof.
  unfold dedup_row. destruct (is_active m) eqn:Ha; [|congruence].
  destruct (group_members (content_key m) rows) as [|r [|r2 rest]]; auto.
  destruct (id m =? id (max_from r (r2 :: rest))); auto.
  discriminate.
Qed.

Lemma length_filter_map {A B : Type} (p : B -> bool) (f : A -> B)
  (l : list A) :
  List.length (filter p (map f l)) = List.length (filter (fun x => p (f x)) l).
Proof.
  induction l as [|x l IH]; simpl; [reflexivity|].
  destruct (p (f x)); simpl; now rewrite IH.
Qed.

Lemma length_filter_le {A : Type} (p q : A -> bool) (l : list A) :
  (forall x, In x l -> q x = true -> p x = true) ->
  (List.length (filter q l) <= List.length (filter p l))%nat.
Proof.
  induction l as [|x l IH]; intros H; simpl; [lia|].
  assert (IH' := IH (fun y Hy => H y (or_intror Hy))).
  destruct (q x) eqn:Eq.
  - rewrite (H x (or_introl eq_refl) Eq). simpl. lia.
  - destruct (p x); simpl; lia.
Qed.

Lemma at_most_one_row_per_id (i : Z) (rows : list memory) :
  NoDup (map id rows) ->
  (List.length (filter (fun m => (id m =? i)%Z) rows) <= 1)%nat.
Proof.
  induction rows as [|r rows IH]; simpl; intros Hnd; [lia|].
  inversion Hnd as [|? ? Hnot Hnd']; subst.
  destruct (id r =? i) eqn:E; [|now apply IH].
  apply Z.eqb_eq in E. simpl.
  destruct (filter (fun m => id m =? i) rows) as [|m l] eqn:F; [simpl; lia|].
  exfalso. assert (Hm : In m (filter (fun m => id m =? i) rows))
    by (rewrite F; now left).
  apply filter_In in Hm. destruct Hm as [Hm Em]. apply Z.eqb_eq in Em.
  apply Hnot. rewrite E, <- Em. now apply in_map.
Qed.

Lemma dedup_row_content (now : timestamp) (rows : list memory) (m : memory) :
  content_key (dedup_row now rows m) = content_key m.
Proof.
  unfold dedup_row. destruct (is_active m); [|reflexivity].
  destruct (group_members (content_key m) rows) as [|r [|r2 rest]];
    try reflexivity.
  now destruct (id m =? id (max_from r (r2 :: rest))).
Qed.

(** After the pass, no key is shared by two Active rows. *)
Lemma dedup_leaves_no_group (now : timestamp) (rows : list memory)
  (k : string) :
  NoDup (map id rows) ->
  (List.length (group_members k (map (dedup_row now rows) rows)) <= 1)%nat.
Proof.
  intros Hnd. unfold group_members at 1. rewrite length_filter_map.
  assert (Hsub : (List.length
                    (filter (fun m => is_active (dedup_row now rows m)
                                      && String.eqb
                                           (content_key (dedup_row now rows m))
                                           k) rows)
                  <= List.length (group_members k rows))%nat).
  { unfold group_members. apply length_filter_le. intros m _ H.
    apply andb_true_iff in H. destruct H as [H1 H2].
    apply dedup_row_active in H1. rewrite dedup_row_content in H2.
    destruct H1 as [_ ->]. exact H2. }
  destruct (group_members k rows) as [|r [|r2 rest]] eqn:Eg;
    try (simpl in Hsub; lia).
  etransitivity;
    [|apply (at_most_one_row_per_id (id (max_from r (r2 :: rest))) rows Hnd)].
  apply length_filter_le. intros m _ H.
  apply andb_true_iff in H. destruct H as [H1 H2].
  rewrite dedup_row_content in H2. apply String.eqb_eq in H2.
  unfold dedup_row in H1.
  destruct (is_active m) eqn:Ha; [|simpl in H1; congruence].
  rewrite H2, Eg in H1.
  destruct (id m =? id (max_from r (r2 :: rest))); [reflexivity|].
  discriminate.
Qed.

Lemma dupes_none (s : store) :
  (forall k, (List.length (group_members k (memories s)) <= 1)%nat) ->
  dupes s = [].
Proof.
  intros H. unfold dupes.
  induction (active_keys (memories s)) as [|k ks IH]; simpl; [reflexivity|].
  rewrite IH.
  replace (1 <? List.length (map id (group_members k (memories s))))%nat
    with false; [reflexivity|].
  symmetry. apply Nat.ltb_ge. rewrite length_map. apply H.
Qed.

(** A committed sweep, run again on a store where decay has nothing left to
    do, matches no row in any of its three passes. *)
Lemma second_sweep_at_rest (now : timestamp) (s s1 : store) :
  NoDup (ids s) ->
  consolidate_txn now s = Ok s1 ->
  (forall m, In m (memories s1) -> decay_eligible now m = false) ->
  consolidate_txn now s1 = Ok s1.
Proof.
  intros Hnd Hrun Hrest. unfold consolidate_txn in Hrun.
  destruct (retire_pass now (decay_pass now s)) as [sr|e] eqn:Er;
    [|discriminate].
  simpl in Hrun.
  apply update_fk_inv in Er.
  assert (Hidr : ids sr = ids s).
  { rewrite Er. unfold ids. simpl.
    rewrite apply_where_ids by reflexivity. apply decay_pass_ids. }
  assert (Hndr : NoDup (ids sr)) by (now rewrite Hidr).
  rewrite (dedup_pass_rowwise now sr Hndr) in Hrun.
  injection Hrun as Hs1.
  assert (Hrows1 : memories s1 = map (dedup_row now (memories sr)) (memories sr))
    by (now rewrite <- Hs1).
  unfold consolidate_txn.
  assert (Hd : decay_pass now s1 = s1).
  { unfold decay_pass, update_where.
    rewrite (apply_where_none _ _ _ Hrest). apply with_memories_same. }
  rewrite Hd. unfold retire_pass. rewrite update_fk_none.
  - simpl. unfold dedup_pass. rewrite dupes_none; [reflexivity|].
    intros k. rewrite Hrows1. apply dedup_leaves_no_group. exact Hndr.
  - intros m1 Hm1. destruct (retire_eligible now m1) eqn:E; [|reflexivity].
    exfalso. rewrite Hrows1 in Hm1. apply in_map_iff in Hm1.
    destruct Hm1 as [mr [Hmr Hin]].
    assert (Ha1 : is_active m1 = true).
    { unfold retire_eligible in E. rewrite !andb_true_iff in E. tauto. }
    rewrite <- Hmr in Ha1. apply dedup_row_active in Ha1.
    destruct Ha1 as [Hsame Har]. rewrite Hsame in Hmr. subst mr.
    rewrite Er in Hin. simpl in Hin. unfold apply_where in Hin.
    apply in_map_iff in Hin. destruct Hin as [md [Hmd _]].
    destruct (retire_eligible now md) eqn:Ed.
    + rewrite <- Hmd in Har. discriminate.
    + congruence.
Qed.

(** When the first run leaves no Active record eligible for decay
    (access_count = 0, created before the 30-day cutoff, importance > 0.1),
    a second run at the same time leaves the store exactly as the first run
    left it; unique ids are all this needs. *)
Theorem second_sweep_is_noop_once_decay_rests (now : timestamp) (s : store)
  (Hpk : NoDup (ids s))
  (Hrest : forall m, In m (memories (consolidate now s)) ->
                     decay_eligible now m = false) :
  consolidate now (consolidate now s) = consolidate now s.
Proof.
  unfold consolidate in *.
  destruct (consolidate_txn now s) as [s1|e] eqn:E; simpl in *.
  - now rewrite (second_sweep_at_rest now s s1 Hpk E Hrest).
  - now rewrite E.
Qed.

Lemma second_sweep_is_noop_once_decay_rests_witness :
  consolidate now0 (consolidate now0 duplicate_store)
  = consolidate now0 duplicate_store.
Proof.
  apply second_sweep_is_noop_once_decay_rests.
  - unfold ids. simpl. repeat constructor; simpl; intuition discriminate.
  - intros m [<-|[<-|[<-|[]]]]; reflexivity.
Defined.

(** C1, the claim as written fails: a never-accessed record created 35 days
    ago is decayed by the first run and decayed again by the second. *)
Lemma second_sweep_decays_again :
  let s := one_row (row 1 "use uv" 0.5 0 35 None) in
  map importance (memories (consolidate now0 s)) = [0.45%Q]
  /\ map importance (memories (consolidate now0 (consolidate now0 s)))
     = [0.405%Q]
  /\ consolidate now0 (consolidate now0 s) <> consolidate now0 s.
Proof.
  simpl. split; [reflexivity|]. split; [reflexivity|]. discriminate.
Qed.

(** ** Scoring *)

Module ScoreFacts.

Import Surface.
Local Open Scope R_scope.

Lemma ln_base_neg : ln 0.998 < 0.
Proof.
  rewrite <- ln_1. apply ln_increasing; lra.
Qed.

Lemma decay_antitone (x y : R) :
  x <= y -> Rpower 0.998 y <= Rpower 0.998 x.
Proof.
  intros H. unfold Rpower. pose proof ln_base_neg as Hln.
  destruct (Req_dec x y) as [->|Hne]; [apply Rle_refl|].
  apply Rlt_le. apply exp_increasing.
  assert (x < y) by lra. nra.
Qed.

Lemma hours_monotone (now1 now2 c1 c2 : timestamp) :
  (now1 - c1 <= now2 - c2)%Z ->
  Rmax (hours_between now1 c1) 0 <= Rmax (hours_between now2 c2) 0.
Proof.
  intros H. apply Rle_max_compat_r. unfold hours_between.
  apply Rmult_le_compat_r; [|now apply IZR_le].
  apply Rlt_le. apply Rinv_0_lt_compat. lra.
Qed.

Lemma time_decay_pos (now : timestamp) (c : option timestamp) :
  0 < time_decay now c.
Proof.
  destruct c as [c|]; simpl; [apply exp_pos|lra].
Qed.

Lemma q_or_nonneg (v : option Q) (d : Q) :
  (0 <= d)%Q -> (forall q, v = Some q -> (0 <= q)%Q) -> 0 <= Q2R (q_or v d).
Proof.
  intros Hd Hv. rewrite <- RMicromega.Q2R_0. apply Qle_Rle.
  unfold q_or. destruct v as [q|]; [|exact Hd].
  destruct (Qeq_bool q 0); [exact Hd|now apply Hv].
Qed.

Lemma z_or_zero (a : Z) : z_or (Some a) 0 = a.
Proof.
  unfold z_or. destruct (a =? 0)%Z eqn:E; [|reflexivity].
  apply Z.eqb_eq in E. now subst.
Qed.

End ScoreFacts.

Import Surface ScoreFacts.

(** C9. For importance and confidence in [0, 1] and a non-negative access
    count, the score of a record with a well-formed created_at does not
    increase when the record's age grows and the other columns stay, and
    does not decrease when access_count grows and the other columns stay;
    it is the product importance * confidence * (1 + access_count * 0.1)
    * 0.998 ^ age_hours; with a malformed or missing created_at the decay
    factor is 0.5. *)
Theorem score_monotone_in_age_and_access (imp conf : Q) (acc : Z)
  (Himp : (0 <= imp <= 1)%Q) (Hconf : (0 <= conf <= 1)%Q)
  (Hacc : (0 <= acc)%Z) :
  (forall now1 now2 c1 c2,
      (now1 - c1 <= now2 - c2)%Z ->
      (score_memory now2 (mkRow (Some imp) (Some conf) (Some acc) (Some c2))
       <= score_memory now1 (mkRow (Some imp) (Some conf) (Some acc) (Some c1)))%R)
  /\ (forall now c acc',
        (acc <= acc')%Z ->
        (score_memory now (mkRow (Some imp) (Some conf) (Some acc) c)
         <= score_memory now (mkRow (Some imp) (Some conf) (Some acc') c))%R)
  /\ (forall now c,
        ~ (imp == 0)%Q -> ~ (conf == 0)%Q -> (c <= now)%Z ->
        score_memory now (mkRow (Some imp) (Some conf) (Some acc) (Some c))
        = (Q2R imp * Q2R conf * (1 + IZR acc * 0.1)
           * Rpower 0.998 (hours_between now c))%R)
  /\ (forall now,
        time_decay now None = 0.5%R
        /\ score_memory now (mkRow (Some imp) (Some conf) (Some acc) None)
           = (Q2R (q_or (Some imp) 0.5) * Q2R (q_or (Some conf) 0.8)
              * (1 + IZR acc * 0.1) * 0.5)%R).
Proof.
  assert (Hi : (0 <= Q2R (q_or (Some imp) 0.5))%R).
  { apply q_or_nonneg; [discriminate|]. intros q [= <-]. tauto. }
  assert (Hc : (0 <= Q2R (q_or (Some conf) 0.8))%R).
  { apply q_or_nonneg; [discriminate|]. intros q [= <-]. tauto. }
  assert (Ha : (0 <= IZR acc)%R) by (now apply IZR_le).
  split; [|split; [|split]].
  - intros now1 now2 c1 c2 Hage. unfold score_memory. simpl r_importance.
    simpl r_confidence. simpl r_access_count. simpl r_created_at.
    rewrite z_or_zero. cbv zeta. unfold time_decay.
    apply Rmult_le_compat_l.
    + apply Rmult_le_pos; [apply Rmult_le_pos; assumption|lra].
    + apply decay_antitone. now apply hours_monotone.
  - intros now c acc' Hle. unfold score_memory. simpl r_importance.
    simpl r_confidence. simpl r_access_count. simpl r_created_at.
    rewrite !z_or_zero. cbv zeta.
    apply Rmult_le_compat_r; [apply Rlt_le, time_decay_pos|].
    apply Rmult_le_compat_l; [apply Rmult_le_pos; assumption|].
    apply IZR_le in Hle. lra.
  - intros now c Hi0 Hc0 Hnow. unfold score_memory. simpl r_importance.
    simpl r_confidence. simpl r_access_count. simpl r_created_at.
    rewrite z_or_zero. cbv zeta. unfold time_decay, q_or.
    replace (Qeq_bool imp 0) with false
      by (symmetry; destruct (Qeq_bool imp 0) eqn:E;
          [apply Qeq_bool_eq in E; contradiction|reflexivity]).
    replace (Qeq_bool conf 0) with false
      by (symmetry; destruct (Qeq_bool conf 0) eqn:E;
          [apply Qeq_bool_eq in E; contradiction|reflexivity]).
    rewrite Rmax_left; [reflexivity|].
    unfold hours_between. apply Rmult_le_pos.
    + apply IZR_le. lia.
    + apply Rlt_le. apply Rinv_0_lt_compat. lra.
  - intros now. split; [reflexivity|].
    unfold score_memory. simpl r_importance. simpl r_confidence.
    simpl r_access_count. simpl r_created_at. now rewrite z_or_zero.
Qed.

Lemma score_monotone_in_age_and_access_witness :
  (score_memory now0
     (mkRow (Some 0.5%Q) (Some 0.8%Q) (Some 2%Z) (Some (now0 - days 2)%Z))
   <= score_memory now0
        (mkRow (Some 0.5%Q) (Some 0.8%Q) (Some 2%Z) (Some (now0 - days 1)%Z)))%R.
Proof.
  apply (proj1 (score_monotone_in_age_and_access 0.5 0.8 2
                  ltac:(split; unfold Qle; simpl; lia)
                  ltac:(split; unfold Qle; simpl; lia)
                  ltac:(lia))).
  vm_compute. discriminate.
Defined.

(** * Further properties of the sweep *)

Import Invariants.

Lemma consolidate_txn_rowwise (now : timestamp) (s s1 : store) :
  NoDup (ids s) ->
  consolidate_txn now s = Ok s1 ->
  s1 = with_memories
         (map (dedup_row now
                 (apply_where (retire_eligible now)
                    (set_superseded_stamped (-1) now)
                    (memories (decay_pass now s))))
            (apply_where (retire_eligible now)
               (set_superseded_stamped (-1) now)
               (memories (decay_pass now s)))) s.
Proof.
  intros Hnd Hrun. unfold consolidate_txn in Hrun.
  destruct (retire_pass now (decay_pass now s)) as [sr|e] eqn:Er;
    [|discriminate].
  simpl in Hrun. apply update_fk_inv in Er.
  assert (Hndr : NoDup (ids sr)).
  { rewrite Er. unfold ids. simpl.
    rewrite apply_where_ids by reflexivity.
    change (NoDup (ids (decay_pass now s))). now rewrite decay_pass_ids. }
  rewrite (dedup_pass_rowwise now sr Hndr) in Hrun.
  injection Hrun as <-. rewrite Er. reflexivity.
Qed.

Lemma same_columns_refl (m : memory) : same_columns m m.
Proof. repeat split. Qed.

Lemma same_columns_trans (a b c : memory) :
  same_columns a b -> same_columns b c -> same_columns a c.
Proof.
  unfold same_columns. intros H1 H2.
  repeat match goal with H : _ /\ _ |- _ => destruct H end.
  repeat split; congruence.
Qed.

Lemma dedup_row_columns (now : timestamp) (rows : list memory) (m : memory) :
  same_columns m (dedup_row now rows m)
  /\ importance (dedup_row now rows m) = importance m.
Proof.
  unfold dedup_row. destruct (is_active m);
    [|split; [apply same_columns_refl|reflexivity]].
  destruct (group_members (content_key m) rows) as [|r [|r2 rest]];
    try (split; [apply same_columns_refl|reflexivity]).
  destruct (id m =? id (max_from r (r2 :: rest)));
    split; try reflexivity; repeat split.
Qed.

Lemma swept_row (now : timestamp) (rows : list memory) (m : memory) :
  same_columns m (swept now rows m)
  /\ (importance (swept now rows m) = importance m
      \/ (importance (swept now rows m) = (importance m * 0.9)%Q
          /\ decay_eligible now m = true))
  /\ (is_active m = false -> swept now rows m = m)
  /\ (is_active (swept now rows m) = true -> is_active m = true).
Proof.
  unfold swept.
  set (d := if decay_eligible now m then decay_row now m else m).
  set (r := if retire_eligible now d then set_superseded_stamped (-1) now d
            else d).
  assert (Hd : same_columns m d
               /\ is_active d = is_active m
               /\ (importance d = importance m
                   \/ (importance d = (importance m * 0.9)%Q
                       /\ decay_eligible now m = true))
               /\ (is_active m = false -> d = m)).
  { subst d. destruct (decay_eligible now m) eqn:E.
    - repeat split; auto.
      intros H. unfold decay_eligible in E. rewrite H in E. discriminate.
    - repeat split; auto. }
  destruct Hd as [Hd1 [Hd2 [Hd3 Hd4]]].
  assert (Hr : same_columns d r /\ importance r = importance d
               /\ (is_active d = false -> r = d)
               /\ (is_active r = true -> is_active d = true)).
  { subst r. destruct (retire_eligible now d) eqn:E.
    - repeat split; auto; try discriminate.
      intros H. unfold retire_eligible in E. rewrite H in E. discriminate.
    - repeat split; auto. }
  destruct Hr as [Hr1 [Hr2 [Hr3 Hr4]]].
  destruct (dedup_row_columns now rows r) as [Hc Hi].
  split; [|split; [|split]].
  - eapply same_columns_trans; [exact Hd1|].
    eapply same_columns_trans; [exact Hr1|exact Hc].
  - rewrite Hi, Hr2. exact Hd3.
  - intros H. rewrite (Hd4 H) in *. rewrite H in Hr3.
    rewrite (Hr3 eq_refl). unfold dedup_row. now rewrite H.
  - intros H. apply dedup_row_active in H. destruct H as [_ H].
    rewrite <- Hd2. now apply Hr4.
Qed.

Lemma consolidate_rows (now : timestamp) (s : store) :
  NoDup (ids s) ->
  exists rows,
    consolidate now s = with_memories (map (swept now rows) (memories s)) s
    \/ consolidate now s = s.
Proof.
  intros Hnd. unfold consolidate.
  destruct (consolidate_txn now s) as [s1|e] eqn:E; simpl.
  - eexists. left. rewrite (consolidate_txn_rowwise now s s1 Hnd E).
    f_equal. unfold decay_pass, update_where, apply_where. simpl.
    rewrite !map_map. reflexivity.
  - exists []. now right.
Qed.

Lemma Forall2_same {A : Type} (R : A -> A -> Prop) (l : list A) :
  (forall x, R x x) -> Forall2 R l l.
Proof.
  intros H. induction l; constructor; auto.
Qed.

Lemma decayed_is_smaller (q : Q) : (0.1 < q)%Q -> (q * 0.9 <= q)%Q.
Proof.
  destruct q as [n d]. unfold Qlt, Qle, Qmult. simpl. nia.
Qed.

(** X1. The sweep neither adds nor deletes a row and leaves tags, relations
    and the rowid counter alone; of a row it can only change importance,
    updated_at and superseded_by. *)
Theorem sweep_keeps_rows_and_columns (now : timestamp) (s : store)
  (Hpk : NoDup (ids s)) :
  Forall2 same_columns (memories s) (memories (consolidate now s))
  /\ tags (consolidate now s) = tags s
  /\ relations (consolidate now s) = relations s
  /\ sqlite_sequence (consolidate now s) = sqlite_sequence s.
Proof.
  destruct (consolidate_rows now s Hpk) as [rows [-> | ->]].
  - simpl. repeat split.
    apply Forall2_map_right. intros m _. apply swept_row.
  - repeat split. apply Forall2_same. apply same_columns_refl.
Qed.

(** X2. The sweep never touches a record that is not Active, never makes a
    record Active again, and never raises an importance: a row's importance
    afterwards is what it was, or 0.9 times that for a row the decay
    statement matched. *)
Theorem sweep_only_lowers_active_rows (now : timestamp) (s : store)
  (Hpk : NoDup (ids s)) :
  Forall2
    (fun m m' =>
       (state_of m <> Active -> m' = m)
       /\ (state_of m' = Active -> state_of m = Active)
       /\ (importance m' <= importance m)%Q
       /\ (importance m' = importance m
           \/ (importance m' = (importance m * 0.9)%Q
               /\ decay_eligible now m = true)))
    (memories s) (memories (consolidate now s)).
Proof.
  destruct (consolidate_rows now s Hpk) as [rows [-> | ->]].
  - simpl. apply Forall2_map_right. intros m _.
    destruct (swept_row now rows m) as [_ [Hi [Hina Hact]]].
    split; [|split; [|split]].
    + intros H. apply Hina. now apply not_active_state.
    + rewrite <- !is_active_state. exact Hact.
    + destruct Hi as [-> | [-> He]]; [apply Qle_refl|].
      apply decayed_is_smaller. now apply decay_eligible_iff in He.
    + exact Hi.
  - apply Forall2_same. intros m. repeat split; auto.
    + apply Qle_refl.
Qed.

Lemma sweep_keeps_rows_and_columns_witness :
  Forall2 same_columns (memories duplicate_store)
    (memories (consolidate now0 duplicate_store))
  /\ tags (consolidate now0 duplicate_store) = tags duplicate_store
  /\ relations (consolidate now0 duplicate_store) = relations duplicate_store
  /\ sqlite_sequence (consolidate now0 duplicate_store)
     = sqlite_sequence duplicate_store.
Proof.
  apply sweep_keeps_rows_and_columns.
  unfold ids. simpl. repeat constructor; simpl; intuition discriminate.
Defined.

Lemma sweep_only_lowers_active_rows_witness :
  Forall2
    (fun m m' =>
       (state_of m <> Active -> m' = m)
       /\ (state_of m' = Active -> state_of m = Active)
       /\ (importance m' <= importance m)%Q
       /\ (importance m' = importance m
           \/ (importance m' = (importance m * 0.9)%Q
               /\ decay_eligible now0 m = true)))
    (memories duplicate_store) (memories (consolidate now0 duplicate_store)).
Proof.
  apply sweep_only_lowers_active_rows.
  unfold ids. simpl. repeat constructor; simpl; intuition discriminate.
Defined.

Lemma decay_rows_in (now : timestamp) (s : store) (d : memory) :
  In d (memories (decay_pass now s)) ->
  exists m, In m (memories s) /\ id d = id m.
Proof.
  unfold decay_pass, update_where, apply_where. simpl.
  rewrite in_map_iff. intros [m [<- Hm]]. exists m. split; [exact Hm|].
  now destruct (decay_eligible now m).
Qed.

Lemma length_le_one_same {A : Type} (l : list A) (a b : A) :
  (List.length l <= 1)%nat -> In a l -> In b l -> a = b.
Proof.
  destruct l as [|x [|y l]]; simpl; intros H Ha Hb.
  - contradiction.
  - destruct Ha as [<-|[]], Hb as [<-|[]]. reflexivity.
  - lia.
Qed.

(** X3. On a store with positive ids the sweep raises exactly when, after
    the decay pass, some row matches the retirement statement; it then
    leaves the store as it was.  Otherwise it commits, and no Active record
    ends up Retired. *)
Theorem sweep_commits_iff_nothing_to_retire (now : timestamp) (s : store)
  (Hwf : wf_store s) :
  ((exists m, In m (memories (decay_pass now s))
              /\ retire_eligible now m = true) ->
   consolidate_txn now s = Raise IntegrityError /\ consolidate now s = s)
  /\ ((forall m, In m (memories (decay_pass now s)) ->
                 retire_eligible now m = false) ->
      exists s1,
        consolidate_txn now s = Ok s1 /\ consolidate now s = s1
        /\ Forall2 (fun m m' => state_of m = Active -> state_of m' <> Retired)
             (memories s) (memories s1)).
Proof.
  destruct Hwf as [Hpk Hpos _]. split.
  - intros [m [Hm He]]. apply (sweep_aborts_on_retirement now s m Hm He).
    unfold ids. rewrite in_map_iff. intros [x [Hx Hin]].
    specialize (Hpos x Hin). lia.
  - intros Hnone.
    assert (Hr : retire_pass now (decay_pass now s) = Ok (decay_pass now s))
      by (now apply update_fk_none).
    assert (Hnd : NoDup (ids (decay_pass now s)))
      by (now rewrite decay_pass_ids).
    eexists. unfold consolidate, consolidate_txn. rewrite Hr. simpl.
    rewrite (dedup_pass_rowwise now _ Hnd). simpl.
    split; [reflexivity|]. split; [reflexivity|].
    unfold apply_where. rewrite map_map. apply Forall2_map_right.
    intros m Hm Hact.
    set (d := if decay_eligible now m then decay_row now m else m).
    set (rows := map _ (memories s)).
    assert (Hd : is_active d = true /\ id d = id m).
    { apply is_active_state in Hact. subst d.
      destruct (decay_eligible now m); split; auto. }
    destruct Hd as [Hda Hdi].
    unfold dedup_row. rewrite Hda.
    destruct (group_members (content_key d) rows) as [|r [|r2 rest]] eqn:Eg;
      try (unfold state_of; unfold is_active in Hda;
           destruct (superseded_by d); discriminate).
    assert (Hk : In (max_from r (r2 :: rest)) rows).
    { pose proof (max_from_in (r2 :: rest) r) as H. rewrite <- Eg in H.
      apply group_members_in in H. tauto. }
    set (keeper := max_from r (r2 :: rest)) in *.
    destruct (id d =? id keeper) eqn:E.
    + unfold state_of. unfold is_active in Hda.
      destruct (superseded_by d); discriminate.
    + subst rows. apply in_map_iff in Hk. destruct Hk as [k0 [Hk0 Hin0]].
      assert (Hkpos : 0 < id keeper).
      { rewrite <- Hk0. specialize (Hpos k0 Hin0).
        now destruct (decay_eligible now k0). }
      unfold state_of. simpl. rewrite Z.eqb_sym, E.
      replace (id keeper <? 0) with false
        by (symmetry; apply Z.ltb_ge; lia).
      discriminate.
Qed.

Lemma sweep_commits_iff_nothing_to_retire_witness :
  exists s1,
    consolidate_txn now0 duplicate_store = Ok s1
    /\ consolidate now0 duplicate_store = s1
    /\ Forall2 (fun m m' => state_of m = Active -> state_of m' <> Retired)
         (memories duplicate_store) (memories s1).
Proof.
  apply (proj2 (sweep_commits_iff_nothing_to_retire now0 duplicate_store
                  duplicate_store_wf)).
  intros m [<-|[<-|[<-|[]]]]; reflexivity.
Defined.

(** X4. After a sweep that commits, no two Active records have the same
    LOWER(TRIM(content)). *)
Theorem committed_sweep_leaves_no_duplicates (now : timestamp) (s s1 : store)
  (Hpk : NoDup (ids s)) (Hrun : consolidate_txn now s = Ok s1) :
  forall a b, In a (memories s1) -> In b (memories s1) ->
              state_of a = Active -> state_of b = Active ->
              content_key a = content_key b -> a = b.
Proof.
  intros a b Ha Hb Sa Sb Hkey.
  rewrite (consolidate_txn_rowwise now s s1 Hpk Hrun) in Ha, Hb.
  unfold with_memories, memories in Ha, Hb. fold memories in Ha, Hb.
  set (rows := apply_where (retire_eligible now)
                 (set_superseded_stamped (-1) now)
                 (memories (decay_pass now s))) in *.
  assert (Hnd : NoDup (map id rows)).
  { subst rows. rewrite apply_where_ids by reflexivity.
    change (NoDup (ids (decay_pass now s))). now rewrite decay_pass_ids. }
  apply (length_le_one_same
           (group_members (content_key a) (map (dedup_row now rows) rows))).
  - now apply dedup_leaves_no_group.
  - apply group_members_in. auto.
  - apply group_members_in. auto.
Qed.

Lemma committed_sweep_leaves_no_duplicates_witness :
  Samples.row 1 "Use uv " 0.4 3 5 None = Samples.row 1 "Use uv " 0.4 3 5 None.
Proof.
  apply (committed_sweep_leaves_no_duplicates now0 duplicate_store
           (consolidate now0 duplicate_store)).
  - unfold ids. simpl. repeat constructor; simpl; intuition discriminate.
  - reflexivity.
  - simpl. tauto.
  - simpl. tauto.
  - reflexivity.
  - reflexivity.
  - reflexivity.
Defined.

Lemma key_lt_iff (a b : memory) :
  key_lt a b = true <->
  access_count a < access_count b
  \/ (access_count a = access_count b /\ (importance a < importance b)%Q).
Proof.
  unfold key_lt. destruct (access_count a =? access_count b) eqn:E.
  - apply Z.eqb_eq in E. rewrite Qlt_bool_iff. split; [now right|].
    intros [H|[_ H]]; [lia|exact H].
  - apply Z.eqb_neq in E. rewrite Z.ltb_lt. split; [now left|].
    intros [H|[H _]]; [exact H|contradiction].
Qed.

Lemma key_lt_le_trans (a b c : memory) :
  key_lt a b = true -> key_le b c -> key_lt a c = true.
Proof.
  rewrite !key_lt_iff. unfold key_le.
  intros [H1|[H1 H1']] [H2|[H2 H2']]; try (left; lia).
  right. split; [lia|]. eapply Qlt_le_trans; eassumption.
Qed.

Lemma key_le_lt_trans (a b c : memory) :
  key_le a b -> key_lt b c = true -> key_lt a c = true.
Proof.
  rewrite !key_lt_iff. unfold key_le.
  intros [H1|[H1 H1']] [H2|[H2 H2']]; try (left; lia).
  right. split; [lia|]. eapply Qle_lt_trans; eassumption.
Qed.

Lemma key_lt_strict (a b : memory) :
  key_lt a b = true -> key_le a b /\ ~ key_le b a.
Proof.
  intros H. split; [now apply key_lt_true|].
  apply key_lt_iff in H. unfold key_le.
  intros [H2|[H2 H2']]; destruct H as [H|[H H']]; try lia.
  exact (Qlt_not_le _ _ H' H2').
Qed.

(** [max] returns the first row with the greatest key: what precedes it is
    strictly smaller, what follows is not greater. *)
Lemma max_from_split (l : list memory) (b : memory) :
  exists l1 l2,
    b :: l = l1 ++ max_from b l :: l2
    /\ (forall m, In m l1 -> key_lt m (max_from b l) = true)
    /\ (forall m, In m l2 -> key_lt (max_from b l) m = false).
Proof.
  revert b. induction l as [|x l IH]; intros b.
  - exists [], []. simpl. repeat split; intros m [].
  - simpl. destruct (key_lt b x) eqn:E.
    + destruct (IH x) as [l1 [l2 [Hs [H1 H2]]]].
      exists (b :: l1), l2. split; [simpl; now rewrite Hs|].
      split; [|exact H2].
      intros m [<-|Hm]; [|now apply H1].
      apply (key_lt_le_trans _ x); [exact E|].
      apply max_from_above_start. apply key_le_refl.
    + destruct (IH b) as [l1 [l2 [Hs [H1 H2]]]].
      destruct l1 as [|y l1].
      * simpl in Hs. injection Hs as Hb Hl.
        exists [], (x :: l). split; [simpl; now rewrite <- Hb|].
        split; [intros m []|].
        intros m [<-|Hm]; [now rewrite <- Hb|].
        apply H2. now rewrite <- Hl.
      * simpl in Hs. injection Hs as Hb Hl. subst y.
        exists (b :: x :: l1), l2. split; [simpl; do 2 f_equal; exact Hl|].
        split; [|exact H2].
        intros m [<-|[<-|Hm]].
        -- apply H1. now left.
        -- apply (key_le_lt_trans _ b); [now apply key_lt_false|].
           apply H1. now left.
        -- apply H1. now right.
Qed.

Lemma NoDup_ids_filter (P : memory -> bool) (rows : list memory) :
  NoDup (map id rows) -> NoDup (map id (filter P rows)).
Proof.
  induction rows as [|r rows IH]; simpl; intros H; [constructor|].
  inversion H as [|? ? Hnot Hnd]; subst.
  destruct (P r); simpl; [|now apply IH].
  constructor; [|now apply IH].
  rewrite in_map_iff. intros [m [Hid Hm]]. apply Hnot.
  apply filter_In in Hm. rewrite <- Hid. apply in_map. tauto.
Qed.

(** X5. Where the (access_count, importance) pairs tie, the deduplication
    pass keeps the earliest row of the group in table order: every member
    before the keeper has a strictly smaller pair, every member after it a
    pair that is not greater, and all of them end up pointing at it. *)
Theorem dedup_keeps_first_of_equal_keys (now : timestamp) (s : store)
  (Hpk : NoDup (ids s)) (k : string)
  (Hlen : (2 <= List.length (group_members k (memories s)))%nat) :
  exists l1 keeper l2 s',
    group_members k (memories s) = l1 ++ keeper :: l2
    /\ (forall m, In m l1 -> key_le m keeper /\ ~ key_le keeper m)
    /\ (forall m, In m l2 -> key_le m keeper)
    /\ dedup_pass now s = Ok s'
    /\ lookup (id keeper) s' = Some keeper
    /\ (forall m, In m (l1 ++ l2) ->
          lookup (id m) s' = Some (set_superseded_stamped (id keeper) now m)).
Proof.
  destruct (group_members k (memories s)) as [|r [|r2 rest]] eqn:Eg;
    try (simpl in Hlen; lia).
  destruct (max_from_split (r2 :: rest) r) as [l1 [l2 [Hs [H1 H2]]]].
  set (keeper := max_from r (r2 :: rest)) in *.
  assert (Hmem : forall m, In m (l1 ++ keeper :: l2) ->
                   In m (memories s) /\ is_active m = true
                   /\ group_members (content_key m) (memories s)
                      = r :: r2 :: rest).
  { intros m Hm. rewrite <- Hs, <- Eg in Hm. apply group_members_in in Hm.
    destruct Hm as [M1 [M2 M3]]. rewrite M3, Eg.
    split; [exact M1|]. split; [now apply is_active_state|reflexivity]. }
  assert (Hnd : NoDup (map id (l1 ++ keeper :: l2))).
  { rewrite <- Hs, <- Eg. unfold group_members.
    now apply NoDup_ids_filter. }
  exists l1, keeper, l2. eexists.
  split; [exact Hs|].
  split; [intros m Hm; apply key_lt_strict; now apply H1|].
  split; [intros m Hm; apply key_lt_false; now apply H2|].
  split; [now apply dedup_pass_rowwise|].
  split.
  - destruct (Hmem keeper) as [Kin [Kact Kgrp]];
      [apply in_or_app; right; now left|].
    rewrite lookup_after_dedup by assumption. f_equal.
    unfold dedup_row. rewrite Kact, Kgrp. fold keeper.
    now rewrite Z.eqb_refl.
  - intros m Hm.
    destruct (Hmem m) as [Min [Mact Mgrp]].
    { apply in_app_or in Hm. apply in_or_app.
      destruct Hm; [now left|right; now right]. }
    rewrite lookup_after_dedup by assumption. f_equal.
    unfold dedup_row. rewrite Mact, Mgrp. fold keeper.
    replace (id m =? id keeper) with false; [reflexivity|].
    symmetry. apply Z.eqb_neq. intros E.
    rewrite map_app in Hnd. simpl in Hnd. apply NoDup_remove_2 in Hnd.
    apply Hnd. rewrite <- E, <- map_app. now apply in_map.
Qed.

Lemma dedup_keeps_first_of_equal_keys_witness :
  exists s',
    dedup_pass now0 tied_store = Ok s'
    /\ lookup 1 s' = Some (Samples.row 1 "use uv" 0.5 2 5 None)
    /\ lookup 2 s'
       = Some (set_superseded_stamped 1 now0
                 (Samples.row 2 "Use UV" 0.5 2 5 None)).
Proof.
  destruct (dedup_keeps_first_of_equal_keys now0 tied_store
              ltac:(unfold ids; simpl; repeat constructor; simpl;
                    intuition discriminate)
              "use uv"%string ltac:(simpl; lia))
    as [l1 [keeper [l2 [s' [Hs [H1 [_ [Hrun [Hk Hrest]]]]]]]]].
  exists s'. split; [exact Hrun|].
  simpl in Hs.
  destruct l1 as [|a l1].
  - simpl in Hs. injection Hs as <- <-. split; [exact Hk|].
    apply (Hrest (Samples.row 2 "Use UV" 0.5 2 5 None)). simpl. now left.
  - exfalso. simpl in Hs. injection Hs as <- Hs.
    destruct l1 as [|b l1]; simpl in Hs.
    + injection Hs as <- _.
      destruct (H1 _ (or_introl eq_refl)) as [_ Hn]. apply Hn.
      right. split; [reflexivity|]. simpl. apply Qle_refl.
    + injection Hs as _ Hs. destruct l1; discriminate.
Defined.

(** * Further properties of the tools *)

Import Tools.








(** ** recall and list_memories *)

Lemma insert_by_ids {A : Type} (le : A -> A -> bool) (f : A -> Z) (x : A)
  (l : list A) :
  NoDup (map f (x :: l)) -> NoDup (map f (insert_by le x l)).
Proof.
  induction l as [|y l IH]; simpl; intros H; [exact H|].
  destruct (le x y); [exact H|]. simpl.
  inversion H as [|? ? Hx Hrest]; subst.
  inversion Hrest as [|? ? Hy Hl]; subst.
  constructor.
  - rewrite in_map_iff. intros [z [Hz Hin]]. apply insert_by_in in Hin.
    destruct Hin as [->|Hin].
    + apply Hx. left. now symmetry.
    + apply Hy. rewrite <- Hz. now apply in_map.
  - apply IH. simpl. constructor; [|exact Hl].
    intros Hin. apply Hx. now right.
Qed.

Lemma order_by_ids {A : Type} (le : A -> A -> bool) (f : A -> Z)
  (l : list A) :
  NoDup (map f l) -> NoDup (map f (order_by le l)).
Proof.
  unfold order_by. induction l as [|x l IH]; simpl; intros H; [exact H|].
  inversion H as [|? ? Hx Hl]; subst.
  apply insert_by_ids. simpl. constructor; [|now apply IH].
  rewrite in_map_iff. intros [z [Hz Hin]]. apply order_by_in in Hin.
  apply Hx. rewrite <- Hz. now apply in_map.
Qed.

Lemma firstn_in {A : Type} (n : nat) (y : A) (l : list A) :
  In y (firstn n l) -> In y l.
Proof.
  revert l. induction n as [|n IH]; intros l; simpl; [tauto|].
  destruct l as [|x l]; simpl; [tauto|]. intros [H|H]; [now left|].
  right. now apply IH.
Qed.

Lemma firstn_ids {A : Type} (f : A -> Z) (n : nat) (l : list A) :
  NoDup (map f l) -> NoDup (map f (firstn n l)).
Proof.
  revert l. induction n as [|n IH]; intros l H; simpl; [constructor|].
  destruct l as [|x l]; simpl; [constructor|].
  inversion H as [|? ? Hx Hl]; subst.
  constructor; [|now apply IH].
  rewrite in_map_iff. intros [z [Hz Hin]]. apply Hx. rewrite <- Hz.
  apply in_map. now apply (firstn_in n).
Qed.

Lemma filter_ids (p : memory -> bool) (rows : list memory) :
  NoDup (map id rows) -> NoDup (map id (filter p rows)).
Proof. apply NoDup_ids_filter. Qed.

Lemma sql_limit_ids (n : Z) (rows : list memory) :
  NoDup (map id rows) -> NoDup (map id (sql_limit n rows)).
Proof.
  unfold sql_limit. destruct (n <? 0); [trivial|apply firstn_ids].
Qed.

Lemma recall_rows_ids (fts_match : string -> memory -> bool)
  (fts_rank : string -> memory -> Q) (query : string)
  (category project : option string) (limit : Z) (incl : bool) (s : store) :
  NoDup (ids s) ->
  NoDup (map id (recall_rows fts_match fts_rank query category project limit
                   incl s)).
Proof.
  intros H. unfold recall_rows.
  apply sql_limit_ids, order_by_ids, filter_ids. exact H.
Qed.

Lemma existsb_id_none (i : Z) (rows : list memory) :
  ~ In i (map id rows) -> existsb (fun r => id r =? i) rows = false.
Proof.
  intros H. destruct (existsb _ rows) eqn:E; [|reflexivity].
  apply existsb_id_in in E. contradiction.
Qed.

(** The loop of access-count UPDATEs, for hits with distinct ids. *)
Lemma touch_each_once (ts : timestamp) (rows : list memory) (s : store) :
  NoDup (map id rows) ->
  fold_left (fun acc row => update_where (fun m => id m =? id row)
                              (touch ts) acc) rows s
  = with_memories
      (map (fun m => if existsb (fun r => id r =? id m) rows
                     then touch ts m else m) (memories s)) s.
Proof.
  revert s. induction rows as [|r rows IH]; intros s Hnd.
  - simpl. now rewrite map_id, with_memories_same.
  - inversion Hnd as [|? ? Hr Hrest]; subst.
    simpl fold_left. rewrite IH by exact Hrest.
    unfold update_where, with_memories, apply_where. simpl. f_equal.
    rewrite map_map. apply map_ext. intros m.
    rewrite (Z.eqb_sym (id r) (id m)).
    destruct (id m =? id r) eqn:E; [|reflexivity].
    simpl. apply Z.eqb_eq in E. rewrite E.
    now rewrite existsb_id_none.
Qed.

(** X8. recall counts every hit exactly once: on a store with unique ids,
    each row it returns gets access_count + 1 and last_accessed = the call's
    time, with every other column as it was; rows it does not return, tags
    and relations are untouched; and the entries it returns carry the access
    counts from before the call. *)
Theorem recall_counts_each_hit_once (fts_match : string -> memory -> bool)
  (fts_rank : string -> memory -> Q) (ts : timestamp) (query : string)
  (category project : option string) (limit : Z) (incl : bool) (s : store)
  (Hpk : NoDup (ids s)) :
  let rows := recall_rows fts_match fts_rank query category project limit
                incl s in
  let s' := fst (recall fts_match fts_rank ts query category project limit
                   incl s) in
  Forall2
    (fun m m' =>
       (In m rows ->
        access_count m' = access_count m + 1 /\ last_accessed m' = Some ts
        /\ m' = touch ts m /\ updated_at m' = updated_at m
        /\ importance m' = importance m
        /\ superseded_by m' = superseded_by m)
       /\ (~ In m rows -> m' = m))
    (memories s) (memories s')
  /\ tags s' = tags s /\ relations s' = relations s
  /\ (forall es, snd (recall fts_match fts_rank ts query category project
                        limit incl s) = Listing es ->
                 map e_access_count es = map access_count rows).
Proof.
  intros rows s'.
  assert (Hs' : s' = with_memories
                       (map (fun m => if existsb (fun r => id r =? id m) rows
                                      then touch ts m else m) (memories s)) s).
  { subst s'. unfold recall. fold rows.
    rewrite <- (touch_each_once ts rows s)
      by (now apply recall_rows_ids).
    now destruct rows. }
  rewrite Hs'. simpl. split; [|split; [reflexivity|split; [reflexivity|]]].
  - apply Forall2_map_right. intros m Hm.
    assert (Hin : existsb (fun r => id r =? id m) rows = true <-> In m rows).
    { rewrite existsb_exists. split.
      - intros [r [Hr E]]. apply Z.eqb_eq in E.
        assert (r = m); [|now subst].
        apply (same_id_same_row (memories s)); auto.
        subst rows. unfold recall_rows in Hr.
        apply sql_limit_in, order_by_in, filter_In in Hr. tauto.
      - intros H. exists m. split; [exact H|apply Z.eqb_refl]. }
    destruct (existsb (fun r => id r =? id m) rows).
    + split; [intros _; repeat split|].
      intros H. exfalso. apply H. now apply Hin.
    + split; [|reflexivity].
      intros H. apply Hin in H. discriminate.
  - intros es Hes. unfold recall in Hes. fold rows in Hes.
    destruct rows as [|r rows']; [discriminate|].
    simpl in Hes. injection Hes as <-.
    simpl. f_equal. rewrite map_map. reflexivity.
Qed.

Lemma scoped_store_pk : NoDup (ids scoped_store).
Proof.
  unfold ids. simpl. repeat constructor; simpl; intuition discriminate.
Qed.

Lemma recall_counts_each_hit_once_witness :
  let rows := recall_rows (fun _ _ => true) (fun _ _ => 0%Q) "uv" None None 2
                false scoped_store in
  let s' := fst (recall (fun _ _ => true) (fun _ _ => 0%Q) now0 "uv" None
                   None 2 false scoped_store) in
  map id rows = [1; 2]
  /\ map access_count (memories s') = [1; 1; 0]
  /\ Forall2
       (fun m m' =>
          (In m rows ->
           access_count m' = access_count m + 1 /\ last_accessed m' = Some now0
           /\ m' = touch now0 m /\ updated_at m' = updated_at m
           /\ importance m' = importance m
           /\ superseded_by m' = superseded_by m)
          /\ (~ In m rows -> m' = m))
       (memories scoped_store) (memories s').
Proof.
  split; [reflexivity|]. split; [reflexivity|].
  apply (recall_counts_each_hit_once (fun _ _ => true) (fun _ _ => 0%Q) now0
           "uv" None None 2 false scoped_store scoped_store_pk).
Defined.

Lemma sql_limit_length {A : Type} (n : Z) (l : list A) :
  0 <= n -> (List.length (sql_limit n l) <= Z.to_nat n)%nat.
Proof.
  intros H. unfold sql_limit.
  replace (n <? 0) with false by (symmetry; apply Z.ltb_ge; lia).
  apply firstn_le_length.
Qed.

Lemma category_cond_spec (c : string) (m : memory) :
  c <> EmptyString -> category_cond (Some c) m = true -> category m = c.
Proof.
  intros Hc. unfold category_cond, truthy.
  destruct c as [|a c]; [contradiction|]. apply String.eqb_eq.
Qed.

(** X9. What the two read tools return is bounded and filtered: with a
    non-negative limit there are at most [limit] rows; every row is a row of
    the store; list_memories returns only Active rows, recall too unless
    include_superseded is set; a non-empty category filter is matched
    exactly; and list_memories leaves the store as it was. *)
Theorem read_tools_respect_limit_and_filters
  (fts_match : string -> memory -> bool) (fts_rank : string -> memory -> Q)
  (query : string) (cat project : option string)
  (limit : Z) (sort : string) (s : store) (Hlimit : 0 <= limit) :
  ((List.length (list_rows cat project limit sort s)
    <= Z.to_nat limit)%nat
   /\ (forall m, In m (list_rows cat project limit sort s) ->
         In m (memories s) /\ state_of m = Active
         /\ (forall c, cat = Some c -> c <> EmptyString ->
                       category m = c))
   /\ fst (list_memories cat project limit sort s) = s)
  /\ (forall incl,
        (List.length (recall_rows fts_match fts_rank query cat project
                        limit incl s) <= Z.to_nat limit)%nat
        /\ (forall m,
              In m (recall_rows fts_match fts_rank query cat project
                      limit incl s) ->
              In m (memories s) /\ fts_match query m = true
              /\ (incl = false -> state_of m = Active)
              /\ (forall c, cat = Some c -> c <> EmptyString ->
                            category m = c))).
Proof.
  split; [split; [|split]|].
  - now apply sql_limit_length.
  - intros m Hm. unfold list_rows in Hm.
    apply sql_limit_in, order_by_in, filter_In in Hm.
    destruct Hm as [Hin Hc]. rewrite !andb_true_iff in Hc.
    destruct Hc as [[Ha Hcat] _].
    split; [exact Hin|]. split; [now apply is_active_state|].
    intros c -> Hc. now apply category_cond_spec.
  - unfold list_memories.
    now destruct (list_rows cat project limit sort s).
  - intros incl. split; [now apply sql_limit_length|].
    intros m Hm. unfold recall_rows in Hm.
    apply sql_limit_in, order_by_in, filter_In in Hm.
    destruct Hm as [Hin Hc]. rewrite !andb_true_iff in Hc.
    destruct Hc as [[[Hmatch Ha] Hcat] _].
    split; [exact Hin|]. split; [exact Hmatch|]. split.
    + intros ->. simpl in Ha. now apply is_active_state.
    + intros c -> Hc. now apply category_cond_spec.
Qed.

Lemma read_tools_respect_limit_and_filters_witness :
  (List.length (list_rows None None 1 "score" scoped_store) <= 1)%nat.
Proof.
  apply (proj1 (proj1 (read_tools_respect_limit_and_filters
                         (fun _ _ => true) (fun _ _ => 0%Q) "uv" None None 1
                         "score" scoped_store ltac:(lia)))).
Defined.

Section Ordering.

Context {A : Type} (le : A -> A -> bool).
Hypothesis le_total : forall a b, le a b = true \/ le b a = true.
Hypothesis le_trans :
  forall a b c, le a b = true -> le b c = true -> le a c = true.

Let before (a b : A) : Prop := le a b = true.

Lemma insert_by_sorted (x : A) (l : list A) :
  StronglySorted before l -> StronglySorted before (insert_by le x l).
Proof.
  induction 1 as [|y l Hl IH Hy]; simpl.
  - constructor; constructor.
  - destruct (le x y) eqn:E.
    + constructor; [constructor; assumption|].
      constructor; [exact E|].
      eapply Forall_impl; [|exact Hy]. intros z Hz.
      now apply (le_trans x y z).
    + constructor; [exact IH|].
      apply Forall_forall. intros z Hz. apply insert_by_in in Hz.
      destruct Hz as [->|Hz].
      * destruct (le_total x y) as [H|H]; [congruence|exact H].
      * rewrite Forall_forall in Hy. now apply Hy.
Qed.

Lemma order_by_sorted (l : list A) : StronglySorted before (order_by le l).
Proof.
  unfold order_by. induction l as [|x l IH]; simpl; [constructor|].
  now apply insert_by_sorted.
Qed.

Lemma firstn_sorted (n : nat) (l : list A) :
  StronglySorted before l -> StronglySorted before (firstn n l).
Proof.
  revert l. induction n as [|n IH]; intros l H; simpl; [constructor|].
  destruct H as [|y l Hl Hy]; [constructor|].
  constructor; [now apply IH|].
  apply Forall_forall. intros z Hz. apply firstn_in in Hz.
  rewrite Forall_forall in Hy. now apply Hy.
Qed.

Lemma sql_limit_sorted (n : Z) (l : list A) :
  StronglySorted before l -> StronglySorted before (sql_limit n l).
Proof.
  unfold sql_limit. destruct (n <? 0); [trivial|apply firstn_sorted].
Qed.

End Ordering.

Lemma StronglySorted_weaken {A : Type} (R R' : A -> A -> Prop)
  (l : list A) :
  (forall a b, R a b -> R' a b) -> StronglySorted R l -> StronglySorted R' l.
Proof.
  intros H. induction 1 as [|y l Hl IH Hy]; constructor; [exact IH|].
  eapply Forall_impl; [|exact Hy]. intros z. apply H.
Qed.

Lemma Qle_bool_total (a b : Q) : Qle_bool a b = true \/ Qle_bool b a = true.
Proof.
  rewrite !Qle_bool_iff. destruct (Qlt_le_dec a b) as [H|H].
  - left. now apply Qlt_le_weak.
  - now right.
Qed.

Lemma Qle_bool_trans (a b c : Q) :
  Qle_bool a b = true -> Qle_bool b c = true -> Qle_bool a c = true.
Proof.
  rewrite !Qle_bool_iff. apply Qle_trans.
Qed.

Lemma order_map_total (sort : string) (a b : memory) :
  order_map sort a b = true \/ order_map sort b a = true.
Proof.
  unfold order_map.
  destruct (String.eqb sort "recency");
    [rewrite !Z.leb_le; lia|].
  destruct (String.eqb sort "importance"); [apply Qle_bool_total|].
  destruct (String.eqb sort "accessed"); [rewrite !Z.leb_le; lia|].
  apply Qle_bool_total.
Qed.

Lemma order_map_trans (sort : string) (a b c : memory) :
  order_map sort a b = true -> order_map sort b c = true ->
  order_map sort a c = true.
Proof.
  unfold order_map.
  destruct (String.eqb sort "recency");
    [rewrite !Z.leb_le; lia|].
  destruct (String.eqb sort "importance");
    [intros H1 H2; exact (Qle_bool_trans _ _ _ H2 H1)|].
  destruct (String.eqb sort "accessed"); [rewrite !Z.leb_le; lia|].
  intros H1 H2. exact (Qle_bool_trans _ _ _ H2 H1).
Qed.

(** X10. list_memories returns its rows in the order asked for: every row
    comes before all rows with a smaller (or equal) sort value, where the
    value is created_at for 'recency', importance for 'importance',
    access_count for 'accessed', and importance * confidence * (1 + 0.1 *
    access_count) for 'score' and for any other sort string; recall returns
    its rows by non-decreasing rank. *)
Theorem read_tools_return_sorted_rows (cat project : option string)
  (limit : Z) (sort : string) (s : store) :
  StronglySorted
    (fun a b =>
       if String.eqb sort "recency" then created_at b <= created_at a
       else if String.eqb sort "importance"
            then (importance b <= importance a)%Q
       else if String.eqb sort "accessed"
            then access_count b <= access_count a
       else (score_key b <= score_key a)%Q)
    (list_rows cat project limit sort s)
  /\ (forall fts_match fts_rank query incl,
        StronglySorted
          (fun a b => (fts_rank query a <= fts_rank query b)%Q)
          (recall_rows fts_match fts_rank query cat project limit incl s)).
Proof.
  split.
  - eapply StronglySorted_weaken.
    2:{ apply sql_limit_sorted, order_by_sorted.
        - apply order_map_total.
        - apply order_map_trans. }
    intros a b. unfold order_map.
    destruct (String.eqb sort "recency"); [apply Z.leb_le|].
    destruct (String.eqb sort "importance"); [apply Qle_bool_iff|].
    destruct (String.eqb sort "accessed"); [apply Z.leb_le|].
    apply Qle_bool_iff.
  - intros fts_match fts_rank query incl.
    eapply StronglySorted_weaken.
    2:{ apply sql_limit_sorted, order_by_sorted.
        - intros a b. apply Qle_bool_total.
        - intros a b c. apply Qle_bool_trans. }
    intros a b. apply Qle_bool_iff.
Qed.

(** ** remember and relate *)







Lemma NoDup_snoc {A : Type} (l : list A) (x : A) :
  NoDup l -> ~ In x l -> NoDup (l ++ [x]).
Proof.
  induction 1 as [|y l Hy Hl IH]; simpl; intros Hx.
  - constructor; [tauto|constructor].
  - constructor.
    + rewrite in_app_iff. simpl. intuition.
    + apply IH. tauto.
Qed.

Lemma existsb_relation_in (e : Z * Z * string) (l : list (Z * Z * string)) :
  existsb (relation_eqb e) l = true <-> In e l.
Proof.
  rewrite existsb_exists. split.
  - intros [y [Hy E]]. apply relation_eqb_eq in E. now subst.
  - intros H. exists e. split; [exact H|]. now apply relation_eqb_eq.
Qed.




(** * Further properties of the score *)

Section ScoreBounds.

Local Open Scope R_scope.

Lemma time_decay_le_1 (now : timestamp) (c : option timestamp) :
  time_decay now c <= 1.
Proof.
  destruct c as [c|]; simpl; [|lra].
  unfold Rpower. rewrite <- exp_0.
  destruct (Req_dec (Rmax (hours_between now c) 0 * ln 0.998) 0) as [->|Hne];
    [apply Rle_refl|].
  apply Rlt_le, exp_increasing.
  pose proof (Rmax_r (hours_between now c) 0) as Hmax.
  pose proof ln_base_neg as Hln. nra.
Qed.

Lemma q_or_positive (v : option Q) (d : Q) :
  (0 < d)%Q -> (forall q, v = Some q -> (0 <= q)%Q) -> 0 < Q2R (q_or v d).
Proof.
  intros Hd Hv. rewrite <- RMicromega.Q2R_0. apply Qlt_Rlt.
  unfold q_or. destruct v as [q|]; [|exact Hd].
  destruct (Qeq_bool q 0) eqn:E; [exact Hd|].
  apply Qeq_bool_neq in E. specialize (Hv q eq_refl).
  apply Qle_lteq in Hv. destruct Hv as [Hv|Hv]; [exact Hv|].
  exfalso. apply E. now symmetry.
Qed.

Lemma q_or_le_1 (v : option Q) (d : Q) :
  (d <= 1)%Q -> (forall q, v = Some q -> (q <= 1)%Q) -> Q2R (q_or v d) <= 1.
Proof.
  intros Hd Hv. replace 1 with (Q2R 1) by (unfold Q2R; simpl; lra).
  apply Qle_Rle. unfold q_or. destruct v as [q|]; [|exact Hd].
  destruct (Qeq_bool q 0); [exact Hd|now apply Hv].
Qed.

End ScoreBounds.

(** X13. The time factor of the score lies between 0 and 1; it is exactly
    1 for a record whose created_at is not in the past.  For importance
    and confidence in [0, 1] (or missing) and a non-negative access count
    the score is never negative and never above the frequency boost
    1 + access_count * 0.1; a stored importance of 0 counts as 0.5 and a
    stored confidence of 0 as 0.8, exactly like a missing value. *)
Theorem score_is_bounded_by_boost (now : timestamp)
  (imp conf : option Q) (acc : Z) (c : option timestamp)
  (Himp : forall q, imp = Some q -> (0 <= q <= 1)%Q)
  (Hconf : forall q, conf = Some q -> (0 <= q <= 1)%Q)
  (Hacc : (0 <= acc)%Z) :
  (0 <= time_decay now c <= 1)%R
  /\ (forall t, (now <= t)%Z -> time_decay now (Some t) = 1%R)
  /\ (0 <= score_memory now (mkRow imp conf (Some acc) c)
      <= 1 + IZR acc * 0.1)%R
  /\ score_memory now (mkRow (Some 0%Q) conf (Some acc) c)
     = score_memory now (mkRow None conf (Some acc) c)
  /\ score_memory now (mkRow imp (Some 0%Q) (Some acc) c)
     = score_memory now (mkRow imp None (Some acc) c)
  /\ score_memory now (mkRow None None None c)
     = (0.5 * 0.8 * (1 + 0 * 0.1) * time_decay now c)%R.
Proof.
  pose proof (time_decay_pos now c) as D0.
  pose proof (time_decay_le_1 now c) as D1.
  split; [split; [now apply Rlt_le|assumption]|]. split.
  { intros t Ht. simpl. rewrite Rmax_right.
    - unfold Rpower. rewrite Rmult_0_l. apply exp_0.
    - unfold hours_between, Rdiv.
      assert (H1 : (IZR (now - t) <= 0)%R) by (apply IZR_le; lia).
      assert (H2 : (0 < / (3600 * 1000000))%R)
        by (apply Rinv_0_lt_compat; lra).
      nra. }
  split.
  { unfold score_memory. cbn [r_importance r_confidence r_access_count
                               r_created_at]. rewrite z_or_zero.
    assert (I0 : (0 < Q2R (q_or imp 0.5))%R).
    { apply q_or_positive; [reflexivity|]. intros q H. now apply Himp. }
    assert (I1 : (Q2R (q_or imp 0.5) <= 1)%R).
    { apply q_or_le_1; [discriminate|]. intros q H. now apply Himp. }
    assert (C0 : (0 < Q2R (q_or conf 0.8))%R).
    { apply q_or_positive; [reflexivity|]. intros q H. now apply Hconf. }
    assert (C1 : (Q2R (q_or conf 0.8) <= 1)%R).
    { apply q_or_le_1; [discriminate|]. intros q H. now apply Hconf. }
    assert (A0 : (0 <= IZR acc)%R) by (now apply IZR_le).
    set (i := Q2R (q_or imp 0.5)) in *.
    set (k := Q2R (q_or conf 0.8)) in *.
    set (d := time_decay now c) in *.
    set (a := IZR acc) in *.
    assert (P1 : (0 < i * k)%R) by (now apply Rmult_lt_0_compat).
    assert (P2 : (i * k <= 1)%R) by nra.
    assert (P3 : (0 < 1 + a * 0.1)%R) by lra.
    assert (P4 : (0 < i * k * (1 + a * 0.1))%R)
      by (now apply Rmult_lt_0_compat).
    assert (P5 : (i * k * (1 + a * 0.1) <= 1 + a * 0.1)%R) by nra.
    split; [apply Rlt_le; now apply Rmult_lt_0_compat|]. nra. }
  split; [reflexivity|]. split; [reflexivity|].
  unfold score_memory, q_or, z_or.
  cbn [r_importance r_confidence r_access_count r_created_at].
  unfold Q2R. simpl. field.
Qed.

Lemma score_is_bounded_by_boost_witness :
  (0 <= score_memory now0
          (mkRow (Some 0.5%Q) (Some 0.8%Q) (Some 2%Z)
             (Some (now0 - days 1)%Z))
   <= 1 + IZR 2 * 0.1)%R.
Proof.
  apply (proj1 (proj2 (proj2 (score_is_bounded_by_boost now0
           (Some 0.5%Q) (Some 0.8%Q) 2 (Some (now0 - days 1)%Z)
           ltac:(intros q [= <-]; split; unfold Qle; simpl; lia)
           ltac:(intros q [= <-]; split; unfold Qle; simpl; lia)
           ltac:(lia))))).
Defined.

(** * The deduplication key *)

Lemma lower_ascii_idem (c : ascii) : lower_ascii (lower_ascii c) = lower_ascii c.
Proof.
  destruct c as [[] [] [] [] [] [] [] []]; reflexivity.
Qed.

Lemma lower_ascii_space (c : ascii) : is_space (lower_ascii c) = is_space c.
Proof.
  destruct c as [[] [] [] [] [] [] [] []]; reflexivity.
Qed.

Lemma sql_lower_idem (s : string) : sql_lower (sql_lower s) = sql_lower s.
Proof.
  induction s as [|c s IH]; simpl; [reflexivity|].
  now rewrite lower_ascii_idem, IH.
Qed.

Lemma ltrim_lower (s : string) : ltrim (sql_lower s) = sql_lower (ltrim s).
Proof.
  induction s as [|c s IH]; simpl; [reflexivity|].
  rewrite lower_ascii_space. destruct (is_space c); [exact IH|reflexivity].
Qed.

Lemma rtrim_lower (s : string) : rtrim (sql_lower s) = sql_lower (rtrim s).
Proof.
  induction s as [|c s IH]; simpl; [reflexivity|].
  rewrite IH. destruct (rtrim s) as [|d t]; simpl.
  - rewrite lower_ascii_space. now destruct (is_space c).
  - reflexivity.
Qed.

Lemma rtrim_idem (s : string) : rtrim (rtrim s) = rtrim s.
Proof.
  induction s as [|c s IH]; simpl; [reflexivity|].
  destruct (rtrim s) as [|d t] eqn:E.
  - destruct (is_space c) eqn:Ec; simpl; [reflexivity|now rewrite Ec].
  - simpl. simpl in IH. now rewrite IH.
Qed.

Lemma ltrim_head (s : string) :
  ltrim s = EmptyString
  \/ exists c t, ltrim s = String c t /\ is_space c = false.
Proof.
  induction s as [|c s IH]; simpl; [now left|].
  destruct (is_space c) eqn:E; [exact IH|].
  right. now exists c, s.
Qed.

Lemma sql_trim_idem (s : string) : sql_trim (sql_trim s) = sql_trim s.
Proof.
  unfold sql_trim.
  destruct (ltrim_head s) as [->|[c [t [-> Hc]]]]; [reflexivity|].
  assert (H : exists u, rtrim (String c t) = String c u).
  { simpl. destruct (rtrim t); [rewrite Hc|]; eexists; reflexivity. }
  destruct H as [u Hu].
  replace (ltrim (rtrim (String c t))) with (rtrim (String c t))
    by (rewrite Hu; simpl; now rewrite Hc).
  apply rtrim_idem.
Qed.

Lemma rtrim_app_space (s : string) :
  rtrim (s ++ " ")%string = rtrim s.
Proof.
  induction s as [|c s IH]; simpl; [reflexivity|]. now rewrite IH.
Qed.

Lemma sql_trim_app_space (s : string) :
  sql_trim (s ++ " ")%string = sql_trim s.
Proof.
  unfold sql_trim. induction s as [|c s IH]; simpl; [reflexivity|].
  destruct (is_space c); [exact IH|].
  change (String c (s ++ " ")%string) with (String c s ++ " ")%string.
  apply rtrim_app_space.
Qed.

(** X14. The deduplication key LOWER(TRIM(content)) is a normal form: the
    key of a key is that key, so a record whose content already is the key
    of another joins its group; and the key does not change when a space is
    added in front of or after the content or when the content is put in
    lower case first. *)
Theorem content_key_is_normal_form (text : string) :
  sql_lower (sql_trim (sql_lower (sql_trim text)))
  = sql_lower (sql_trim text)
  /\ sql_lower (sql_trim (String " " text)) = sql_lower (sql_trim text)
  /\ sql_lower (sql_trim (text ++ " ")%string) = sql_lower (sql_trim text)
  /\ sql_lower (sql_trim (sql_lower text)) = sql_lower (sql_trim text)
  /\ (forall m m',
        content m' = sql_lower (sql_trim (content m)) ->
        content_key m' = content_key m).
Proof.
  assert (Hcomm : forall s, sql_trim (sql_lower s) = sql_lower (sql_trim s)).
  { intros s. unfold sql_trim. now rewrite ltrim_lower, rtrim_lower. }
  assert (H1 : forall s, sql_lower (sql_trim (sql_lower (sql_trim s)))
                         = sql_lower (sql_trim s)).
  { intros s. now rewrite Hcomm, sql_trim_idem, sql_lower_idem. }
  split; [apply H1|]. split; [reflexivity|].
  split; [now rewrite sql_trim_app_space|].
  split; [now rewrite Hcomm, sql_lower_idem|].
  intros m m' H. unfold content_key. rewrite H. apply H1.
Qed.

Lemma content_key_is_normal_form_witness :
  content_key (Samples.row 2 "use uv" 0.9 1 5 None)
  = content_key (Samples.row 1 "Use uv " 0.4 3 5 None).
Proof.
  apply (proj2 (proj2 (proj2 (proj2 (content_key_is_normal_form
                                       "Use uv "%string))))).
  reflexivity.
Defined.

(** * The schema constraints as an invariant *)

Lemma schema_ok_rows (s : store) (rows : list memory) :
  schema_ok s -> map id rows = ids s ->
  (forall m k, In m rows -> superseded_by m = Some k -> In k (ids s)) ->
  schema_ok (with_memories rows s).
Proof.
  intros [[Hpk Hpos Htfk] Htpk Hrpk Hrfk Hsfk] Hids Hfk.
  assert (Hids' : ids (with_memories rows s) = ids s) by exact Hids.
  constructor; [constructor|..]; try rewrite Hids'; auto.
  intros m Hm. simpl in Hm.
  assert (Hin : In (id m) (ids s)) by (rewrite <- Hids; now apply in_map).
  unfold ids in Hin. apply in_map_iff in Hin. destruct Hin as [m0 [E Hm0]].
  rewrite <- E. now apply Hpos.
Qed.

Lemma update_fk_schema (p : memory -> bool) (f : memory -> memory)
  (s s' : store) :
  (forall m, id (f m) = id m) ->
  update_fk p f s = Ok s' -> schema_ok s -> schema_ok s'.
Proof.
  intros Hid Hrun Hok. unfold update_fk in Hrun.
  destruct (forallb _ (memories s)) eqn:Hall; [|discriminate].
  injection Hrun as <-. rewrite forallb_forall in Hall.
  apply schema_ok_rows; [exact Hok|now apply apply_where_ids|].
  intros m' k Hm' Hk. unfold apply_where in Hm'. apply in_map_iff in Hm'.
  destruct Hm' as [m [E Hm]]. specialize (Hall m Hm).
  destruct (p m) eqn:Hp.
  - subst m'. rewrite Hk in Hall. simpl in Hall.
    apply existsb_id_in in Hall.
    now rewrite apply_where_ids in Hall by exact Hid.
  - subst m'. now apply (ok_superseded_fk s Hok m k).
Qed.

Lemma update_where_schema (p : memory -> bool) (f : memory -> memory)
  (s : store) :
  (forall m, id (f m) = id m) ->
  (forall m, superseded_by (f m) = superseded_by m) ->
  schema_ok s -> schema_ok (update_where p f s).
Proof.
  intros Hid Hsb Hok. unfold update_where.
  apply schema_ok_rows; [exact Hok|now apply apply_where_ids|].
  intros m' k Hm' Hk. unfold apply_where in Hm'. apply in_map_iff in Hm'.
  destruct Hm' as [m [E Hm]]. apply (ok_superseded_fk s Hok m k Hm).
  subst m'. destruct (p m); [now rewrite <- Hsb|exact Hk].
Qed.

Lemma fold_max_nonneg (l : list Z) : 0 <= fold_right Z.max 0 l.
Proof.
  induction l as [|x l IH]; simpl; lia.
Qed.

Lemma insert_memory_schema (row : memory) (s : store) :
  id row = next_rowid s -> superseded_by row = None ->
  schema_ok s -> schema_ok (insert_memory row s).
Proof.
  intros Hid Hsb [[Hpk Hpos Htfk] Htpk Hrpk Hrfk Hsfk].
  assert (Hids : ids (insert_memory row s) = ids s ++ [id row]).
  { unfold ids. simpl. now rewrite map_app. }
  constructor; [constructor|..]; try rewrite Hids; simpl; auto.
  - apply NoDup_snoc; [exact Hpk|]. rewrite Hid. apply next_rowid_fresh.
  - intros m Hm. apply in_app_or in Hm. destruct Hm as [Hm|[<-|[]]].
    + now apply Hpos.
    + rewrite Hid. unfold next_rowid.
      pose proof (fold_max_nonneg (ids s)). lia.
  - intros p Hp. apply in_or_app. left. now apply Htfk.
  - intros e He. destruct (Hrfk e He). split; apply in_or_app; now left.
  - intros m k Hm Hk. apply in_app_or in Hm. destruct Hm as [Hm|[<-|[]]].
    + apply in_or_app. left. now apply (Hsfk m k).
    + congruence.
Qed.

Lemma insert_relation_schema (e : Z * Z * string) (s s' : store) :
  insert_relation e s = Ok s' -> schema_ok s -> schema_ok s'.
Proof.
  unfold insert_relation. intros Hrun Hok.
  destruct (has_id (fst (fst e)) s && has_id (snd (fst e)) s) eqn:Hids;
    [|discriminate].
  apply andb_true_iff in Hids. destruct Hids as [H1 H2].
  apply has_id_in in H1, H2.
  destruct (existsb (relation_eqb e) (relations s)) eqn:E;
    injection Hrun as <-; [exact Hok|].
  destruct Hok as [[Hpk Hpos Htfk] Htpk Hrpk Hrfk Hsfk].
  constructor; [constructor|..]; simpl; auto.
  - apply NoDup_snoc; [exact Hrpk|].
    rewrite <- existsb_relation_in. congruence.
  - intros x Hx. apply in_app_or in Hx. destruct Hx as [Hx|[<-|[]]].
    + now apply Hrfk.
    + now split.
Qed.

Lemma existsb_tag_in (p : Z * string) (l : list (Z * string)) :
  existsb (tag_eqb p) l = true <-> In p l.
Proof.
  rewrite existsb_exists. split.
  - intros [y [Hy E]]. apply tag_eqb_eq in E. now subst.
  - intros H. exists p. split; [exact H|]. now apply tag_eqb_eq.
Qed.

Lemma insert_tag_schema (p : Z * string) (s s' : store) :
  insert_tag p s = Ok s' -> schema_ok s -> schema_ok s'.
Proof.
  unfold insert_tag. intros Hrun Hok.
  destruct (has_id (fst p) s) eqn:Hid; [|discriminate].
  apply has_id_in in Hid.
  destruct (existsb (tag_eqb p) (tags s)) eqn:E;
    injection Hrun as <-; [exact Hok|].
  destruct Hok as [[Hpk Hpos Htfk] Htpk Hrpk Hrfk Hsfk].
  constructor; [constructor|..]; simpl; auto.
  - intros x Hx. apply in_app_or in Hx. destruct Hx as [Hx|[<-|[]]].
    + now apply Htfk.
    + exact Hid.
  - apply NoDup_snoc; [exact Htpk|].
    rewrite <- existsb_tag_in. congruence.
Qed.

Lemma for_each_preserves {A : Type} (P : store -> Prop)
  (body : A -> store -> result store) (l : list A) :
  (forall x s s1, body x s = Ok s1 -> P s -> P s1) ->
  forall s s', for_each body l s = Ok s' -> P s -> P s'.
Proof.
  intros Hbody. induction l as [|x l IH]; intros s s' Hrun Hs; simpl in Hrun.
  - now injection Hrun as <-.
  - destruct (body x s) as [s1|e] eqn:E; [|discriminate].
    simpl in Hrun. apply (IH s1 s' Hrun). now apply (Hbody x s).
Qed.

Lemma remember_schema (normalize_tag : string -> string) (ts : timestamp)
  (session : option string) (text cat : string) (proj : option string)
  (imp conf : Q) (tgs : option (list string)) (ctx : option string)
  (s : store) :
  schema_ok s ->
  schema_ok (durable s (remember normalize_tag ts session text cat proj imp
                          conf tgs ctx s)).
Proof.
  intros Hok. unfold remember.
  destruct (negb (member cat VALID_CATEGORIES)); [exact Hok|].
  set (fresh := mkMemory _ _ _ _ _ _ _ _ _ _ _ _ _).
  assert (H1 : schema_ok (insert_memory fresh s))
    by (now apply insert_memory_schema).
  destruct tgs as [[|t l]|]; simpl; try exact H1.
  destruct (insert_tag (next_rowid s, normalize_tag t) (insert_memory fresh s))
    as [s1|e] eqn:E1; simpl; [|exact Hok].
  destruct (for_each _ l s1) as [s2|e] eqn:E2; simpl; [|exact Hok].
  apply (for_each_preserves schema_ok _ l) with (s := s1) (s' := s2) in E2;
    [exact E2| |].
  - intros x a b Hab Ha. exact (insert_tag_schema _ _ _ Hab Ha).
  - exact (insert_tag_schema _ _ _ E1 H1).
Qed.

Lemma correct_schema (ts : timestamp) (session : option string)
  (old_memory_id : Z) (new_content : string) (reason : option string)
  (s : store) :
  schema_ok s ->
  schema_ok (durable s (correct ts session old_memory_id new_content reason
                          s)).
Proof.
  intros Hok. unfold correct.
  destruct (lookup old_memory_id s) as [old|]; [|exact Hok].
  set (fresh := mkMemory _ _ _ _ _ _ _ _ _ _ _ _ _).
  assert (H1 : schema_ok (insert_memory fresh s))
    by (now apply insert_memory_schema).
  destruct (update_fk _ _ (insert_memory fresh s)) as [s2|e] eqn:E2;
    simpl; [|exact Hok].
  apply update_fk_schema in E2; [|reflexivity|exact H1].
  destruct (insert_relation _ s2) as [s3|e] eqn:E3; simpl; [|exact Hok].
  apply insert_relation_schema in E3; [|exact E2].
  destruct (copy_tags old_memory_id (next_rowid s) s3) as [s4|e] eqn:E4;
    simpl; [|exact Hok].
  unfold copy_tags in E4.
  apply (for_each_preserves schema_ok) in E4; [exact E4| |exact E3].
  intros x a b Hab Ha. exact (insert_tag_schema _ _ _ Hab Ha).
Qed.

Lemma forget_schema (memory_id : Z) (s : store) :
  schema_ok s -> schema_ok (durable s (forget memory_id s)).
Proof.
  intros Hok. unfold forget.
  destruct (find _ (memories s)) as [existing|]; [|exact Hok].
  destruct (update_fk _ _ s) as [s1|e] eqn:E; simpl; [|exact Hok].
  now apply update_fk_schema in E.
Qed.

Lemma relate_schema (from_id to_id : Z) (relation : string) (s : store) :
  schema_ok s -> schema_ok (durable s (relate from_id to_id relation s)).
Proof.
  intros Hok. unfold relate.
  destruct (negb (member relation valid_relations)); [exact Hok|].
  destruct (negb (has_id from_id s)); [exact Hok|].
  destruct (negb (has_id to_id s)); [exact Hok|].
  destruct (insert_relation _ s) as [s1|e] eqn:E; simpl; [|exact Hok].
  now apply insert_relation_schema in E.
Qed.

Lemma recall_schema (fts_match : string -> memory -> bool)
  (fts_rank : string -> memory -> Q) (ts : timestamp) (query : string)
  (cat proj : option string) (limit : Z) (incl : bool) (s : store) :
  schema_ok s ->
  schema_ok (fst (recall fts_match fts_rank ts query cat proj limit incl s)).
Proof.
  intros Hok. unfold recall.
  set (rows := recall_rows _ _ _ _ _ _ _ _).
  assert (H : schema_ok
                (fold_left (fun acc row =>
                              update_where (fun m => id m =? id row)
                                (touch ts) acc) rows s)).
  { clearbody rows. revert s Hok.
    induction rows as [|r rows IH]; intros s Hok; simpl; [exact Hok|].
    apply IH. now apply update_where_schema. }
  now destruct rows.
Qed.

Lemma consolidate_schema (now : timestamp) (s : store) :
  schema_ok s -> schema_ok (consolidate now s).
Proof.
  intros Hok. unfold consolidate, consolidate_txn.
  assert (Hd : schema_ok (decay_pass now s))
    by (now apply update_where_schema).
  destruct (retire_pass now (decay_pass now s)) as [sr|e] eqn:Er;
    simpl; [|exact Hok].
  apply update_fk_schema in Er; [|reflexivity|exact Hd].
  destruct (dedup_pass now sr) as [s1|e] eqn:Ed; simpl; [|exact Hok].
  unfold dedup_pass in Ed.
  apply (for_each_preserves schema_ok) in Ed; [exact Ed| |exact Er].
  intros g a b Hab Ha. unfold merge_group in Hab.
  destruct (py_max (select_in g a)) as [keeper|e]; [|discriminate].
  simpl in Hab.
  apply (for_each_preserves schema_ok) in Hab; [exact Hab| |exact Ha].
  intros row x y Hxy Hx. unfold supersede_row in Hxy.
  destruct (id row =? id keeper).
  - now injection Hxy as <-.
  - now apply update_fk_schema in Hxy.
Qed.

Lemma store_tag_schema (py_strip py_lower : string -> string) (mid : Z)
  (tag : Extract.json) (s s' : store) :
  Extract.store_tag py_strip py_lower mid tag s = Ok s' ->
  schema_ok s -> schema_ok s'.
Proof.
  unfold Extract.store_tag. intros Hrun Hok.
  destruct tag; try (now injection Hrun as <-).
  destruct (negb (Extract.is_empty (py_strip t))).
  - exact (insert_tag_schema _ _ _ Hrun Hok).
  - now injection Hrun as <-.
Qed.

(** The loop body either passes an item over or inserts one fresh Active
    row and then its tags. *)
Lemma store_item_inv (py_strip py_lower : string -> string)
  (py_len : string -> nat) (py_chars : string -> list string)
  (ts : timestamp) (session_id : string) (proj : option string)
  (it : Extract.json) (s s' : store) :
  Extract.store_item py_strip py_lower py_len py_chars ts session_id proj
    it s = Ok s' ->
  s' = s
  \/ exists fresh tgs,
       id fresh = next_rowid s /\ superseded_by fresh = None
       /\ Consolidate.for_each
            (Extract.store_tag py_strip py_lower (next_rowid s)) tgs
            (insert_memory fresh s) = Ok s'.
Proof.
  unfold Extract.store_item, Extract.item_get. intros Hrun.
  destruct it; try discriminate. cbn [bind] in Hrun.
  destruct (Extract.as_str _) as [t|e]; [|discriminate].
  cbn [bind] in Hrun.
  destruct (Extract.is_empty _ || _); [left; now injection Hrun as <-|].
  destruct (Extract.pick_category _) as [cat|e]; [|discriminate].
  cbn [bind] in Hrun.
  destruct (Extract.clamp_value _) as [imp|e]; [|discriminate].
  cbn [bind] in Hrun.
  destruct (Extract.clamp_value _) as [conf|e]; [|discriminate].
  cbn [bind] in Hrun.
  destruct (Extract.first_five _ _) as [tgs|e]; [|discriminate].
  cbn [bind] in Hrun.
  right. eexists. exists tgs. split; [|split; [|exact Hrun]]; reflexivity.
Qed.

Lemma store_item_schema (py_strip py_lower : string -> string)
  (py_len : string -> nat) (py_chars : string -> list string)
  (ts : timestamp) (session_id : string) (proj : option string)
  (it : Extract.json) (s s' : store) :
  Extract.store_item py_strip py_lower py_len py_chars ts session_id proj
    it s = Ok s' ->
  schema_ok s -> schema_ok s'.
Proof.
  intros Hrun Hok. apply store_item_inv in Hrun.
  destruct Hrun as [->|[fresh [tgs [Hid [Hsb Hrun]]]]]; [exact Hok|].
  apply (for_each_preserves schema_ok) in Hrun; [exact Hrun| |].
  - intros tag a b Hab Ha. exact (store_tag_schema _ _ _ _ _ _ Hab Ha).
  - now apply insert_memory_schema.
Qed.

Lemma extract_schema (py_strip py_lower : string -> string)
  (py_len : string -> nat) (py_chars : string -> list string)
  (ts : timestamp) (session_id : string) (proj : option string)
  (items : list Extract.json) (s : store) :
  schema_ok s ->
  schema_ok (durable s (r <- Extract.extract py_strip py_lower py_len
                               py_chars ts session_id proj items s ;;
                          Ok (r, tt))).
Proof.
  intros Hok. unfold Extract.extract.
  destruct (for_each _ (firstn 5 items) s) as [s1|e] eqn:E; simpl;
    [|exact Hok].
  apply (for_each_preserves schema_ok) in E; [exact E| |exact Hok].
  intros it a b Hab Ha.
  exact (store_item_schema _ _ _ _ _ _ _ _ _ _ Hab Ha).
Qed.

(** X15. Every state that remember, correct, forget, relate, recall, the
    extraction hook and the sweep can reach from the empty database
    satisfies all constraints of the schema: ids are unique and positive,
    no tag or relation is stored twice, tags and relations reference
    existing records, and a non-null superseded_by names an existing record.  In such a state a record is
    Retired exactly when it points at itself: the sentinel -1 of the sweep
    never appears. *)
Theorem reachable_states_satisfy_schema
  (normalize_tag py_strip py_lower : string -> string)
  (py_len : string -> nat) (py_chars : string -> list string)
  (fts_match : string -> memory -> bool) (fts_rank : string -> memory -> Q)
  (s : store)
  (Hreach : reachable normalize_tag py_strip py_lower py_len py_chars
              fts_match fts_rank s) :
  schema_ok s
  /\ (forall m, In m (memories s) ->
        (state_of m = Retired <-> superseded_by m = Some (id m))
        /\ superseded_by m <> Some (-1)).
Proof.
  assert (Hok : schema_ok s).
  { induction Hreach.
    - constructor; [constructor|..]; simpl; try constructor; tauto.
    - now apply extract_schema.
    - now apply remember_schema.
    - now apply correct_schema.
    - now apply forget_schema.
    - now apply relate_schema.
    - now apply recall_schema.
    - now apply consolidate_schema. }
  split; [exact Hok|].
  intros m Hm.
  assert (Hpos : forall k, superseded_by m = Some k -> 0 < k).
  { intros k Hk. pose proof (ok_superseded_fk s Hok m k Hm Hk) as Hin.
    unfold ids in Hin. apply in_map_iff in Hin. destruct Hin as [x [<- Hx]].
    now apply (wf_ids_pos s (ok_wf s Hok)). }
  split.
  - unfold state_of. destruct (superseded_by m) as [k|] eqn:E.
    + specialize (Hpos k eq_refl).
      replace (k <? 0) with false by (symmetry; apply Z.ltb_ge; lia).
      rewrite orb_false_r. destruct (k =? id m) eqn:Ek.
      * apply Z.eqb_eq in Ek. subst. tauto.
      * apply Z.eqb_neq in Ek. split; [discriminate|].
        intros H. injection H as H. contradiction.
    + split; discriminate.
  - intros H. specialize (Hpos (-1) H). lia.
Qed.

Lemma reachable_states_satisfy_schema_witness :
  schema_ok
    (durable empty_store
       (remember (fun t => t) now0 None "use uv" "facts" None 0.5 0.8 None
          None empty_store)).
Proof.
  apply (proj1 (reachable_states_satisfy_schema (fun t => t) (fun t => t)
                  (fun t => t) String.length (fun _ => [])
                  (fun _ _ => true) (fun _ _ => 0%Q) _
                  ltac:(apply reach_remember, reach_empty))).
Defined.

(** * The extraction hook *)

Import Extract.

Section ExtractionRuns.

Variable py_strip : string -> string.
Variable py_lower : string -> string.
Variable py_len : string -> nat.
Variable py_chars : string -> list string.








End ExtractionRuns.



(** * The rules file *)

Import Render.

Lemma split_lines_cons (s : string) :
  exists x xs, split_lines s = x :: xs.
Proof.
  destruct s as [|c s]; simpl; [now exists EmptyString, []|].
  destruct (Ascii.eqb c newline); [now eexists; eexists|].
  destruct (split_lines s); now eexists; eexists.
Qed.

Lemma join_lines_char (c : ascii) (x : string) (xs : list string) :
  join_lines (String c x :: xs) = String c (join_lines (x :: xs)).
Proof.
  destruct xs; reflexivity.
Qed.

Lemma join_split (s : string) : join_lines (split_lines s) = s.
Proof.
  induction s as [|c s IH]; [reflexivity|].
  simpl split_lines. destruct (Ascii.eqb c newline) eqn:E.
  - apply Ascii.eqb_eq in E. subst c.
    destruct (split_lines_cons s) as [x [xs Hx]]. rewrite Hx in *.
    change (join_lines (EmptyString :: x :: xs))
      with (String newline (join_lines (x :: xs))).
    now rewrite IH.
  - destruct (split_lines_cons s) as [x [xs Hx]]. rewrite Hx in *.
    rewrite join_lines_char. now rewrite IH.
Qed.

Lemma count_newlines_app (a b : string) :
  count_newlines (a ++ b) = (count_newlines a + count_newlines b)%nat.
Proof.
  induction a as [|c a IH]; simpl; [reflexivity|]. rewrite IH. lia.
Qed.

Lemma split_lines_length (s : string) :
  List.length (split_lines s) = S (count_newlines s).
Proof.
  induction s as [|c s IH]; simpl; [reflexivity|].
  destruct (Ascii.eqb c newline); simpl; [now rewrite IH|].
  destruct (split_lines s); simpl in *; lia.
Qed.

Lemma split_lines_clean (s : string) :
  Forall (fun x => count_newlines x = 0%nat) (split_lines s).
Proof.
  induction s as [|c s IH]; simpl; [repeat constructor|].
  destruct (Ascii.eqb c newline) eqn:E; [constructor; [reflexivity|exact IH]|].
  destruct (split_lines s) as [|x xs]; [repeat constructor; simpl; now rewrite E|].
  inversion IH; subst. constructor; [|assumption].
  simpl. now rewrite E.
Qed.

Lemma join_lines_count (l : list string) :
  Forall (fun x => count_newlines x = 0%nat) l ->
  count_newlines (join_lines l) = pred (List.length l).
Proof.
  induction 1 as [|x l Hx Hl IH]; [reflexivity|].
  destruct l as [|y l]; [simpl; exact Hx|].
  change (join_lines (x :: y :: l)) with (x ++ nl ++ join_lines (y :: l))%string.
  rewrite !count_newlines_app, Hx, IH. simpl. lia.
Qed.

Lemma string_app_assoc (a b c : string) :
  ((a ++ b) ++ c = a ++ (b ++ c))%string.
Proof.
  induction a as [|x a IH]; simpl; [reflexivity|]. now rewrite IH.
Qed.

Lemma join_lines_app (l1 l2 : list string) :
  l1 <> [] -> l2 <> [] ->
  join_lines (l1 ++ l2) = (join_lines l1 ++ nl ++ join_lines l2)%string.
Proof.
  intros H1 H2. induction l1 as [|x l1 IH]; [contradiction|].
  destruct l1 as [|y l1].
  - simpl. destruct l2; [contradiction|reflexivity].
  - change ((x :: y :: l1) ++ l2) with (x :: (y :: l1) ++ l2).
    change (join_lines (x :: (y :: l1) ++ l2))
      with (x ++ nl ++ join_lines ((y :: l1) ++ l2))%string.
    rewrite IH by discriminate.
    change (join_lines (x :: y :: l1))
      with (x ++ nl ++ join_lines (y :: l1))%string.
    now rewrite !string_app_assoc.
Qed.

Lemma Forall_firstn {A : Type} (P : A -> Prop) (n : nat) (l : list A) :
  Forall P l -> Forall P (firstn n l).
Proof.
  intros H. apply Forall_forall. intros x Hx. apply firstn_in in Hx.
  rewrite Forall_forall in H. now apply H.
Qed.

(** X17. Splitting a text at its newlines and joining the pieces with
    newlines gives the text back.  What surface writes for a text has at
    most MAX_LINES = 120 newline characters; a text with fewer than 120
    newlines is written whole, followed by one newline; a longer one is cut
    after its first 120 lines, so what is written is then a prefix of the
    text. *)
Theorem rules_file_is_capped (text : string) :
  join_lines (split_lines text) = text
  /\ (count_newlines (cap_lines text) <= MAX_LINES)%nat
  /\ ((count_newlines text < MAX_LINES)%nat ->
      cap_lines text = (text ++ nl)%string)
  /\ ((MAX_LINES <= count_newlines text)%nat ->
      count_newlines (cap_lines text) = MAX_LINES
      /\ exists rest, text = (cap_lines text ++ rest)%string).
Proof.
  split; [apply join_split|].
  pose proof (split_lines_length text) as Hlen.
  pose proof (split_lines_clean text) as Hclean.
  assert (Hcount : count_newlines (cap_lines text)
                   = List.length (firstn MAX_LINES (split_lines text))).
  { unfold cap_lines. rewrite count_newlines_app, join_lines_count
      by (now apply Forall_firstn).
    rewrite length_firstn, Hlen. unfold MAX_LINES.
    change (count_newlines nl) with 1%nat. lia. }
  split; [rewrite Hcount; apply firstn_le_length|].
  split.
  - intros H. unfold cap_lines. rewrite firstn_all2 by lia.
    now rewrite join_split.
  - intros H. split; [rewrite Hcount, length_firstn, Hlen; lia|].
    exists (join_lines (skipn MAX_LINES (split_lines text))).
    unfold cap_lines. rewrite string_app_assoc.
    rewrite <- join_lines_app.
    + now rewrite firstn_skipn, join_split.
    + intros E. apply (f_equal (@List.length string)) in E.
      rewrite length_firstn, Hlen in E. unfold MAX_LINES in *.
      change (@List.length string []) with 0%nat in E. lia.
    + intros E. apply (f_equal (@List.length string)) in E.
      rewrite length_skipn, Hlen in E.
      change (@List.length string []) with 0%nat in E. lia.
Qed.

Lemma rules_file_is_capped_witness :
  cap_lines ("## Key Facts" ++ nl ++ "- use uv")%string
  = (("## Key Facts" ++ nl ++ "- use uv") ++ nl)%string.
Proof.
  apply (proj1 (proj2 (proj2 (rules_file_is_capped
                                ("## Key Facts" ++ nl ++ "- use uv")%string)))).
  unfold MAX_LINES. simpl. lia.
Defined.

Lemma join_all_count_app (l1 l2 : list string) :
  count_newlines (join_all (l1 ++ l2))
  = (count_newlines (join_all l1) + count_newlines (join_all l2))%nat.
Proof.
  unfold join_all. induction l1 as [|x l1 IH]; simpl; [reflexivity|].
  rewrite !count_newlines_app, IH. lia.
Qed.

Lemma join_all_count_map {A : Type} (f : A -> string) (l : list A) :
  (forall x, In x l -> count_newlines (f x) = 1%nat) ->
  count_newlines (join_all (map f l)) = List.length l.
Proof.
  unfold join_all. induction l as [|x l IH]; intros H; simpl; [reflexivity|].
  rewrite count_newlines_app, (H x (or_introl eq_refl)), IH; [reflexivity|].
  intros y Hy. apply H. now right.
Qed.

Lemma slice_to_length {A : Type} (n : Z) (l : list A) :
  (0 <= n)%Z -> (List.length (slice_to n l) <= Z.to_nat n)%nat.
Proof.
  intros H. unfold slice_to.
  replace (n <? 0)%Z with false by (symmetry; apply Z.ltb_ge; lia).
  apply firstn_le_length.
Qed.

Lemma slice_to_in {A : Type} (n : Z) (l : list A) (x : A) :
  In x (slice_to n l) -> In x l.
Proof.
  unfold slice_to. destruct (n <? 0)%Z; apply firstn_in.
Qed.

Lemma uint_has_no_newline (d : Decimal.uint) :
  count_newlines (NilEmpty.string_of_uint d) = 0%nat.
Proof.
  induction d; simpl; auto.
Qed.

Lemma show_int_has_no_newline (n : Z) : count_newlines (show_int n) = 0%nat.
Proof.
  unfold show_int, NilZero.string_of_int, NilZero.string_of_uint.
  destruct (Z.to_int n) as [d|d]; destruct d; simpl;
    try reflexivity; apply uint_has_no_newline.
Qed.

Lemma build_section_count (title : string) (items : list memory) (n : Z) :
  count_newlines title = 0%nat -> (0 <= n)%Z ->
  (forall m, In m items -> count_newlines (content m) = 0%nat) ->
  (count_newlines (join_all (build_section title items n))
   <= 2 + Z.to_nat n)%nat.
Proof.
  intros Ht Hn Hc. unfold build_section.
  destruct items as [|m items]; [simpl; lia|].
  set (l := m :: items) in *.
  rewrite !join_all_count_app, join_all_count_map.
  - pose proof (slice_to_length n l Hn).
    unfold join_all. simpl.
    rewrite !count_newlines_app, Ht. simpl. lia.
  - intros x Hx. apply slice_to_in in Hx.
    rewrite !count_newlines_app, (Hc x Hx). reflexivity.
Qed.

Lemma project_section_count (proj : option string) (scored : list memory) :
  (forall p, proj = Some p -> count_newlines p = 0%nat) ->
  (forall m, In m scored ->
     count_newlines (content m) = 0%nat
     /\ count_newlines (category m) = 0%nat) ->
  (count_newlines (join_all (project_section proj scored)) <= 10)%nat.
Proof.
  intros Hp Hc. unfold project_section.
  destruct (truthy proj) as [p|] eqn:E; [|simpl; lia].
  assert (Hp0 : count_newlines p = 0%nat).
  { apply Hp. unfold truthy in E. destruct proj as [[|c q]|]; congruence. }
  set (items := filter _ scored).
  assert (Hitems : forall m, In m items -> In m scored)
    by (intros m Hm; apply filter_In in Hm; tauto).
  destruct items as [|m items]; [simpl; lia|].
  set (l := m :: items) in *.
  rewrite !join_all_count_app, join_all_count_map.
  - pose proof (slice_to_length 8 l ltac:(lia)) as Hs.
    change (Z.to_nat 8) with 8%nat in Hs.
    set (sl := slice_to 8 l) in *. clearbody sl.
    unfold join_all. simpl.
    rewrite !count_newlines_app, Hp0. simpl. lia.
  - intros x Hx. apply slice_to_in in Hx.
    destruct (Hc x (Hitems x Hx)) as [H1 H2].
    rewrite !count_newlines_app, H1, H2. reflexivity.
Qed.

Lemma cap_lines_whole (text : string) :
  (count_newlines text < MAX_LINES)%nat -> cap_lines text = (text ++ nl)%string.
Proof.
  intros H. unfold cap_lines.
  rewrite firstn_all2 by (rewrite split_lines_length; lia).
  now rewrite join_split.
Qed.

Lemma join_all_app (l1 l2 : list string) :
  join_all (l1 ++ l2) = (join_all l1 ++ join_all l2)%string.
Proof.
  unfold join_all. induction l1 as [|x l1 IH]; simpl; [reflexivity|].
  now rewrite IH, string_app_assoc.
Qed.

Lemma footer_count (total : Z) :
  count_newlines (join_all [footer total]) = 2%nat.
Proof.
  unfold join_all, footer. cbn [fold_right].
  rewrite !count_newlines_app, show_int_has_no_newline. reflexivity.
Qed.

Lemma in_category_clean (c : string) (scored : list memory) :
  (forall m, In m scored ->
     count_newlines (content m) = 0%nat
     /\ count_newlines (category m) = 0%nat) ->
  forall m, In m (in_category c scored) -> count_newlines (content m) = 0%nat.
Proof.
  intros H m Hm. unfold in_category in Hm. apply filter_In in Hm.
  now apply H.
Qed.

Lemma join_all_one (x : string) : join_all [x] = x.
Proof.
  unfold join_all. cbn [fold_right].
  induction x as [|c x IH]; simpl; [reflexivity|]. now rewrite IH.
Qed.

(** X18. surface writes nothing when no record is Active.  Otherwise, when
    no content, category or project name holds a newline, the text it
    builds has at most 62 lines, so the 120-line cap never cuts it: the
    file is that text followed by one newline, beginning with the header
    and ending with the footer that reports the number of Active records. *)
Theorem surface_is_whole_without_embedded_newlines (proj : option string)
  (scored : list memory)
  (Hrows : scored <> [])
  (Hclean : forall m, In m scored ->
              count_newlines (content m) = 0%nat
              /\ count_newlines (category m) = 0%nat)
  (Hproj : forall p, proj = Some p -> count_newlines p = 0%nat) :
  let text := join_all (surface_lines proj scored
                          (Z.of_nat (List.length scored))) in
  (count_newlines text <= 62)%nat
  /\ surface proj scored = Some (text ++ nl)%string
  /\ (exists body,
        text = (HEADER ++ body
                ++ footer (Z.of_nat (List.length scored)))%string)
  /\ surface proj [] = None.
Proof.
  intros text.
  assert (Hcount : (count_newlines text <= 62)%nat).
  { subst text. unfold surface_lines.
    rewrite !join_all_count_app, footer_count.
    pose proof (build_section_count "Preferences"
                  (in_category "preferences" scored) 8 eq_refl ltac:(lia)
                  (in_category_clean _ _ Hclean)) as H1.
    pose proof (build_section_count "Corrections (Do Not Repeat)"
                  (in_category "corrections" scored) 5 eq_refl ltac:(lia)
                  (in_category_clean _ _ Hclean)) as H2.
    pose proof (build_section_count "Key Facts"
                  (in_category "facts" scored) 6 eq_refl ltac:(lia)
                  (in_category_clean _ _ Hclean)) as H3.
    pose proof (project_section_count proj scored Hproj Hclean) as H4.
    pose proof (build_section_count "Past Decisions"
                  (in_category "decisions" scored) 5 eq_refl ltac:(lia)
                  (in_category_clean _ _ Hclean)) as H5.
    pose proof (build_section_count "Known Procedures"
                  (in_category "procedures" scored) 5 eq_refl ltac:(lia)
                  (in_category_clean _ _ Hclean)) as H6.
    pose proof (build_section_count "Relationships"
                  (in_category "relationships" scored) 4 eq_refl ltac:(lia)
                  (in_category_clean _ _ Hclean)) as H7.
    change (count_newlines (join_all [HEADER])) with 5%nat.
    change (Z.to_nat 8) with 8%nat in *. change (Z.to_nat 5) with 5%nat in *.
    change (Z.to_nat 6) with 6%nat in *. change (Z.to_nat 4) with 4%nat in *.
    lia. }
  split; [exact Hcount|]. split.
  - unfold surface. destruct scored as [|m rest]; [contradiction|].
    fold text. rewrite cap_lines_whole; [reflexivity|].
    unfold MAX_LINES. lia.
  - split; [|reflexivity].
    subst text. unfold surface_lines.
    set (total := Z.of_nat (List.length scored)).
    set (mid := build_section _ _ _ ++ _).
    assert (Hmid : exists l, mid = l ++ [footer total]).
    { subst mid. eexists. rewrite !app_assoc. reflexivity. }
    destruct Hmid as [l ->]. exists (join_all l).
    now rewrite !join_all_app, !join_all_one.
Qed.

Lemma surface_is_whole_without_embedded_newlines_witness :
  surface (Some "alpha"%string) [Samples.row 1 "use uv" 0.5 0 1 None]
  = Some (join_all
            (surface_lines (Some "alpha"%string)
               [Samples.row 1 "use uv" 0.5 0 1 None] 1) ++ nl)%string.
Proof.
  refine (proj1 (proj2 (surface_is_whole_without_embedded_newlines
                          (Some "alpha"%string)
                          [Samples.row 1 "use uv" 0.5 0 1 None] _ _ _))).
  - discriminate.
  - intros m [<-|[]]. split; reflexivity.
  - intros p Hp. injection Hp as <-. reflexivity.
Defined.

(** * The statistics tool *)

Import Stats.

Local Open Scope Z_scope.

Lemma count_where_cons (f : memory -> bool) (m : memory)
  (rows : list memory) :
  count_where f (m :: rows)
  = (if f m then 1 else 0) + count_where f rows.
Proof.
  unfold count_where. simpl. destruct (f m); simpl List.length; lia.
Qed.

Lemma count_where_nonneg (f : memory -> bool) (rows : list memory) :
  0 <= count_where f rows.
Proof.
  unfold count_where. lia.
Qed.

Lemma count_where_pos (f : memory -> bool) (rows : list memory) :
  0 < count_where f rows <-> exists m, In m rows /\ f m = true.
Proof.
  induction rows as [|x rows IH].
  - unfold count_where. simpl. split; [lia|]. now intros [m [[] _]].
  - rewrite count_where_cons. pose proof (count_where_nonneg f rows) as Hn.
    split.
    + destruct (f x) eqn:E.
      * intros _. exists x. split; [now left|exact E].
      * intros H. destruct (proj1 IH ltac:(lia)) as [m [Hm Hf]].
        exists m. split; [now right|exact Hf].
    + intros [m [[->|Hm] Hf]].
      * rewrite Hf. lia.
      * assert (0 < count_where f rows) by (apply IH; now exists m).
        destruct (f x); lia.
Qed.

Lemma count_split (f : memory -> bool) (rows : list memory) :
  count_where f rows + count_where (fun m => negb (f m)) rows
  = Z.of_nat (List.length rows).
Proof.
  induction rows as [|x rows IH]; [reflexivity|].
  rewrite !count_where_cons. simpl List.length.
  destruct (f x); simpl negb; lia.
Qed.

Lemma sum_add {K : Type} (f g : K -> Z) (keys : list K) :
  fold_right Z.add 0 (map (fun k => f k + g k) keys)
  = fold_right Z.add 0 (map f keys) + fold_right Z.add 0 (map g keys).
Proof.
  induction keys as [|k keys IH]; simpl; lia.
Qed.

Section Groups.

Context {K : Type} (eqb : K -> K -> bool).
Hypothesis eqb_spec : forall a b, eqb a b = true <-> a = b.
Variable key : memory -> K.

Lemma indicator_absent (x : K) (keys : list K) :
  ~ In x keys ->
  fold_right Z.add 0 (map (fun k => if eqb x k then 1 else 0) keys) = 0.
Proof.
  induction keys as [|k keys IH]; simpl; [reflexivity|].
  intros H. destruct (eqb x k) eqn:E.
  - apply eqb_spec in E. subst. tauto.
  - rewrite IH; tauto.
Qed.

Lemma indicator_present (x : K) (keys : list K) :
  NoDup keys -> In x keys ->
  fold_right Z.add 0 (map (fun k => if eqb x k then 1 else 0) keys) = 1.
Proof.
  induction 1 as [|k keys Hk Hnd IH]; simpl; [tauto|].
  intros [->|Hin].
  - rewrite (proj2 (eqb_spec x x) eq_refl).
    now rewrite indicator_absent.
  - destruct (eqb x k) eqn:E.
    + apply eqb_spec in E. subst. tauto.
    + now rewrite IH.
Qed.

(** The groups of a GROUP BY partition the rows. *)
Lemma groups_partition (keys : list K) (rows : list memory) :
  NoDup keys -> (forall m, In m rows -> In (key m) keys) ->
  fold_right Z.add 0
    (map (fun k => count_where (fun m => eqb (key m) k) rows) keys)
  = Z.of_nat (List.length rows).
Proof.
  intros Hnd. induction rows as [|x rows IH]; intros Hin.
  - clear. induction keys as [|k keys IH]; simpl; [reflexivity|].
    now rewrite IH.
  - rewrite (map_ext _ (fun k => (if eqb (key x) k then 1 else 0)
                                 + count_where (fun m => eqb (key m) k) rows))
      by (intros k; apply count_where_cons).
    rewrite sum_add, IH by (intros m Hm; apply Hin; now right).
    rewrite indicator_present; [simpl List.length; lia|exact Hnd|].
    apply Hin. now left.
Qed.

Lemma group_count_pos (k : K) (rows : list memory) :
  0 < count_where (fun m => eqb (key m) k) rows <-> In k (map key rows).
Proof.
  rewrite count_where_pos, in_map_iff. split.
  - intros [m [Hm E]]. apply eqb_spec in E. now exists m.
  - intros [m [E Hm]]. exists m. split; [exact Hm|now apply eqb_spec].
Qed.

End Groups.

Lemma same_project_spec (a b : option string) :
  same_project a b = true <-> a = b.
Proof.
  destruct a as [x|], b as [y|]; simpl; try (split; congruence).
  rewrite String.eqb_eq. split; congruence.
Qed.

(** *** Dicts *)

Lemma dict_set_fresh (k : string) (v : Z) (d : list (string * Z)) :
  ~ In k (map fst d) -> dict_set k v d = d ++ [(k, v)].
Proof.
  induction d as [|[k' v'] d IH]; simpl; [reflexivity|].
  intros H. destruct (String.eqb k' k) eqn:E.
  - apply String.eqb_eq in E. tauto.
  - rewrite IH; tauto.
Qed.

Lemma dict_fold_nodup (pairs d : list (string * Z)) :
  NoDup (map fst (d ++ pairs)) ->
  fold_left (fun d p => dict_set (fst p) (snd p) d) pairs d = d ++ pairs.
Proof.
  revert d. induction pairs as [|[k v] pairs IH]; intros d H; simpl.
  - now rewrite app_nil_r.
  - rewrite dict_set_fresh.
    + rewrite IH; rewrite <- app_assoc; [reflexivity|exact H].
    + rewrite map_app in H. simpl in H.
      apply NoDup_remove_2 in H. rewrite in_app_iff in H. tauto.
Qed.

Lemma dict_of_nodup (pairs : list (string * Z)) :
  NoDup (map fst pairs) -> dict_of pairs = pairs.
Proof.
  intros H. unfold dict_of. now rewrite dict_fold_nodup.
Qed.

Lemma dict_get_set (k k' : string) (v : Z) (d : list (string * Z)) :
  dict_get k (dict_set k' v d)
  = if String.eqb k' k then Some v else dict_get k d.
Proof.
  induction d as [|[k0 v0] d IH]; simpl; [reflexivity|].
  destruct (String.eqb k0 k') eqn:E; simpl.
  - apply String.eqb_eq in E. subst k0.
    now destruct (String.eqb k' k).
  - rewrite IH. destruct (String.eqb k0 k) eqn:E0; [|reflexivity].
    apply String.eqb_eq in E0. subst k0. now rewrite String.eqb_sym, E.
Qed.

Lemma dict_get_fold (k : string) (pairs d : list (string * Z)) (v : Z) :
  dict_get k (fold_left (fun d p => dict_set (fst p) (snd p) d) pairs d)
  = Some v ->
  In (k, v) pairs \/ dict_get k d = Some v.
Proof.
  revert d. induction pairs as [|[k' v'] pairs IH]; intros d H; simpl in *.
  - now right.
  - apply IH in H. destruct H as [H|H]; [left; now right|].
    rewrite dict_get_set in H. destruct (String.eqb k' k) eqn:E.
    + apply String.eqb_eq in E. left. left. congruence.
    + now right.
Qed.

Lemma dict_get_fold_none (k : string) (pairs d : list (string * Z)) :
  dict_get k (fold_left (fun d p => dict_set (fst p) (snd p) d) pairs d)
  = None <->
  ~ In k (map fst pairs) /\ dict_get k d = None.
Proof.
  revert d. induction pairs as [|[k' v'] pairs IH]; intros d; simpl.
  - tauto.
  - rewrite IH, dict_get_set. destruct (String.eqb k' k) eqn:E.
    + apply String.eqb_eq in E. split; [intros [_ H]; discriminate|].
      intros [H _]. tauto.
    + apply String.eqb_neq in E. tauto.
Qed.

Lemma dict_get_keys (f : string -> Z) (c : string) (keys : list string) :
  dict_get c (map (fun k => (k, f k)) keys)
  = if in_dec string_dec c keys then Some (f c) else None.
Proof.
  induction keys as [|k keys IH]; simpl; [reflexivity|].
  destruct (String.eqb k c) eqn:E.
  - apply String.eqb_eq in E. subst k.
    destruct (string_dec c c); [reflexivity|congruence].
  - apply String.eqb_neq in E. rewrite IH.
    destruct (string_dec k c); [congruence|].
    now destruct (in_dec string_dec c keys).
Qed.

Lemma active_rows_count (s : store) :
  count_where (fun _ => true) (active_rows s)
  = Z.of_nat (List.length (active_rows s)).
Proof.
  unfold count_where. f_equal. f_equal.
  induction (active_rows s) as [|x l IH]; simpl; congruence.
Qed.

Lemma active_rows_split (s : store) :
  Z.of_nat (List.length (active_rows s))
  + count_where (fun m => negb (is_active m)) (memories s)
  = Z.of_nat (List.length (memories s)).
Proof.
  exact (count_split is_active (memories s)).
Qed.

(** X19. memory_stats counts every record once: total_active and
    total_superseded add up to the number of rows; by_category has one
    entry for each category of an Active record, holding the number of
    Active records of that category, and no entry for a category without
    Active records; the entries add up to total_active.  This holds for
    whatever order the GROUP BY query returns its groups in. *)
Theorem stats_count_every_record_once (cats : list string)
  (projs : list (option string)) (s : store)
  (Hcats : groups_of category cats s) :
  let st := memory_stats cats projs s in
  let n_of c := count_where (fun m => String.eqb (category m) c)
                  (active_rows s) in
  total_active st + total_superseded st
  = Z.of_nat (List.length (memories s))
  /\ sum_values (by_category st) = total_active st
  /\ NoDup (map fst (by_category st))
  /\ (forall c, dict_get c (by_category st)
                = if 0 <? n_of c then Some (n_of c) else None).
Proof.
  intros st n_of. destruct Hcats as [Hnd Hin].
  assert (Hkeys : map fst (map (fun c => (c, n_of c)) cats) = cats).
  { rewrite map_map. simpl. apply map_id. }
  assert (Hdict : by_category st = map (fun c => (c, n_of c)) cats).
  { subst st. unfold memory_stats. cbn [by_category].
    apply dict_of_nodup. fold n_of. now rewrite Hkeys. }
  split; [|split; [|split]].
  - subst st. unfold memory_stats. cbn [total_active total_superseded].
    rewrite active_rows_count. apply active_rows_split.
  - rewrite Hdict. unfold sum_values. rewrite map_map.
    cbn [snd]. subst st. unfold memory_stats. cbn [total_active].
    rewrite active_rows_count. subst n_of.
    apply (groups_partition String.eqb String.eqb_eq category cats
             (active_rows s) Hnd).
    intros m Hm. apply Hin. now apply in_map.
  - now rewrite Hdict, Hkeys.
  - intros c. rewrite Hdict, dict_get_keys.
    pose proof (group_count_pos String.eqb String.eqb_eq category c
                  (active_rows s)) as Hpos.
    fold (n_of c) in Hpos. rewrite <- Hin in Hpos.
    destruct (in_dec string_dec c cats) as [H|H].
    + apply Hpos in H. apply Z.ltb_lt in H. now rewrite H.
    + destruct (0 <? n_of c) eqn:E; [|reflexivity].
      apply Z.ltb_lt in E. tauto.
Qed.

Lemma stats_count_every_record_once_witness :
  sum_values
    (by_category
       (memory_stats ["facts"%string] [Some "alpha"%string] scoped_store))
  = total_active
      (memory_stats ["facts"%string] [Some "alpha"%string] scoped_store).
Proof.
  refine (proj1 (proj2 (stats_count_every_record_once ["facts"%string]
                          [Some "alpha"%string] scoped_store _))).
  split.
  - constructor; [simpl; tauto|constructor].
  - intros k. simpl. tauto.
Defined.

Lemma or_global_cases (p : option string) (k : string) :
  or_global p = k ->
  (k = "global"%string
   /\ (p = None \/ p = Some EmptyString \/ p = Some "global"%string))
  \/ (k <> "global"%string /\ k <> EmptyString /\ p = Some k).
Proof.
  unfold or_global, truthy. destruct p as [[|a q]|].
  - intros <-. left. tauto.
  - intros <-.
    destruct (string_dec (String a q) "global") as [E|E].
    + left. rewrite E. tauto.
    + right. split; [exact E|]. split; [discriminate|reflexivity].
  - intros <-. left. tauto.
Qed.

(** X20. by_project of memory_stats, for whatever order the GROUP BY query
    returns its groups in.  A project name other than "global" has an entry
    exactly when it is non-empty and names the project of an Active record,
    and the entry is the number of Active records of that project.  The
    entry "global" stands for three groups at once: the records without a
    project, those whose project is the empty string and those whose
    project is named "global"; it is present exactly when one of the three
    is non-empty, and it holds the count of one of them, not their sum, so
    when records without a project and records of a project "global" are
    both present it reports fewer records than there are. *)
Theorem stats_by_project_merges_global (cats : list string)
  (projs : list (option string)) (s : store)
  (Hprojs : groups_of project projs s) :
  let st := memory_stats cats projs s in
  let n_of p := count_where (fun m => same_project (project m) p)
                  (active_rows s) in
  (forall k, k <> "global"%string ->
     dict_get k (by_project st)
     = if negb (String.eqb k EmptyString) && (0 <? n_of (Some k))
       then Some (n_of (Some k)) else None)
  /\ (forall n, dict_get "global"%string (by_project st) = Some n ->
        0 < n
        /\ (n = n_of None \/ n = n_of (Some EmptyString)
            \/ n = n_of (Some "global"%string)))
  /\ (dict_get "global"%string (by_project st) = None <->
        n_of None = 0 /\ n_of (Some EmptyString) = 0
        /\ n_of (Some "global"%string) = 0)
  /\ (0 < n_of None -> 0 < n_of (Some "global"%string) ->
      forall n, dict_get "global"%string (by_project st) = Some n ->
        n < n_of None + n_of (Some EmptyString)
            + n_of (Some "global"%string)).
Proof.
  intros st n_of. destruct Hprojs as [Hnd Hin].
  assert (Hpos : forall p, 0 < n_of p <-> In p projs).
  { intros p. rewrite Hin.
    apply (group_count_pos same_project same_project_spec project). }
  assert (Hzero : forall p, n_of p = 0 <-> ~ In p projs).
  { intros p. rewrite <- Hpos.
    pose proof (count_where_nonneg
                  (fun m => same_project (project m) p) (active_rows s)).
    fold (n_of p) in H. lia. }
  set (pairs := map (fun p => (or_global p, n_of p)) projs).
  assert (Hdict : by_project st = dict_of pairs) by reflexivity.
  assert (Hpair : forall k v, In (k, v) pairs ->
            exists p, In p projs /\ or_global p = k /\ v = n_of p).
  { intros k v H. apply in_map_iff in H. destruct H as [p [E Hp]].
    exists p. split; [exact Hp|]. split; congruence. }
  assert (Hkey : forall k, In k (map fst pairs) <->
                           exists p, In p projs /\ or_global p = k).
  { intros k. unfold pairs. rewrite map_map. cbn [fst].
    rewrite in_map_iff. split; intros [p [H1 H2]]; exists p; tauto. }
  assert (Hglobal : forall n,
            dict_get "global"%string (by_project st) = Some n ->
            0 < n
            /\ (n = n_of None \/ n = n_of (Some EmptyString)
                \/ n = n_of (Some "global"%string))).
  { intros n H. rewrite Hdict in H. unfold dict_of in H.
    apply dict_get_fold in H. destruct H as [H|H]; [|discriminate].
    destruct (Hpair _ _ H) as [p [Hp [Hk ->]]].
    split; [now apply Hpos|].
    destruct (or_global_cases p _ Hk) as [[_ Hc]|[Hc _]]; [|congruence].
    destruct Hc as [->|[->| ->]]; tauto. }
  split; [|split; [exact Hglobal|split]].
  - intros k Hk. rewrite Hdict. unfold dict_of.
    destruct (dict_get k (fold_left _ pairs [])) as [v|] eqn:E.
    + apply dict_get_fold in E. destruct E as [E|E]; [|discriminate].
      destruct (Hpair _ _ E) as [p [Hp [Hg ->]]].
      destruct (or_global_cases p k Hg) as [[Hc _]|[_ [Hne ->]]];
        [contradiction|].
      apply Hpos in Hp. apply Z.ltb_lt in Hp. rewrite Hp.
      apply String.eqb_neq in Hne. now rewrite Hne.
    + apply dict_get_fold_none in E. destruct E as [E _].
      rewrite Hkey in E.
      destruct (String.eqb k EmptyString) eqn:Ek; [reflexivity|].
      destruct (0 <? n_of (Some k)) eqn:En; [|reflexivity].
      exfalso. apply E. exists (Some k).
      apply Z.ltb_lt, Hpos in En. split; [exact En|].
      apply String.eqb_neq in Ek. unfold or_global, truthy.
      destruct k; [contradiction|reflexivity].
  - rewrite Hdict. unfold dict_of. rewrite dict_get_fold_none, Hkey.
    rewrite !Hzero. split.
    + intros [H _]. repeat split; intros Hp; apply H; eexists;
        (split; [exact Hp|reflexivity]).
    + intros [H1 [H2 H3]]. split; [|reflexivity].
      intros [p [Hp Hg]].
      destruct (or_global_cases p _ Hg) as [[_ Hc]|[Hc _]]; [|congruence].
      destruct Hc as [->|[->| ->]]; tauto.
  - intros H1 H2 n Hn. destruct (Hglobal n Hn) as [_ Hc].
    pose proof (count_where_nonneg
                  (fun m => same_project (project m) (Some EmptyString))
                  (active_rows s)) as H3.
    fold (n_of (Some EmptyString)) in H3.
    destruct Hc as [->|[->| ->]]; lia.
Qed.

Lemma stats_by_project_merges_global_witness :
  exists n,
    dict_get "global"%string
      (by_project
         (memory_stats ["facts"%string] [None; Some "global"%string]
            global_store)) = Some n
    /\ n < 3.
Proof.
  exists 1. split; [reflexivity|].
  refine (proj2 (proj2 (proj2 (stats_by_project_merges_global
                                 ["facts"%string]
                                 [None; Some "global"%string]
                                 global_store _))) _ _ 1 _).
  - split.
    + constructor; [simpl; intuition discriminate|].
      constructor; [simpl; tauto|constructor].
    + intros k. simpl. tauto.
  - reflexivity.
  - reflexivity.
  - reflexivity.
Defined.

Lemma insert_by_length {A : Type} (le : A -> A -> bool) (x : A)
  (l : list A) :
  List.length (insert_by le x l) = S (List.length l).
Proof.
  induction l as [|y l IH]; simpl; [reflexivity|].
  destruct (le x y); simpl; congruence.
Qed.

Lemma order_by_length {A : Type} (le : A -> A -> bool) (l : list A) :
  List.length (order_by le l) = List.length l.
Proof.
  unfold order_by. induction l as [|x l IH]; simpl; [reflexivity|].
  now rewrite insert_by_length, IH.
Qed.

Lemma StronglySorted_map {A B : Type} (f : A -> B) (R : B -> B -> Prop)
  (l : list A) :
  StronglySorted (fun a b => R (f a) (f b)) l -> StronglySorted R (map f l).
Proof.
  induction 1 as [|x l Hl IH Hx]; simpl; constructor; [exact IH|].
  apply Forall_forall. intros y Hy. apply in_map_iff in Hy.
  destruct Hy as [z [<- Hz]]. rewrite Forall_forall in Hx. now apply Hx.
Qed.

Lemma StronglySorted_app_inv {A : Type} (R : A -> A -> Prop)
  (l1 l2 : list A) :
  StronglySorted R (l1 ++ l2) ->
  forall a b, In a l1 -> In b l2 -> R a b.
Proof.
  induction l1 as [|x l1 IH]; simpl; intros H a b Ha Hb; [contradiction|].
  inversion H as [|y l Hl Hx]; subst.
  destruct Ha as [->|Ha].
  - rewrite Forall_forall in Hx. apply Hx. apply in_app_iff. now right.
  - now apply IH.
Qed.

(** X21. most_accessed of memory_stats is the top five by access count:
    it has min(5, total_active) entries, each taken from an Active record;
    the entries are in non-increasing order of access count; and no Active
    record left out of it has been accessed more often than a listed
    one. *)
Theorem stats_most_accessed_are_top_five (cats : list string)
  (projs : list (option string)) (s : store) :
  let st := memory_stats cats projs s in
  Z.of_nat (List.length (most_accessed st)) = Z.min 5 (total_active st)
  /\ (forall e, In e (most_accessed st) ->
        exists m, In m (memories s) /\ state_of m = Active
                  /\ e = top_of m)
  /\ StronglySorted (fun a b => t_access_count b <= t_access_count a)
       (most_accessed st)
  /\ (forall m e, In m (memories s) -> state_of m = Active ->
        ~ In (top_of m) (most_accessed st) ->
        In e (most_accessed st) ->
        access_count m <= t_access_count e).
Proof.
  intros st.
  set (le := fun a b : memory => access_count b <=? access_count a).
  set (sorted := order_by le (active_rows s)).
  assert (Htop : most_accessed st = map top_of (firstn 5 sorted))
    by reflexivity.
  assert (Hsorted : StronglySorted (fun a b => le a b = true) sorted).
  { apply order_by_sorted; unfold le.
    - intros a b. rewrite !Z.leb_le. lia.
    - intros a b c. rewrite !Z.leb_le. lia. }
  split; [|split; [|split]].
  - rewrite Htop, length_map, length_firstn. unfold sorted.
    rewrite order_by_length. subst st. unfold memory_stats.
    cbn [total_active]. rewrite active_rows_count. lia.
  - intros e He. rewrite Htop in He. apply in_map_iff in He.
    destruct He as [m [<- Hm]]. apply firstn_in in Hm.
    apply order_by_in, filter_In in Hm. destruct Hm as [Hm Ha].
    exists m. split; [exact Hm|]. split; [|reflexivity].
    now apply is_active_state.
  - rewrite Htop. apply StronglySorted_map.
    apply (StronglySorted_weaken (fun a b => le a b = true)).
    + intros a b. unfold le. cbn [t_access_count top_of]. apply Z.leb_le.
    + now apply firstn_sorted.
  - intros m e Hm Ha Hout He. rewrite Htop in He, Hout.
    apply in_map_iff in He. destruct He as [x [<- Hx]].
    cbn [t_access_count top_of].
    assert (Hin : In m sorted).
    { apply order_by_in, filter_In. split; [exact Hm|].
      now apply is_active_state. }
    rewrite <- (firstn_skipn 5 sorted) in Hin, Hsorted.
    apply in_app_iff in Hin. destruct Hin as [Hin|Hin].
    + exfalso. apply Hout. now apply in_map.
    + apply Z.leb_le.
      exact (StronglySorted_app_inv _ _ _ Hsorted x m Hx Hin).
Qed.

(** * The sweep run twice, whatever the first run left *)

Lemma decay_keeps_groups (now : timestamp) (k : string)
  (rows : list memory) :
  List.length
    (group_members k
       (apply_where (decay_eligible now) (decay_row now) rows))
  = List.length (group_members k rows).
Proof.
  unfold group_members, apply_where. rewrite length_filter_map.
  f_equal. apply filter_ext. intros m.
  now destruct (decay_eligible now m).
Qed.

(** A committed sweep keeps the ids and leaves no key to two Active rows. *)
Lemma committed_sweep_shape (now : timestamp) (s s1 : store) :
  NoDup (ids s) -> consolidate_txn now s = Ok s1 ->
  ids s1 = ids s
  /\ forall k, (List.length (group_members k (memories s1)) <= 1)%nat.
Proof.
  intros Hnd Hrun. rewrite (consolidate_txn_rowwise now s s1 Hnd Hrun).
  set (rows := apply_where (retire_eligible now)
                 (set_superseded_stamped (-1) now)
                 (memories (decay_pass now s))).
  assert (Hids : map id rows = ids s).
  { unfold rows. rewrite apply_where_ids by reflexivity.
    apply decay_pass_ids. }
  split.
  - unfold ids at 1. cbn [memories with_memories]. rewrite map_map.
    rewrite <- Hids. apply map_ext. intros m. apply dedup_row_id.
  - intros k. cbn [memories with_memories].
    apply dedup_leaves_no_group. now rewrite Hids.
Qed.

(** After a committed sweep, a second run that finds nothing to retire is
    one more decay pass and nothing else. *)
Lemma second_sweep_commits (now : timestamp) (s s1 : store) :
  NoDup (ids s) -> consolidate_txn now s = Ok s1 ->
  (forall m, In m (memories (decay_pass now s1)) ->
             retire_eligible now m = false) ->
  consolidate_txn now s1 = Ok (decay_pass now s1).
Proof.
  intros Hnd Hrun Hnone. unfold consolidate_txn, retire_pass.
  rewrite update_fk_none by exact Hnone. cbn [bind].
  unfold dedup_pass. rewrite dupes_none; [reflexivity|].
  intros k. unfold decay_pass, update_where. cbn [memories with_memories].
  rewrite decay_keeps_groups.
  apply (committed_sweep_shape now s s1 Hnd Hrun).
Qed.

Lemma decay_pass_rows (now : timestamp) (s : store) :
  Forall2
    (fun m m' =>
       superseded_by m' = superseded_by m /\ state_of m' = state_of m
       /\ same_columns m m'
       /\ (importance m' = importance m
           \/ (importance m' = (importance m * 0.9)%Q
               /\ decay_eligible now m = true)))
    (memories s) (memories (decay_pass now s)).
Proof.
  unfold decay_pass, update_where, apply_where.
  cbn [memories with_memories]. apply Forall2_map_right. intros m _.
  destruct (decay_eligible now m) eqn:E.
  - split; [reflexivity|]. split; [reflexivity|].
    split; [repeat split|]. right. now split.
  - split; [reflexivity|]. split; [reflexivity|].
    split; [apply same_columns_refl|]. now left.
Qed.

Lemma Forall2_map_eq {A B : Type} (f : A -> B) (R : A -> A -> Prop)
  (l l' : list A) :
  (forall a b, R a b -> f b = f a) -> Forall2 R l l' -> map f l' = map f l.
Proof.
  intros H. induction 1 as [|a b l l' Hab _ IH]; simpl; [reflexivity|].
  now rewrite (H a b Hab), IH.
Qed.

(** C1. The sweep is not idempotent, but a second run in immediate
    succession at the same time never changes a lifecycle state.  On every
    store with unique positive ids, the store after the second run is
    either the store after the first run or that store with the decay
    statement applied once more: no superseded_by changes, no tag and no
    relation, and of a record only importance and updated_at can change,
    the importance being what it was or 0.9 times that for a record the
    decay statement still matches.  The second run changes nothing when
    the first run left no Active record eligible for decay, when the first
    run was rolled back, and when the renewed decay makes some record
    eligible for retirement (the second run is then rolled back);
    otherwise it is exactly one more decay pass. *)
Theorem second_sweep_keeps_lifecycle (now : timestamp) (s : store)
  (Hwf : wf_store s) :
  let s1 := consolidate now s in
  let s2 := consolidate now s1 in
  (s2 = s1 \/ s2 = decay_pass now s1)
  /\ map superseded_by (memories s2) = map superseded_by (memories s1)
  /\ map state_of (memories s2) = map state_of (memories s1)
  /\ Forall2
       (fun m m' =>
          same_columns m m'
          /\ (importance m' = importance m
              \/ (importance m' = (importance m * 0.9)%Q
                  /\ decay_eligible now m = true)))
       (memories s1) (memories s2)
  /\ tags s2 = tags s1 /\ relations s2 = relations s1
  /\ ((forall m, In m (memories s1) -> decay_eligible now m = false) ->
      s2 = s1)
  /\ ((forall c, consolidate_txn now s <> Ok c) -> s2 = s1)
  /\ ((exists m, In m (memories (decay_pass now s1))
                 /\ retire_eligible now m = true) -> s2 = s1)
  /\ ((exists c, consolidate_txn now s = Ok c) ->
      (forall m, In m (memories (decay_pass now s1)) ->
                 retire_eligible now m = false) ->
      s2 = decay_pass now s1).
Proof.
  intros s1 s2. destruct Hwf as [Hpk Hpos _].
  assert (Hraise : (forall c, consolidate_txn now s <> Ok c) -> s2 = s1).
  { intros H. subst s2 s1. unfold consolidate.
    destruct (consolidate_txn now s) as [c|e] eqn:E; [now elim (H c)|].
    cbn [bind durable]. now rewrite E. }
  assert (Habort : (exists m, In m (memories (decay_pass now s1))
                              /\ retire_eligible now m = true) -> s2 = s1).
  { intros [m [Hm He]].
    destruct (consolidate_txn now s) as [c|e] eqn:E.
    - assert (Hs1 : s1 = c) by (subst s1; unfold consolidate; now rewrite E).
      apply (sweep_aborts_on_retirement now s1 m Hm He).
      rewrite Hs1, (proj1 (committed_sweep_shape now s c Hpk E)).
      unfold ids. rewrite in_map_iff. intros [x [Hx Hin]].
      specialize (Hpos x Hin). lia.
    - apply Hraise. intros c. congruence. }
  assert (Hcommit : (exists c, consolidate_txn now s = Ok c) ->
            (forall m, In m (memories (decay_pass now s1)) ->
                       retire_eligible now m = false) ->
            s2 = decay_pass now s1).
  { intros [c E] Hnone.
    assert (Hs1 : s1 = c) by (subst s1; unfold consolidate; now rewrite E).
    subst s2. unfold consolidate at 1.
    rewrite Hs1 in *.
    now rewrite (second_sweep_commits now s c Hpk E Hnone). }
  assert (Hcases : s2 = s1 \/ s2 = decay_pass now s1).
  { destruct (consolidate_txn now s) as [c|e] eqn:E.
    - destruct (existsb (retire_eligible now)
                  (memories (decay_pass now s1))) eqn:Ex.
      + left. apply Habort. apply existsb_exists in Ex. exact Ex.
      + right. apply Hcommit; [now exists c|].
        intros m Hm. destruct (retire_eligible now m) eqn:Em; [|reflexivity].
        assert (existsb (retire_eligible now)
                  (memories (decay_pass now s1)) = true)
          by (apply existsb_exists; now exists m).
        congruence.
    - left. apply Hraise. intros c. congruence. }
  assert (Hrows : Forall2
            (fun m m' =>
               superseded_by m' = superseded_by m
               /\ state_of m' = state_of m
               /\ same_columns m m'
               /\ (importance m' = importance m
                   \/ (importance m' = (importance m * 0.9)%Q
                       /\ decay_eligible now m = true)))
            (memories s1) (memories s2)).
  { destruct Hcases as [-> | ->]; [|apply decay_pass_rows].
    apply Forall2_same. intros m.
    split; [reflexivity|]. split; [reflexivity|].
    split; [apply same_columns_refl|]. now left. }
  split; [exact Hcases|].
  split; [apply (Forall2_map_eq superseded_by _ _ _) with (2 := Hrows);
          tauto|].
  split; [apply (Forall2_map_eq state_of _ _ _) with (2 := Hrows); tauto|].
  split; [eapply Forall2_impl; [|exact Hrows]; cbv beta; tauto|].
  split; [destruct Hcases as [-> | ->]; reflexivity|].
  split; [destruct Hcases as [-> | ->]; reflexivity|].
  split; [|split; [exact Hraise|split; [exact Habort|exact Hcommit]]].
  intros Hrest. subst s2 s1. unfold consolidate in *.
  destruct (consolidate_txn now s) as [c|e] eqn:E; cbn [bind durable] in *.
  - now rewrite (second_sweep_at_rest now s c Hpk E Hrest).
  - now rewrite E.
Qed.

Lemma second_sweep_keeps_lifecycle_witness :
  consolidate now0
    (consolidate now0 (one_row (Samples.row 1 "use uv" 0.12 0 100 None)))
  = consolidate now0 (one_row (Samples.row 1 "use uv" 0.12 0 100 None)).
Proof.
  refine (proj1 (proj2 (proj2 (proj2 (proj2 (proj2 (proj2 (proj2 (proj2
            (second_sweep_keeps_lifecycle now0
               (one_row (Samples.row 1 "use uv" 0.12 0 100 None)) _))))))))) _).
  - constructor.
    + unfold ids. simpl. repeat constructor. simpl. tauto.
    + intros m [<-|[]]. simpl. lia.
    + intros p [].
  - eexists. split; [left; reflexivity|reflexivity].
Defined.
